(** * BulbaSaur Object Notation: the C++ lexer and parser (cpp-bson)

    A shallow embedding of [cpp-bson/Lexer.cpp] and [cpp-bson/BSONParser.cpp]
    and the properties of the format that the implementation has.

    Conventions of the embedding:
    - [std::string] is [string] (a sequence of bytes);
    - [int] counters (line numbers, levels) are [Z]; inputs are assumed
      shorter than 2^31 characters, so that no counter overflows;
    - [size_t] arithmetic is written out modulo 2^64 ([to_size_t]);
    - a thrown [std::runtime_error] is [Throw msg], carrying its message;
    - [std::shared_ptr<BSONMap>] is an address into a store of maps, so
      that the in-place updates through the context stack are visible in
      the tree;
    - [std::map<std::string, BSONValue>] is [gmap string BSONValue]. *)

From Stdlib Require Import ZArith String Ascii List Bool Lia.
From stdpp Require Import base option list gmap strings.

Local Open Scope string_scope.
Local Open Scope Z_scope.

(** ** Exceptions *)

(** What a C++ function call can do: return a value or throw.  [Undefined]
    is undefined behaviour ([back()] of an empty vector); [Fuel] is the
    bound of a loop of the model being reached, which never happens with
    the bounds the model uses (see [tokenizeValue_fuel], [parse_fuel]). *)
Inductive result (A : Type) : Type :=
| Ok (a : A)
| Throw (what : string)
| Undefined
| Fuel.
Arguments Ok {A} a.
Arguments Throw {A} what.
Arguments Undefined {A}.
Arguments Fuel {A}.

Definition bind {A B : Type} (r : result A) (k : A -> result B) : result B :=
  match r with
  | Ok a => k a
  | Throw w => Throw w
  | Undefined => Undefined
  | Fuel => Fuel
  end.

Notation "'do' x <- r ; k" := (bind r (fun x => k))
  (at level 10, x pattern, r at level 100, k at level 200).

(** The messages of BSONParser.cpp, and the ones the code spells out in
    place. *)
Definition ERR_SYNTAX : string := "It hurt itself in its confusion!".
Definition ERR_INDENTATION : string := "The attack missed!".
Definition ERR_TYPE : string := "Target is immune!".
Definition ERR_BADGES : string := "Not enough badges!".
Definition ERR_HEADER : string := "Status: Fainted".
Definition ERR_TAB : string := "Poison Type: Tab character detected".
Definition ERR_RESERVED : string := "It burns the bulb".

(** ** Characters and strings *)

Definition chr (n : nat) : ascii := ascii_of_nat n.
Definition code (c : ascii) : nat := nat_of_ascii c.

Definition LF : ascii := chr 10.
Definition CR : ascii := chr 13.
Definition TAB : ascii := chr 9.
Definition SPACE : ascii := chr 32.
Definition QUOTE : ascii := chr 34.
Definition COMMA : ascii := chr 44.

(** [std::isspace] in the C locale. *)
Definition isspace (c : ascii) : bool :=
  let n := code c in ((9 <=? n) && (n <=? 13))%nat || (n =? 32)%nat.

Definition isdigit (c : ascii) : bool :=
  let n := code c in ((48 <=? n) && (n <=? 57))%nat.

Definition isupper (c : ascii) : bool :=
  let n := code c in ((65 <=? n) && (n <=? 90))%nat.

Definition islower (c : ascii) : bool :=
  let n := code c in ((97 <=? n) && (n <=? 122))%nat.

Definition isalnum (c : ascii) : bool := isdigit c || isupper c || islower c.

Definition tolower (c : ascii) : ascii :=
  if isupper c then chr (code c + 32) else c.

Definition str_size (s : string) : Z := Z.of_nat (String.length s).

(** Conversion of an [int] (or of a difference of sizes) to [size_t]. *)
Definition to_size_t (z : Z) : Z := z mod 2 ^ 64.

(** [s.substr(pos, count)], for [pos <= s.size()]: at most [count]
    characters, [count] being a [size_t]. *)
Definition substr (s : string) (pos : Z) (count : Z) : string :=
  String.substring (Z.to_nat pos) (Z.to_nat (Z.min count (str_size s - pos))) s.

(** [s.substr(pos)]. *)
Definition substr_from (s : string) (pos : Z) : string :=
  substr s pos (str_size s - pos).

(** [s.find(pat)], [None] standing for [npos]. *)
Fixpoint find (pat : string) (s : string) : option Z :=
  if String.prefix pat s then Some 0
  else match s with
       | EmptyString => None
       | String _ s' => match find pat s' with
                        | Some k => Some (k + 1)
                        | None => None
                        end
       end.

Fixpoint drop_while (p : ascii -> bool) (s : string) : string :=
  match s with
  | EmptyString => EmptyString
  | String c s' => if p c then drop_while p s' else s
  end.

Fixpoint take_while (p : ascii -> bool) (s : string) : string :=
  match s with
  | EmptyString => EmptyString
  | String c s' => if p c then String c (take_while p s') else EmptyString
  end.

(** Removal of the characters satisfying [p] at the end of [s]; the empty
    string is returned when every character satisfies [p]. *)
Fixpoint drop_while_end (p : ascii -> bool) (s : string) : string :=
  match s with
  | EmptyString => EmptyString
  | String c s' =>
      match drop_while_end p s' with
      | EmptyString => if p c then EmptyString else String c EmptyString
      | r => String c r
      end
  end.

Fixpoint forall_chars (p : ascii -> bool) (s : string) : bool :=
  match s with
  | EmptyString => true
  | String c s' => p c && forall_chars p s'
  end.

(** Lexer::startsWith *)
Definition startsWith (str prefix : string) : bool :=
  (str_size prefix <=? str_size str) && String.eqb (substr str 0 (str_size prefix)) prefix.

(** Lexer::endsWith *)
Definition endsWith (str suffix : string) : bool :=
  (str_size suffix <=? str_size str)
  && String.eqb (substr str (str_size str - str_size suffix) (str_size suffix)) suffix.

Definition is_blank (c : ascii) : bool := Ascii.eqb c SPACE || Ascii.eqb c TAB.

(** Lexer::trim: the characters between the first and the last one that is
    neither a space nor a tab. *)
Definition trim (str : string) : string :=
  drop_while_end is_blank (drop_while is_blank str).

(** The lines that repeated [std::getline(ss, line, delim)] calls read from
    a stream holding [s], until the call fails: the delimiter ends a line
    and is dropped, the end of the stream ends the last line, and a read at
    the end of the stream fails (so that no empty line follows a final
    delimiter, and the empty stream has no line). *)
Fixpoint getlines (delim : ascii) (s : string) : list string :=
  match s with
  | EmptyString => []
  | String c rest =>
      if Ascii.eqb c delim then EmptyString :: getlines delim rest
      else match getlines delim rest with
           | [] => [String c EmptyString]
           | l :: ls => String c l :: ls
           end
  end.

(** ** Number conversions of the standard library *)

(** The value of a double is kept as the numeral that [strtod] read: the
    double is the binary64 number nearest to it. *)
Inductive double : Type :=
| DDec (neg : bool) (digits : Z) (exp10 : Z)  (* digits * 10^exp10 *)
| DHex (neg : bool) (digits : Z) (exp2 : Z)   (* digits * 2^exp2 *)
| DInf (neg : bool)
| DNan (neg : bool).

Definition digit_value (c : ascii) : Z :=
  if isdigit c then Z.of_nat (code c) - 48
  else Z.of_nat (code (tolower c)) - 87.

Definition isxdigit (c : ascii) : bool :=
  isdigit c || (let n := code (tolower c) in ((97 <=? n) && (n <=? 102))%nat).

Fixpoint number_value (base : Z) (acc : Z) (s : string) : Z :=
  match s with
  | EmptyString => acc
  | String c s' => number_value base (base * acc + digit_value c) s'
  end.

(** An optional sign: whether it is a minus, its length, and what follows. *)
Definition read_sign (s : string) : bool * Z * string :=
  match s with
  | String c r =>
      if Ascii.eqb c (chr 45) then (true, 1, r)
      else if Ascii.eqb c (chr 43) then (false, 1, r)
      else (false, 0, s)
  | EmptyString => (false, 0, s)
  end.

Definition INT_MIN : Z := - 2 ^ 31.
Definition INT_MAX : Z := 2 ^ 31 - 1.

(** [std::stoi(s, &pos)]: [strtol] in base 10 (white space, an optional
    sign, digits).  [Some (v, pos)] when it returns; [None] when it throws
    ([std::invalid_argument] without a digit, [std::out_of_range] outside
    of [int]); the callers catch both alike. *)
Definition stoi (s : string) : option (Z * Z) :=
  let ws := take_while isspace s in
  let '(neg, sign_len, s1) := read_sign (drop_while isspace s) in
  let ds := take_while isdigit s1 in
  if String.eqb ds EmptyString then None
  else
    let v := number_value 10 0 ds in
    let v := if neg then - v else v in
    if (INT_MIN <=? v) && (v <=? INT_MAX)
    then Some (v, str_size ws + sign_len + str_size ds)
    else None.

(** An optional exponent part: a marker character, an optional sign and at
    least one decimal digit; nothing is read when no digit follows. *)
Definition read_exponent (marker : ascii) (s : string) : Z * Z :=
  match s with
  | String c r =>
      if Ascii.eqb (tolower c) marker then
        let '(neg, sign_len, r1) := read_sign r in
        let ds := take_while isdigit r1 in
        if String.eqb ds EmptyString then (0, 0)
        else
          let e := number_value 10 0 ds in
          ((if neg then - e else e), 1 + sign_len + str_size ds)
      else (0, 0)
  | EmptyString => (0, 0)
  end.

(** A mantissa in the given base: digits, an optional point, digits, with
    at least one digit; then an optional exponent.  The result is the
    digits read as one integer, the exponent that scales it (in units of
    [scale] per fractional digit), and the length read. *)
Definition read_mantissa (isdig : ascii -> bool) (base scale : Z)
    (marker : ascii) (s : string) : option (Z * Z * Z) :=
  let ip := take_while isdig s in
  let r := drop_while isdig s in
  let '(fp, point_len, r1) :=
    match r with
    | String c r' =>
        if Ascii.eqb c (chr 46)
        then (take_while isdig r', 1, drop_while isdig r')
        else (EmptyString, 0, r)
    | EmptyString => (EmptyString, 0, r)
    end in
  if String.eqb ip EmptyString && String.eqb fp EmptyString then None
  else
    let '(e, exp_len) := read_exponent marker r1 in
    Some (number_value base (number_value base 0 ip) fp,
          e - scale * str_size fp,
          str_size ip + point_len + str_size fp + exp_len).

Fixpoint lower (s : string) : string :=
  match s with
  | EmptyString => EmptyString
  | String c s' => String (tolower c) (lower s')
  end.

(** The length of a [nan(...)] payload at the head of [s], 0 without one. *)
Definition nan_payload (s : string) : Z :=
  match s with
  | String c r =>
      if Ascii.eqb c (chr 40) then
        let is_n c := isalnum c || Ascii.eqb c (chr 95) in
        match drop_while is_n r with
        | String c' _ =>
            if Ascii.eqb c' (chr 41) then 2 + str_size (take_while is_n r) else 0
        | EmptyString => 0
        end
      else 0
  | EmptyString => 0
  end.

(** The special values and the two numeral forms of [strtod], after the
    sign. *)
Definition read_double (neg : bool) (s : string) : option (double * Z) :=
  if String.prefix "infinity" (lower s) then Some (DInf neg, 8)
  else if String.prefix "inf" (lower s) then Some (DInf neg, 3)
  else if String.prefix "nan" (lower s)
  then Some (DNan neg, 3 + nan_payload (substr_from s 3))
  else
    let hex :=
      if String.prefix "0x" (lower s)
      then read_mantissa isxdigit 16 4 (chr 112) (substr_from s 2)
      else None in
    match hex with
    | Some (m, e, n) => Some (DHex neg m e, 2 + n)
    | None =>
        match read_mantissa isdigit 10 1 (chr 101) s with
        | Some (m, e, n) => Some (DDec neg m e, n)
        | None => None
        end
    end.

(** Whether the magnitude [m * base^e] is out of the range of a double, so
    that [strtod] sets [ERANGE]: it rounds to infinity, or it is not zero,
    lies below the smallest normal number and is not a multiple of the
    smallest subnormal one (the C library decides when a small value is a
    range error; this is what glibc does).  No property below depends on
    the range. *)
Definition out_of_double_range (base : Z) (m e : Z) : bool :=
  let num := if 0 <=? e then m * base ^ e else m in
  let den := if 0 <=? e then 1 else base ^ (- e) in
  (2 ^ 1024 - 2 ^ 970 <=? num / den)
  || ((0 <? num) && (num * 2 ^ 1022 <? den)
      && negb ((num * 2 ^ 1074) mod den =? 0)).

Definition erange (d : double) : bool :=
  match d with
  | DDec _ m e => out_of_double_range 10 m e
  | DHex _ m e => out_of_double_range 2 m e
  | DInf _ | DNan _ => false
  end.

(** [std::stod(s, &pos)]: [strtod] (white space, an optional sign, then a
    special value, a hexadecimal or a decimal numeral).  [Some (d, pos)]
    when it returns; [None] when it throws ([std::invalid_argument] when
    nothing converts, [std::out_of_range] on [ERANGE]). *)
Definition stod (s : string) : option (double * Z) :=
  let ws := take_while isspace s in
  let '(neg, sign_len, s1) := read_sign (drop_while isspace s) in
  match read_double neg s1 with
  | Some (d, n) =>
      if erange d then None else Some (d, str_size ws + sign_len + n)
  | None => None
  end.

(** ** Lexer.hpp: tokens *)

Inductive TokenType : Type :=
| TOKEN_HEADER
| TOKEN_INDENT
| TOKEN_SECTION_OPEN
| TOKEN_SECTION_CLOSE
| TOKEN_IDENTIFIER
| TOKEN_VINE_WHIP
| TOKEN_STRING
| TOKEN_NUMBER
| TOKEN_BOOL
| TOKEN_NULL
| TOKEN_ARRAY_START
| TOKEN_ARRAY_END
| TOKEN_COMMA
| TOKEN_EOF.

#[global] Instance TokenType_eq_dec : EqDecision TokenType.
Proof. solve_decision. Defined.

Record Token : Type := mkToken {
  type : TokenType;
  literal : string;
  line : Z;
  level : Z
}.

(** [tokens.push_back(t)] *)
Definition push_back {A : Type} (v : list A) (x : A) : list A := v ++ [x].

(** ** Lexer.cpp *)

(** Removal of one carriage return at the end of the line
    ([if (!line.empty() && line.back() == '\r') line.pop_back()]). *)
Fixpoint strip_cr (line : string) : string :=
  match line with
  | EmptyString => EmptyString
  | String c EmptyString => if Ascii.eqb c CR then EmptyString else line
  | String c rest => String c (strip_cr rest)
  end.

(** [line = line.substr(0, line.find("zZz"))] when the marker is found. *)
Definition strip_comment (line : string) : string :=
  match find "zZz" line with
  | Some commentPos => substr line 0 commentPos
  | None => line
  end.

(** The scan of the leading characters of a line: the number of spaces
    counted, and whether the scan stopped on a tab. *)
Fixpoint scan_indent (line : string) (indentCount : Z) : Z * bool :=
  match line with
  | EmptyString => (indentCount, false)
  | String c rest =>
      if Ascii.eqb c SPACE then scan_indent rest (indentCount + 1)
      else if Ascii.eqb c TAB then (indentCount, true)
      else (indentCount, false)
  end.

Definition quote : string := String QUOTE EmptyString.

(** The loop over the segments of the inside of an array in
    Lexer::tokenizeValue, [tokenizeElement] being the recursive call. *)
Fixpoint tokenize_segments
    (tokenizeElement : string -> list Token -> result (list Token))
    (lineNum : Z) (segments : list string) (first : bool) (tokens : list Token)
    : result (list Token) :=
  match segments with
  | [] => Ok tokens
  | segment :: segments =>
      let tokens :=
        if first then tokens
        else push_back tokens (mkToken TOKEN_COMMA "" lineNum 0) in
      do tokens <- tokenizeElement segment tokens;
      tokenize_segments tokenizeElement lineNum segments false tokens
  end.

(** Whether a conversion read the whole of [s] ([pos == s.length()]). *)
Definition whole {A : Type} (s : string) (r : option (A * Z)) : bool :=
  match r with
  | Some (_, pos) => pos =? str_size s
  | None => false
  end.

(** Lexer::tokenizeValue.  The recursion is on the segments of the inside
    of an array, which are shorter than the value; [fuel] bounds its depth
    and is never reached when it exceeds the length of [valStr]. *)
Fixpoint tokenizeValue (fuel : nat) (valStr : string) (lineNum : Z)
    (tokens : list Token) : result (list Token) :=
  match fuel with
  | O => Fuel
  | S fuel =>
      let s := trim valStr in
      if String.eqb s EmptyString then Ok tokens
      else if startsWith s quote && endsWith s quote then
        Ok (push_back tokens
              (mkToken TOKEN_STRING (substr s 1 (to_size_t (str_size s - 2))) lineNum 0))
      else if String.eqb s "SuperEffective" then
        Ok (push_back tokens (mkToken TOKEN_BOOL "true" lineNum 0))
      else if String.eqb s "NotVeryEffective" then
        Ok (push_back tokens (mkToken TOKEN_BOOL "false" lineNum 0))
      else if String.eqb s "MissingNo" then
        Ok (push_back tokens (mkToken TOKEN_NULL "" lineNum 0))
      else if startsWith s "<|" && endsWith s "|>" then
        let tokens := push_back tokens (mkToken TOKEN_ARRAY_START "" lineNum 0) in
        let inner := substr s 2 (to_size_t (str_size s - 4)) in
        do tokens <-
          tokenize_segments (fun segment => tokenizeValue fuel segment lineNum)
            lineNum (getlines COMMA inner) true tokens;
        Ok (push_back tokens (mkToken TOKEN_ARRAY_END "" lineNum 0))
      else if whole s (stoi s) then
        Ok (push_back tokens (mkToken TOKEN_NUMBER s lineNum 0))
      else if whole s (stod s) then
        Ok (push_back tokens (mkToken TOKEN_NUMBER s lineNum 0))
      else Throw ERR_TYPE
  end.

(** The recursion bound that [tokenizeLine] gives [tokenizeValue]. *)
Definition tokenizeValue_fuel (valStr : string) : nat :=
  S (String.length valStr).

(** [std::regex_match(line, matches, re)] for the pattern of the source: a
    group of one or more characters of [a-zA-Z0-9_], white space ([\s],
    any number), a group of one or more tildes and [>], white space, and a
    group of any characters up to the end.  The result is the first and the
    third group of the match.  Every repetition of the pattern is followed by a character
    that it does not match itself, so the greedy match is the only one:
    the longest run of key characters, white space, the longest run of
    tildes, [>], white space, and a rest without line terminators (the dot
    matches neither a line feed nor a carriage return). *)
Definition is_key_char (c : ascii) : bool := isalnum c || Ascii.eqb c (chr 95).
Definition is_tilde (c : ascii) : bool := Ascii.eqb c (chr 126).
Definition is_dot_char (c : ascii) : bool := negb (Ascii.eqb c LF || Ascii.eqb c CR).

Definition regex_match_kv (line : string) : option (string * string) :=
  let key := take_while is_key_char line in
  if String.eqb key EmptyString then None
  else
    let r := drop_while isspace (drop_while is_key_char line) in
    if String.eqb (take_while is_tilde r) EmptyString then None
    else
      match drop_while is_tilde r with
      | String c r' =>
          if Ascii.eqb c (chr 62) then
            let valStr := drop_while isspace r' in
            if forall_chars is_dot_char valStr then Some (key, valStr) else None
          else None
      | EmptyString => None
      end.

(** Lexer::tokenizeLine *)
Definition tokenizeLine (line : string) (lineNum : Z) (tokens : list Token)
    : result (list Token) :=
  let section_header stage :=
    let tokens := push_back tokens (mkToken TOKEN_SECTION_OPEN "" lineNum stage) in
    let key := substr line 4 (to_size_t (str_size line - 8)) in
    let tokens := push_back tokens (mkToken TOKEN_IDENTIFIER key lineNum 0) in
    push_back tokens (mkToken TOKEN_SECTION_CLOSE "" lineNum stage) in
  if startsWith line "(o) " && endsWith line " (o)" then Ok (section_header 1)
  else if startsWith line "(O) " && endsWith line " (O)" then Ok (section_header 2)
  else if startsWith line "(@) " && endsWith line " (@)" then Ok (section_header 3)
  else
    match regex_match_kv line with
    | Some (key, valStr) =>
        let tokens := push_back tokens (mkToken TOKEN_IDENTIFIER key lineNum 0) in
        let tokens := push_back tokens (mkToken TOKEN_VINE_WHIP "" lineNum 0) in
        tokenizeValue (tokenizeValue_fuel valStr) valStr lineNum tokens
    | None => Throw ERR_SYNTAX
    end.

(** The body of the loop of Lexer::tokenize, over the lines that
    [std::getline] reads: the state is the line counter, the [firstLine]
    flag and the tokens pushed so far. *)
Fixpoint tokenize_lines (lines : list string) (lineNum : Z) (firstLine : bool)
    (tokens : list Token) : result (Z * list Token) :=
  match lines with
  | [] => Ok (lineNum, tokens)
  | line :: lines =>
      let lineNum := lineNum + 1 in
      let line := strip_cr line in
      if firstLine then
        if negb (String.eqb line "BULBA!") then Throw ERR_HEADER
        else
          tokenize_lines lines lineNum false
            (push_back tokens (mkToken TOKEN_HEADER "BULBA!" lineNum 0))
      else
        let line := strip_comment line in
        let line := drop_while_end isspace line in
        if String.eqb line EmptyString
        then tokenize_lines lines lineNum firstLine tokens
        else
          let '(indentCount, hasTab) := scan_indent line 0 in
          if hasTab then Throw ERR_TAB
          else if negb (Z.rem indentCount 4 =? 0) then Throw ERR_INDENTATION
          else
            let level := Z.quot indentCount 4 in
            let tokens := push_back tokens (mkToken TOKEN_INDENT "" lineNum level) in
            let trimmedLine := trim line in
            do tokens <- tokenizeLine trimmedLine lineNum tokens;
            tokenize_lines lines lineNum firstLine tokens
  end.

(** Lexer::tokenize, for a lexer built on [content]. *)
Definition tokenize (content : string) : result (list Token) :=
  do r <- tokenize_lines (getlines LF content) 0 true [];
  let '(lineNum, tokens) := r in
  Ok (push_back tokens (mkToken TOKEN_EOF "" lineNum 0)).

(** ** BSONParser.hpp: values and parser state *)

(** A [std::shared_ptr<BSONMap>]: the address of a map in the store. *)
Abbreviation ptr := nat.

#[warnings="-register-all"]
Inductive BSONValue : Type :=
| VString (v : string)
| VInt (v : Z)
| VFloat (v : double)
| VBool (v : bool)
| VNull
| VArray (v : list BSONValue)
| VObject (v : ptr).

Abbreviation BSONMap := (gmap string BSONValue).

(** The maps made by [std::make_shared<BSONMap>()], in the order of their
    creation: the address of a map is its index. *)
Abbreviation Store := (list BSONMap).

Record Context : Type := mkContext {
  ctx_map : ptr;
  ctx_level : Z
}.

(** The members of BSONParser, with the store of the maps they point into. *)
Record Parser : Type := mkParser {
  heap : Store;
  stack : list Context;
  currentLevel : Z
}.

(** What BSONParser::parse returns: a copy of the root map, whose object
    values point into the store. *)
Record Document : Type := mkDocument {
  doc_root : BSONMap;
  doc_heap : Store
}.

(** ** BSONParser.cpp *)

(** BSONParser::validateKey *)
Definition validateKey (key : string) : result unit :=
  if String.eqb key "Charizard" then Throw ERR_RESERVED else Ok tt.

(** The TOKEN_NUMBER case of BSONParser::parseValueFromTokens. *)
Definition parseNumber (literal : string) : result BSONValue :=
  let as_double :=
    match stod literal with
    | Some (d, _) => Ok (VFloat d)
    | None => Throw ERR_TYPE
    end in
  match stoi literal with
  | Some (v, pos) => if pos =? str_size literal then Ok (VInt v) else as_double
  | None => as_double
  end.

(** The loop of the TOKEN_ARRAY_START case of
    BSONParser::parseValueFromTokens, [parseElement] being the recursive
    call at a cursor; [n] bounds the number of turns. *)
Fixpoint parse_elements (parseElement : nat -> result (BSONValue * nat))
    (tokens : list Token) (n : nat) (i : nat) (arr : list BSONValue)
    : result (BSONValue * nat) :=
  match n with
  | O => Fuel
  | S n =>
      match tokens !! i with
      | None => Throw ERR_SYNTAX
      | Some t =>
          if bool_decide (type t = TOKEN_ARRAY_END) then Ok (VArray arr, S i)
          else if bool_decide (type t = TOKEN_COMMA)
          then parse_elements parseElement tokens n (S i) arr
          else
            do r <- parseElement i;
            parse_elements parseElement tokens n (snd r) (push_back arr (fst r))
      end
  end.

(** BSONParser::parseValueFromTokens: the value and the cursor after it.
    Every call and every turn of the array loop moves the cursor forward;
    [fuel] bounds their number and is never reached when it exceeds the
    number of tokens from the cursor on. *)
Fixpoint parseValueFromTokens (fuel : nat) (tokens : list Token) (i : nat)
    : result (BSONValue * nat) :=
  match fuel with
  | O => Fuel
  | S fuel =>
      match tokens !! i with
      | None => Throw ERR_SYNTAX
      | Some token =>
          let i := S i in
          match type token with
          | TOKEN_STRING => Ok (VString (literal token), i)
          | TOKEN_NUMBER => do v <- parseNumber (literal token); Ok (v, i)
          | TOKEN_BOOL => Ok (VBool (String.eqb (literal token) "true"), i)
          | TOKEN_NULL => Ok (VNull, i)
          | TOKEN_ARRAY_START =>
              parse_elements (parseValueFromTokens fuel tokens) tokens fuel i []
          | _ => Throw ERR_TYPE
          end
      end
  end.

(** [while (stack.size() > n) stack.pop_back();] for a [size_t] n. *)
Definition pop_to (n : Z) (stack : list Context) : list Context :=
  take (Z.to_nat (Z.min n (Z.of_nat (length stack)))) stack.

(** The assignment of [val] to the entry [key] of the map that [m] points
    to, which replaces an entry that is there. *)
Definition assign (m : ptr) (key : string) (val : BSONValue) (h : Store) : Store :=
  alter (fun mp : BSONMap => <[key := val]> mp) m h.

(** What one turn of the loop of BSONParser::parse does: it goes on with a
    new cursor and state, or leaves the loop. *)
Inductive flow : Type :=
| Continue (i : nat) (st : Parser)
| Break.

(** The section header branch of the loop, the cursor [i] being on the
    TOKEN_SECTION_OPEN token [nextToken]. *)
Definition parse_section (tokens : list Token) (i : nat) (expectedLevel : Z)
    (nextToken : Token) (st : Parser) : result flow :=
  let headerLevel := level nextToken in
  if negb (expectedLevel =? headerLevel - 1) then Throw ERR_INDENTATION
  else if Z.of_nat (length (stack st)) <? to_size_t headerLevel then Throw ERR_BADGES
  else
    let i := S i in
    match tokens !! i with
    | None => Throw ERR_SYNTAX
    | Some keyToken =>
        if negb (bool_decide (type keyToken = TOKEN_IDENTIFIER)) then Throw ERR_SYNTAX
        else
          do _ <- validateKey (literal keyToken);
          let i := S i in
          match tokens !! i with
          | None => Throw ERR_SYNTAX
          | Some closeToken =>
              if negb (bool_decide (type closeToken = TOKEN_SECTION_CLOSE))
              then Throw ERR_SYNTAX
              else
                let i := S i in
                let stack := pop_to (to_size_t headerLevel) (stack st) in
                let newMap : ptr := length (heap st) in
                let heap := push_back (heap st) ∅ in
                match last stack with
                | None => Undefined
                | Some parent =>
                    let heap :=
                      assign (ctx_map parent) (literal keyToken) (VObject newMap) heap in
                    Ok (Continue i
                          (mkParser heap
                             (push_back stack (mkContext newMap headerLevel))
                             headerLevel))
                end
          end
    end.

(** The check of the indentation of a key/value line
    ([if (expectedLevel != currentLevel) ...]), which drops the frames
    above the level of the line. *)
Definition dedent (expectedLevel : Z) (st : Parser) : result Parser :=
  if negb (expectedLevel =? currentLevel st) then
    if expectedLevel <? currentLevel st then
      Ok (mkParser (heap st)
            (pop_to (to_size_t (expectedLevel + 1)) (stack st))
            expectedLevel)
    else Throw ERR_INDENTATION
  else Ok st.

(** The bound on the turns of the loops of the parser. *)
Definition parse_fuel (tokens : list Token) : nat := S (length tokens).

(** The key/value branch of the loop, the cursor [i] being on the
    TOKEN_IDENTIFIER token [nextToken]. *)
Definition parse_key_value (tokens : list Token) (i : nat) (expectedLevel : Z)
    (nextToken : Token) (st : Parser) : result flow :=
  do st <- dedent expectedLevel st;
  let keyToken := nextToken in
  do _ <- validateKey (literal keyToken);
  let i := S i in
  match tokens !! i with
  | None => Throw ERR_SYNTAX
  | Some t =>
      if negb (bool_decide (type t = TOKEN_VINE_WHIP)) then Throw ERR_SYNTAX
      else
        let i := S i in
        do r <- parseValueFromTokens (parse_fuel tokens) tokens i;
        let '(val, i) := r in
        match last (stack st) with
        | None => Undefined
        | Some current =>
            Ok (Continue i
                  (mkParser (assign (ctx_map current) (literal keyToken) val (heap st))
                     (stack st) (currentLevel st)))
        end
  end.

(** One turn of [while (i < tokens.size())] in BSONParser::parse. *)
Definition parse_turn (tokens : list Token) (i : nat) (st : Parser) : result flow :=
  match tokens !! i with
  | None => Ok Break
  | Some token =>
      match type token with
      | TOKEN_EOF => Ok Break
      | TOKEN_HEADER => Ok (Continue (S i) st)
      | TOKEN_INDENT =>
          let indentToken := token in
          let i := S i in
          match tokens !! i with
          | None => Ok Break
          | Some nextToken =>
              let expectedLevel := level indentToken in
              match type nextToken with
              | TOKEN_SECTION_OPEN =>
                  parse_section tokens i expectedLevel nextToken st
              | TOKEN_IDENTIFIER =>
                  parse_key_value tokens i expectedLevel nextToken st
              | _ => Throw ERR_SYNTAX
              end
          end
      | _ => Ok (Continue (S i) st)
      end
  end.

(** The loop: every turn that goes on moves the cursor forward, so that
    [fuel] is never reached when it exceeds the number of tokens. *)
Fixpoint parse_loop (fuel : nat) (tokens : list Token) (i : nat) (st : Parser)
    : result Parser :=
  match fuel with
  | O => Fuel
  | S fuel =>
      do f <- parse_turn tokens i st;
      match f with
      | Continue i st => parse_loop fuel tokens i st
      | Break => Ok st
      end
  end.

(** The state after [stack.clear(); stack.push_back({root, 0});
    currentLevel = 0;], the root map being the first one made. *)
Definition root : ptr := 0%nat.
Definition initial : Parser := mkParser [∅] [mkContext root 0] 0.

(** BSONParser::parse *)
Definition parse (content : string) : result Document :=
  do tokens <- tokenize content;
  do st <- parse_loop (parse_fuel tokens) tokens 0 initial;
  match heap st !! root with
  | Some m => Ok (mkDocument m (heap st))
  | None => Undefined
  end.

(** ** Vocabulary of the properties *)

(** The tokens that a call of [tokenizeValue] pushes. *)
Definition value_tokens (fuel : nat) (valStr : string) (lineNum : Z)
    : result (list Token) :=
  tokenizeValue fuel valStr lineNum [].

(** The results of [f] on the elements of a list, up to the first one that
    is not [Ok]. *)
Fixpoint mapM {A B : Type} (f : A -> result B) (l : list A) : result (list B) :=
  match l with
  | [] => Ok []
  | x :: l => do y <- f x; do ys <- mapM f l; Ok (y :: ys)
  end.

(** The lists of [ls] one after the other, with [sep] between two of them. *)
Fixpoint intercalate {A : Type} (sep : list A) (ls : list (list A)) : list A :=
  match ls with
  | [] => []
  | [l] => l
  | l :: ls => (l ++ sep ++ intercalate sep ls)%list
  end.

(** The literals of the number tokens of the lexer: the integer conversion
    or the floating-point conversion reads the whole of them. *)
Definition lexed_number (s : string) : Prop :=
  whole s (stoi s) || whole s (stod s) = true.

(** What holds of every token that the lexer pushes for the lines after
    the line [n]. *)
Definition body_token (n : Z) (t : Token) : Prop :=
  match type t with
  | TOKEN_HEADER | TOKEN_EOF => False
  | TOKEN_INDENT => 0 <= level t /\ n < line t
  | TOKEN_SECTION_OPEN => 1 <= level t <= 3
  | TOKEN_NUMBER => lexed_number (literal t)
  | _ => True
  end.

(** What holds of every token of a token list of the lexer. *)
Definition lexed_token (t : Token) : Prop :=
  match type t with
  | TOKEN_INDENT => 0 <= level t
  | TOKEN_SECTION_OPEN => 1 <= level t <= 3
  | TOKEN_NUMBER => lexed_number (literal t)
  | _ => True
  end.

(** The states of the parser between two statements: the cursor and the
    members of the parser at the start of a turn of the loop. *)
Inductive reachable (tokens : list Token) : nat -> Parser -> Prop :=
| reach_initial : reachable tokens 0 initial
| reach_turn i st i' st' :
    reachable tokens i st ->
    parse_turn tokens i st = Ok (Continue i' st') ->
    reachable tokens i' st'.

(** The discipline of the context stack: frame [k] has level [k] and
    points to a map of the store, frame 0 is the root, and the top frame
    has the current level, which is at most 3. *)
Record stack_inv (st : Parser) : Prop := mkStackInv {
  inv_length : Z.of_nat (length (stack st)) = currentLevel st + 1;
  inv_depth : 0 <= currentLevel st <= 3;
  inv_root : stack st !! 0%nat = Some (mkContext root 0);
  inv_frames :
    forall (k : nat) c, stack st !! k = Some c ->
      ctx_level c = Z.of_nat k /\ (ctx_map c < length (heap st))%nat
}.

(** The maps of a document: the root, and the maps that the object values
    of a map of the document point to. *)
Inductive in_document (d : Document) : BSONMap -> Prop :=
| in_doc_root : in_document d (doc_root d)
| in_doc_child m key p m' :
    in_document d m ->
    m !! key = Some (VObject p) ->
    doc_heap d !! p = Some m' ->
    in_document d m'.

(** The value at the end of a path of section names and a key. *)
Fixpoint lookup_path (h : Store) (m : BSONMap) (path : list string)
    : option BSONValue :=
  match path with
  | [] => None
  | [key] => m !! key
  | name :: path =>
      match m !! name with
      | Some (VObject p) =>
          match h !! p with
          | Some m' => lookup_path h m' path
          | None => None
          end
      | _ => None
      end
  end.

(** The tokens pushed do not depend on the tokens that are there. *)
Definition appends (f : list Token -> result (list Token)) : Prop :=
  forall tokens, f tokens = do vs <- f []; Ok (tokens ++ vs)%list.

(** What holds of the tokens that [tokenizeValue] pushes. *)
Definition value_token (t : Token) : Prop :=
  match type t with
  | TOKEN_STRING | TOKEN_BOOL | TOKEN_NULL
  | TOKEN_ARRAY_START | TOKEN_ARRAY_END | TOKEN_COMMA => True
  | TOKEN_NUMBER => lexed_number (literal t)
  | _ => False
  end.

(** A result of the program: a value or an exception. *)
Definition total {A : Type} (r : result A) : Prop :=
  match r with
  | Ok _ | Throw _ => True
  | Undefined | Fuel => False
  end.

(** No map of the store binds the reserved name. *)
Definition heap_ok (h : Store) : Prop :=
  Forall (fun m : BSONMap => m !! "Charizard" = None) h.


(** ** Inputs *)

Definition nl : string := String LF EmptyString.
Definition cr : string := String CR EmptyString.
Definition tab : string := String TAB EmptyString.

(** The text of the lines, each one ended by a line feed but the last. *)
Definition unlines (ls : list string) : string := String.concat nl ls.

Definition quoted (s : string) : string := quote ++ s ++ quote.

(** The input of [testValid] in main.cpp. *)
Definition testValid_input : string :=
  unlines
    [ "BULBA!";
      "zZz Basic Configuration";
      "app_name ~~~~~~> " ++ quoted "Pokedex_API";
      "version  ~~~~~~> 1.5";
      "is_production ~> NotVeryEffective";
      "missing_data ~> MissingNo";
      "";
      "zZz Database Connection (Level 1)";
      "(o) database (o)";
      "    host ~~~~> " ++ quoted "127.0.0.1";
      "    ";
      "    zZz Connection Pool Settings (Level 2)";
      "    (O) pool (O)";
      "        max_connections ~~~~> 100";
      "        ";
      "        zZz Critical Kernel flags (Level 3)";
      "        (@) KERNEL_FLAGS (@)";
      "            panic_on_fail ~~~~> SuperEffective";
      "";
      "zZz Allowed Users List";
      "whitelist ~~~~> <| " ++ quoted "Prof_Oak" ++ ", " ++ quoted "Mom" ++ " |>";
      "" ].

(** The input of the test `Deep Nesting Violation' in main.cpp. *)
Definition deepNesting : string :=
  unlines
    [ "BULBA!";
      "(o) level1 (o)";
      "        (@) level3 (@)";
      "            key ~> " ++ quoted "val" ].

(** ** The examples, and the grammar of the token lists *)

Definition testValid_kernel_flags : BSONMap :=
  {[ "panic_on_fail" := VBool true ]}.

Definition testValid_pool : BSONMap :=
  <[ "max_connections" := VInt 100 ]>
  {[ "KERNEL_FLAGS" := VObject 3%nat ]}.

Definition testValid_database : BSONMap :=
  <[ "host" := VString "127.0.0.1" ]>
  {[ "pool" := VObject 2%nat ]}.

Definition testValid_root : BSONMap :=
  <[ "app_name" := VString "Pokedex_API" ]>
  (<[ "version" := VFloat (DDec false 15 (-1)) ]>
  (<[ "is_production" := VBool false ]>
  (<[ "missing_data" := VNull ]>
  (<[ "database" := VObject 1%nat ]>
  {[ "whitelist" := VArray [VString "Prof_Oak"; VString "Mom"] ]})))).

Definition testValid_document : Document :=
  mkDocument testValid_root
    [testValid_root; testValid_database; testValid_pool; testValid_kernel_flags].

Definition one_section_input : string :=
  unlines ["BULBA!"; "(o) a (o)"; "    k ~> 1"].

Definition one_section_tokens : list Token :=
  [mkToken TOKEN_HEADER "BULBA!" 1 0;
   mkToken TOKEN_INDENT "" 2 0;
   mkToken TOKEN_SECTION_OPEN "" 2 1;
   mkToken TOKEN_IDENTIFIER "a" 2 0;
   mkToken TOKEN_SECTION_CLOSE "" 2 1;
   mkToken TOKEN_INDENT "" 3 1;
   mkToken TOKEN_IDENTIFIER "k" 3 0;
   mkToken TOKEN_VINE_WHIP "" 3 0;
   mkToken TOKEN_NUMBER "1" 3 0;
   mkToken TOKEN_EOF "" 3 0].

(** The state after the section header of [one_section_input]. *)
Definition one_section_open : Parser :=
  mkParser [{[ "a" := VObject 1%nat ]}; ∅] [mkContext 0 0; mkContext 1 1] 1.

Definition deepNesting_tokens : list Token :=
  [mkToken TOKEN_HEADER "BULBA!" 1 0;
   mkToken TOKEN_INDENT "" 2 0;
   mkToken TOKEN_SECTION_OPEN "" 2 1;
   mkToken TOKEN_IDENTIFIER "level1" 2 0;
   mkToken TOKEN_SECTION_CLOSE "" 2 1;
   mkToken TOKEN_INDENT "" 3 2;
   mkToken TOKEN_SECTION_OPEN "" 3 3;
   mkToken TOKEN_IDENTIFIER "level3" 3 0;
   mkToken TOKEN_SECTION_CLOSE "" 3 3;
   mkToken TOKEN_INDENT "" 4 3;
   mkToken TOKEN_IDENTIFIER "key" 4 0;
   mkToken TOKEN_VINE_WHIP "" 4 0;
   mkToken TOKEN_STRING "val" 4 0;
   mkToken TOKEN_EOF "" 4 0].

(** The state of the parser after the first section header of
    [deepNesting]. *)
Definition deepNesting_level1 : Parser :=
  mkParser [{[ "level1" := VObject 1%nat ]}; ∅] [mkContext 0 0; mkContext 1 1] 1.

(** The tokens of a line: a section header, or a key, the assign operator
    and the tokens of a value (none for a line without a value). *)
Inductive statement : list Token -> Prop :=
| stmt_section indent open name close :
    type indent = TOKEN_INDENT ->
    type open = TOKEN_SECTION_OPEN ->
    type name = TOKEN_IDENTIFIER ->
    type close = TOKEN_SECTION_CLOSE ->
    statement [indent; open; name; close]
| stmt_key_value indent key vine vs :
    type indent = TOKEN_INDENT ->
    type key = TOKEN_IDENTIFIER ->
    type vine = TOKEN_VINE_WHIP ->
    Forall value_token vs ->
    statement (indent :: key :: vine :: vs).

(** The tokens that start or go on a value. *)
Definition value_type (ty : TokenType) : bool :=
  match ty with
  | TOKEN_STRING | TOKEN_NUMBER | TOKEN_BOOL | TOKEN_NULL
  | TOKEN_ARRAY_START | TOKEN_ARRAY_END | TOKEN_COMMA => true
  | _ => false
  end.

Definition value_at (tokens : list Token) (k : nat) : Prop :=
  exists t, tokens !! k = Some t /\ value_type (type t) = true.

(** The input of the test `Charizard Key' of main.cpp. *)
Definition charizardKey : string :=
  unlines ["BULBA!"; "Charizard ~> " ++ quoted "Fire"].

Definition charizardKey_tokens : list Token :=
  [mkToken TOKEN_HEADER "BULBA!" 1 0;
   mkToken TOKEN_INDENT "" 2 0;
   mkToken TOKEN_IDENTIFIER "Charizard" 2 0;
   mkToken TOKEN_VINE_WHIP "" 2 0;
   mkToken TOKEN_STRING "Fire" 2 0;
   mkToken TOKEN_EOF "" 2 0].

(** An input that opens the section a twice, and binds the key y twice in
    the second one. *)
Definition rebinding_input : string :=
  unlines ["BULBA!"; "(o) a (o)"; "    x ~> 1"; "(o) a (o)"; "    y ~> 2"; "    y ~> 3"].



(** An array in an array, without and with a comma in the inner one. *)
Definition nested_array : string := "<| <| 1 |>, 2 |>".
Definition nested_array_comma : string := "<| <| 1, 2 |> |>".

Definition nested_array_tokens : list Token :=
  [mkToken TOKEN_ARRAY_START "" 2 0;
   mkToken TOKEN_ARRAY_START "" 2 0;
   mkToken TOKEN_NUMBER "1" 2 0;
   mkToken TOKEN_ARRAY_END "" 2 0;
   mkToken TOKEN_COMMA "" 2 0;
   mkToken TOKEN_NUMBER "2" 2 0;
   mkToken TOKEN_ARRAY_END "" 2 0].

(** ** main.cpp *)

(** testValid of main.cpp: whether the test passes. *)
Definition testValid : bool :=
  match parse testValid_input with
  | Ok _ => true
  | _ => false
  end.

(** testError of main.cpp: the test passes when [parse] throws a message
    in which [expectedError] is found. *)
Definition testError (input expectedError : string) : bool :=
  match parse input with
  | Throw msg => bool_decide (find expectedError msg <> None)
  | _ => false
  end.

(** main of main.cpp: the exit status, which is 1 at the first test that
    fails. *)
Definition main : Z :=
  if negb testValid then 1
  else if negb (testError ("NOT_BULBA!" ++ nl ++ "key ~> " ++ quoted "val")
                  "Status: Fainted") then 1
  else if negb (testError ("BULBA!" ++ nl ++ tab ++ "key ~> " ++ quoted "val")
                  "Poison Type") then 1
  else if negb (testError ("BULBA!" ++ nl ++ " key ~> " ++ quoted "val")
                  "The attack missed!") then 1
  else if negb (testError ("BULBA!" ++ nl ++ "Charizard ~> " ++ quoted "Fire")
                  "It burns the bulb") then 1
  else if negb (testError deepNesting "Not enough badges!") then 1
  else if negb (testError ("BULBA!" ++ nl ++ "key ~> UnknownType")
                  "Target is immune!") then 1
  else 0.

(** ** Vocabulary of the further properties *)

(** A string that does not start with a character of [p]. *)
Definition starts_off (p : ascii -> bool) (s : string) : Prop :=
  match s with
  | EmptyString => True
  | String c _ => p c = false
  end.

(** The tokens of the values that are not arrays. *)
Definition scalar_type (ty : TokenType) : bool :=
  match ty with
  | TOKEN_STRING | TOKEN_NUMBER | TOKEN_BOOL | TOKEN_NULL => true
  | _ => false
  end.

(** The tokens that [tokenizeValue] pushes for a value: none for the empty
    value, one for a string, a number, a boolean or the null value, and
    for an array its elements between the two array tokens; the elements
    are values and commas. *)
Inductive value_seq : list Token -> Prop :=
| value_none : value_seq []
| value_scalar t :
    scalar_type (type t) = true -> lexed_token t -> value_seq [t]
| value_array open es close :
    type open = TOKEN_ARRAY_START -> elements es ->
    type close = TOKEN_ARRAY_END ->
    value_seq (open :: es ++ [close])%list
with elements : list Token -> Prop :=
| elements_nil : elements []
| elements_value vs es : value_seq vs -> elements es -> elements (vs ++ es)%list
| elements_comma c es : type c = TOKEN_COMMA -> elements es -> elements (c :: es).

Scheme value_seq_mut := Minimality for value_seq Sort Prop
  with elements_mut := Minimality for elements Sort Prop.
Combined Scheme value_seq_elements_ind from value_seq_mut, elements_mut.

(** The tokens that the lexer pushes for a line. *)
Inductive lexed_statement : list Token -> Prop :=
| lexed_section indent open name close :
    type indent = TOKEN_INDENT ->
    type open = TOKEN_SECTION_OPEN ->
    type name = TOKEN_IDENTIFIER ->
    type close = TOKEN_SECTION_CLOSE ->
    level close = level open ->
    lexed_statement [indent; open; name; close]
| lexed_key_value indent key vine vs :
    type indent = TOKEN_INDENT ->
    type key = TOKEN_IDENTIFIER ->
    literal key <> "" -> forall_chars is_key_char (literal key) = true ->
    type vine = TOKEN_VINE_WHIP ->
    value_seq vs ->
    lexed_statement (indent :: key :: vine :: vs).

(** A key/value line without a value at the cursor [j]: the token after
    the assign operator is the indent token of the next line or the
    end-of-input token. *)
Definition missing_value (tokens : list Token) (j : nat) : Prop :=
  exists indent key vine next,
    tokens !! j = Some indent /\ type indent = TOKEN_INDENT
    /\ tokens !! S j = Some key /\ type key = TOKEN_IDENTIFIER
    /\ tokens !! S (S j) = Some vine /\ type vine = TOKEN_VINE_WHIP
    /\ tokens !! S (S (S j)) = Some next
    /\ (type next = TOKEN_INDENT \/ type next = TOKEN_EOF).

(** The value parser returns with the cursor at [i'], unless it runs out
    of fuel. *)
Definition value_result (r : result (BSONValue * nat)) (i' : nat) : Prop :=
  r = Fuel \/ exists v, r = Ok (v, i').

(** The values that hold no object: the scalars, and the arrays of such
    values. *)
Fixpoint no_object (v : BSONValue) : bool :=
  match v with
  | VObject _ => false
  | VArray l => forallb no_object l
  | _ => true
  end.

(** The store is a tree: an object value points from a map to a map made
    later, no map is the value of two entries, and an object is the whole
    of a value (no array holds one). *)
Record store_tree (h : Store) : Prop := mkStoreTree {
  tree_forward :
    forall a m key p,
      h !! a = Some m -> m !! key = Some (VObject p) -> (a < p < length h)%nat;
  tree_parent :
    forall a m key a' m' key' p,
      h !! a = Some m -> m !! key = Some (VObject p) ->
      h !! a' = Some m' -> m' !! key' = Some (VObject p) ->
      a = a' /\ key = key';
  tree_values :
    forall a m key v,
      h !! a = Some m -> m !! key = Some v ->
      (exists p, v = VObject p) \/ no_object v = true
}.


(** An input with a key/value line after the lines of a section, at the
    level of the root. *)
Definition dedent_input : string :=
  unlines ["BULBA!"; "(o) a (o)"; "    k ~> 1"; "top ~> 2"].

Definition dedent_tokens : list Token :=
  [mkToken TOKEN_HEADER "BULBA!" 1 0;
   mkToken TOKEN_INDENT "" 2 0;
   mkToken TOKEN_SECTION_OPEN "" 2 1;
   mkToken TOKEN_IDENTIFIER "a" 2 0;
   mkToken TOKEN_SECTION_CLOSE "" 2 1;
   mkToken TOKEN_INDENT "" 3 1;
   mkToken TOKEN_IDENTIFIER "k" 3 0;
   mkToken TOKEN_VINE_WHIP "" 3 0;
   mkToken TOKEN_NUMBER "1" 3 0;
   mkToken TOKEN_INDENT "" 4 0;
   mkToken TOKEN_IDENTIFIER "top" 4 0;
   mkToken TOKEN_VINE_WHIP "" 4 0;
   mkToken TOKEN_NUMBER "2" 4 0;
   mkToken TOKEN_EOF "" 4 0].

(** The state before the last line of [dedent_input]. *)
Definition dedent_state : Parser :=
  mkParser [{[ "a" := VObject 1%nat ]}; {[ "k" := VInt 1 ]}]
    [mkContext 0 0; mkContext 1 1] 1.


(** [n] spaces. *)
Fixpoint spaces (n : nat) : string :=
  match n with
  | O => EmptyString
  | S n => String SPACE (spaces n)
  end.

(** The context stack is a path of the tree: the map of a frame is the
    value of an entry of the map of the frame under it. *)
Definition stack_path (st : Parser) : Prop :=
  forall (k : nat) c c',
    stack st !! k = Some c -> stack st !! S k = Some c' ->
    exists name m,
      heap st !! ctx_map c = Some m
      /\ m !! name = Some (VObject (ctx_map c')).

(** * Properties *)

(** ** Strings *)

Lemma length_drop_while p s :
  (String.length (drop_while p s) <= String.length s)%nat.
Proof. induction s as [|c s IH]; simpl; [lia|]. destruct (p c); simpl; lia. Qed.

Lemma length_drop_while_end p s :
  (String.length (drop_while_end p s) <= String.length s)%nat.
Proof.
  induction s as [|c s IH]; simpl; [lia|].
  destruct (drop_while_end p s); [destruct (p c)|]; simpl in *; lia.
Qed.

Lemma length_trim s : (String.length (trim s) <= String.length s)%nat.
Proof.
  unfold trim. etransitivity; [apply length_drop_while_end|apply length_drop_while].
Qed.

Lemma length_substring n m s :
  (String.length (String.substring n m s) <= String.length s - n)%nat.
Proof.
  revert n m. induction s as [|c s IH]; intros [|n] [|m]; simpl; try lia.
  - specialize (IH 0%nat m). lia.
  - apply IH.
  - apply IH.
Qed.

Lemma length_getlines d s seg :
  seg ∈ getlines d s -> (String.length seg <= String.length s)%nat.
Proof.
  revert seg. induction s as [|c s IH]; simpl; intros seg Hin.
  - inversion Hin.
  - destruct (Ascii.eqb c d).
    + apply elem_of_cons in Hin as [->|Hin]; simpl; [lia|].
      apply IH in Hin. lia.
    + destruct (getlines d s) as [|l ls] eqn:E.
      * apply list_elem_of_singleton in Hin as ->. simpl. lia.
      * apply elem_of_cons in Hin as [->|Hin]; simpl.
        -- assert (String.length l <= String.length s)%nat by (apply IH; left). lia.
        -- assert (String.length seg <= String.length s)%nat by (apply IH; right; done). lia.
Qed.

(** ** The tokens of a value *)

Lemma bind_Ok {A B} (r : result A) (k : A -> result B) b :
  bind r k = Ok b -> exists a, r = Ok a /\ k a = Ok b.
Proof. destruct r; simpl; intros H; try discriminate. eauto. Qed.

Lemma tokenize_segments_appends tokenizeElement lineNum segments first :
  (forall segment, appends (tokenizeElement segment)) ->
  appends (tokenize_segments tokenizeElement lineNum segments first).
Proof.
  intros Hrec. revert first.
  induction segments as [|segment segments IH]; intros first tokens; simpl.
  - by rewrite app_nil_r.
  - rewrite (Hrec segment (if first then tokens else _)).
    rewrite (Hrec segment (if first then [] else _)).
    destruct (tokenizeElement segment []) as [vs| | |]; simpl; try done.
    rewrite (IH false (_ ++ vs)%list).
    rewrite (IH false ((if first then [] else _) ++ vs)%list).
    destruct (tokenize_segments _ _ _ _ []) as [ws| | |]; simpl; try done.
    f_equal. unfold push_back. destruct first; simpl; by rewrite <- ?app_assoc.
Qed.

Lemma tokenizeValue_appends fuel valStr lineNum :
  appends (tokenizeValue fuel valStr lineNum).
Proof.
  revert valStr. induction fuel as [|fuel IH]; intros valStr tokens; simpl; [done|].
  repeat (case_match; simpl; try done).
  - by rewrite app_nil_r.
  - unfold push_back.
    rewrite (tokenize_segments_appends _ _ _ _ (fun seg => IH seg) (tokens ++ _)%list).
    rewrite (tokenize_segments_appends _ _ _ _ (fun seg => IH seg) ([] ++ _)%list).
    destruct (tokenize_segments _ _ _ _ []) as [ws| | |]; simpl; try done.
    by rewrite <- !app_assoc.
Qed.

Lemma lexed_number_parseNumber s :
  lexed_number s -> exists v, parseNumber s = Ok v.
Proof.
  unfold lexed_number, whole, parseNumber. intros H.
  destruct (stoi s) as [[v pos]|]; [destruct (pos =? str_size s); [by eauto|]|];
    destruct (stod s) as [[d pos']|]; simpl in H; eauto; discriminate.
Qed.

Ltac pushed :=
  unfold push_back; apply Forall_app; split;
  [try done|apply Forall_singleton; hnf; simpl; try done].

Lemma tokenize_segments_value_tokens tokenizeElement lineNum segments first tokens tokens' :
  (forall segment tokens tokens',
      tokenizeElement segment tokens = Ok tokens' ->
      Forall value_token tokens -> Forall value_token tokens') ->
  tokenize_segments tokenizeElement lineNum segments first tokens = Ok tokens' ->
  Forall value_token tokens -> Forall value_token tokens'.
Proof.
  intros Hrec. revert first tokens.
  induction segments as [|segment segments IH]; intros first tokens; simpl.
  - by intros [= ->].
  - intros (tokens1 & H1 & H2)%bind_Ok Htokens.
    eapply IH; [done|]. eapply Hrec; [done|].
    destruct first; [done|]. by pushed.
Qed.

Lemma tokenizeValue_value_tokens fuel valStr lineNum tokens tokens' :
  tokenizeValue fuel valStr lineNum tokens = Ok tokens' ->
  Forall value_token tokens -> Forall value_token tokens'.
Proof.
  revert valStr tokens tokens'.
  induction fuel as [|fuel IH]; intros valStr tokens tokens'; simpl; [done|].
  intros H Htokens.
  destruct (String.eqb (trim valStr) ""); [by simplify_eq|].
  destruct (startsWith _ quote && _); [simplify_eq; by pushed|].
  destruct (String.eqb _ "SuperEffective"); [simplify_eq; by pushed|].
  destruct (String.eqb _ "NotVeryEffective"); [simplify_eq; by pushed|].
  destruct (String.eqb _ "MissingNo"); [simplify_eq; by pushed|].
  destruct (startsWith _ "<|" && _).
  { apply bind_Ok in H as (tokens1 & H1 & [= <-]). pushed.
    eapply tokenize_segments_value_tokens; [|done|by pushed].
    intros ???. apply IH. }
  destruct (whole _ (stoi _)) eqn:Hi.
  { simplify_eq. pushed. unfold lexed_number. by rewrite Hi. }
  destruct (whole _ (stod _)) eqn:Hd; [|done].
  simplify_eq. pushed. unfold lexed_number. by rewrite Hd, orb_true_r.
Qed.

Ltac all_tokens :=
  repeat (constructor; [by (hnf; simpl)|]); constructor.

Lemma tokenizeValue_pushes fuel valStr lineNum tokens tokens' :
  tokenizeValue fuel valStr lineNum tokens = Ok tokens' ->
  exists vs, tokens' = (tokens ++ vs)%list /\ Forall value_token vs.
Proof.
  rewrite tokenizeValue_appends. intros (vs & Hvs & [= <-])%bind_Ok.
  exists vs; split; [done|]. by eapply tokenizeValue_value_tokens.
Qed.

Lemma value_token_body_token n t : value_token t -> body_token n t.
Proof. unfold value_token, body_token. by destruct (type t). Qed.

Lemma body_token_mono n m t : n <= m -> body_token m t -> body_token n t.
Proof. unfold body_token. destruct (type t); try done. lia. Qed.

Lemma body_token_lexed_token n t : body_token n t -> lexed_token t.
Proof. unfold body_token, lexed_token. destruct (type t); try done. lia. Qed.

Lemma tokenizeLine_pushes n line lineNum tokens tokens' :
  tokenizeLine line lineNum tokens = Ok tokens' ->
  exists vs, tokens' = (tokens ++ vs)%list /\ Forall (body_token n) vs.
Proof.
  unfold tokenizeLine, push_back.
  assert (Hsec : forall stage key, 1 <= stage <= 3 ->
    Forall (body_token n)
      [mkToken TOKEN_SECTION_OPEN "" lineNum stage;
       mkToken TOKEN_IDENTIFIER key lineNum 0;
       mkToken TOKEN_SECTION_CLOSE "" lineNum stage]).
  { intros. by all_tokens. }
  destruct (startsWith line "(o) " && _).
  { intros [= <-]. eexists. rewrite <- !app_assoc. split; [done|]. apply Hsec; lia. }
  destruct (startsWith line "(O) " && _).
  { intros [= <-]. eexists. rewrite <- !app_assoc. split; [done|]. apply Hsec; lia. }
  destruct (startsWith line "(@) " && _).
  { intros [= <-]. eexists. rewrite <- !app_assoc. split; [done|]. apply Hsec; lia. }
  destruct (regex_match_kv line) as [[key valStr]|]; [|done].
  intros (vs & -> & Hvs)%tokenizeValue_pushes.
  eexists. rewrite <- !app_assoc. split; [done|]. simpl.
  do 2 (constructor; [done|]).
  eapply Forall_impl; [done|]. apply value_token_body_token.
Qed.

Lemma scan_indent_nonneg line k : 0 <= k -> 0 <= fst (scan_indent line k).
Proof.
  revert k. induction line as [|c line IH]; intros k Hk; simpl; [done|].
  destruct (Ascii.eqb c SPACE); [apply IH; lia|].
  by destruct (Ascii.eqb c TAB).
Qed.

Lemma tokenize_lines_pushes lines lineNum tokens lineNum' tokens' :
  tokenize_lines lines lineNum false tokens = Ok (lineNum', tokens') ->
  exists vs, tokens' = (tokens ++ vs)%list /\ Forall (body_token lineNum) vs.
Proof.
  revert lineNum tokens.
  induction lines as [|line lines IH]; intros lineNum tokens; simpl.
  { intros [= <- <-]. exists []. by rewrite app_nil_r. }
  assert (Hnext : forall tokens1,
    tokenize_lines lines (lineNum + 1) false tokens1 = Ok (lineNum', tokens') ->
    exists vs, tokens' = (tokens1 ++ vs)%list /\ Forall (body_token lineNum) vs).
  { intros tokens1 (vs & -> & Hvs)%IH. exists vs; split; [done|].
    eapply Forall_impl; [done|]. intros t. apply body_token_mono. lia. }
  destruct (String.eqb _ ""); [apply Hnext|].
  destruct (scan_indent _ 0) as [indentCount hasTab] eqn:Hscan.
  destruct hasTab; [done|].
  destruct (Z.rem indentCount 4 =? 0); [|done]. simpl.
  intros (tokens1 & (ws & -> & Hws)%(tokenizeLine_pushes lineNum)
          & (vs & -> & Hvs)%Hnext)%bind_Ok.
  unfold push_back. eexists. rewrite <- !app_assoc. split; [done|].
  simpl. constructor; [|by apply Forall_app].
  hnf; simpl. split; [|lia].
  apply Z.quot_pos; [|lia].
  pose proof (scan_indent_nonneg (drop_while_end isspace (strip_comment (strip_cr line))) 0).
  rewrite Hscan in H. simpl in H. lia.
Qed.

(** The token lists of the lexer: the end-of-input token alone for the
    input without a line, and else the header token, the tokens of the
    lines after the first, and the end-of-input token. *)
Lemma tokenize_shape content tokens :
  tokenize content = Ok tokens ->
  (getlines LF content = [] /\ tokens = [mkToken TOKEN_EOF "" 0 0])
  \/ (exists first rest body lineNum,
        getlines LF content = first :: rest
        /\ strip_cr first = "BULBA!"
        /\ tokenize_lines rest 1 false [mkToken TOKEN_HEADER "BULBA!" 1 0]
           = Ok (lineNum, mkToken TOKEN_HEADER "BULBA!" 1 0 :: body)
        /\ tokens = mkToken TOKEN_HEADER "BULBA!" 1 0 :: body
                      ++ [mkToken TOKEN_EOF "" lineNum 0]
        /\ Forall (body_token 1) body).
Proof.
  unfold tokenize. intros ([lineNum tokens1] & Hlines & [= <-])%bind_Ok.
  destruct (getlines LF content) as [|first rest]; simpl in Hlines.
  { left. by simplify_eq. }
  right. destruct (String.eqb_spec (strip_cr first) "BULBA!") as [Hfirst|]; [|done].
  simpl in Hlines. pose proof Hlines as (vs & -> & Hvs)%tokenize_lines_pushes.
  by exists first, rest, vs, lineNum.
Qed.

Lemma tokenize_lexed content tokens :
  tokenize content = Ok tokens -> Forall lexed_token tokens.
Proof.
  intros [[_ ->]|(first & rest & body & lineNum & _ & _ & _ & -> & Hbody)]%tokenize_shape.
  { all_tokens. }
  constructor; [done|]. apply Forall_app; split; [|all_tokens].
  eapply Forall_impl; [done|]. apply body_token_lexed_token.
Qed.

(** ** The lexer returns or throws *)

Lemma bind_total {A B} (r : result A) (k : A -> result B) :
  total r -> (forall a, r = Ok a -> total (k a)) -> total (bind r k).
Proof. destruct r; simpl; auto. Qed.

Lemma tokenize_segments_total tokenizeElement lineNum segments first tokens :
  (forall segment tokens, segment ∈ segments ->
     total (tokenizeElement segment tokens)) ->
  total (tokenize_segments tokenizeElement lineNum segments first tokens).
Proof.
  revert first tokens.
  induction segments as [|segment segments IH]; intros first tokens Hrec; simpl.
  - done.
  - apply bind_total; [apply Hrec; left|].
    intros tokens1 _. apply IH. intros ???. apply Hrec. by right.
Qed.

Lemma startsWith_size str prefix :
  startsWith str prefix = true -> str_size prefix <= str_size str.
Proof. unfold startsWith. intros [H _]%andb_true_iff. lia. Qed.

Lemma tokenizeValue_total fuel valStr lineNum tokens :
  (String.length valStr < fuel)%nat ->
  total (tokenizeValue fuel valStr lineNum tokens).
Proof.
  revert valStr tokens.
  induction fuel as [|fuel IH]; intros valStr tokens Hfuel; simpl; [lia|].
  pose proof (length_trim valStr) as Htrim.
  repeat (case_match; try done).
  apply bind_total; [|done].
  apply tokenize_segments_total. intros segment tokens1 Hseg. apply IH.
  apply length_getlines in Hseg.
  match goal with H : _ && _ = true |- _ =>
    apply andb_true_iff in H as [Hs%startsWith_size _] end.
  unfold substr in Hseg.
  pose proof (length_substring (Z.to_nat 2)
    (Z.to_nat (Z.min (to_size_t (str_size (trim valStr) - 4))
       (str_size (trim valStr) - 2))) (trim valStr)).
  unfold str_size in Hs. simpl in Hs. lia.
Qed.

Lemma tokenizeLine_total line lineNum tokens :
  total (tokenizeLine line lineNum tokens).
Proof.
  unfold tokenizeLine. repeat (case_match; try done).
  apply tokenizeValue_total. unfold tokenizeValue_fuel. lia.
Qed.

Lemma tokenize_lines_total lines lineNum firstLine tokens :
  total (tokenize_lines lines lineNum firstLine tokens).
Proof.
  revert lineNum firstLine tokens.
  induction lines as [|line lines IH]; intros lineNum firstLine tokens; simpl.
  - done.
  - repeat (case_match; try done).
    apply bind_total; [apply tokenizeLine_total|done].
Qed.

Lemma tokenize_total content : total (tokenize content).
Proof.
  unfold tokenize. apply bind_total; [apply tokenize_lines_total|].
  by intros [??] _.
Qed.

(** ** The value parser moves the cursor forward *)

Lemma parse_elements_advances parseElement tokens n i arr v i' :
  (forall j r, parseElement j = Ok r -> (j < snd r <= length tokens)%nat) ->
  parse_elements parseElement tokens n i arr = Ok (v, i') ->
  (i < i' <= length tokens)%nat.
Proof.
  intros Hrec. revert i arr.
  induction n as [|n IH]; intros i arr; simpl; [done|].
  destruct (tokens !! i) as [t|] eqn:Ht; [|done].
  apply lookup_lt_Some in Ht.
  destruct (bool_decide (type t = TOKEN_ARRAY_END)); [intros [= <- <-]; lia|].
  destruct (bool_decide (type t = TOKEN_COMMA)).
  - intros H%IH. lia.
  - intros (r & Hr%Hrec & H%IH)%bind_Ok. lia.
Qed.

Lemma parseValueFromTokens_advances fuel tokens i v i' :
  parseValueFromTokens fuel tokens i = Ok (v, i') ->
  (i < i' <= length tokens)%nat.
Proof.
  revert i v i'. induction fuel as [|fuel IH]; intros i v i'; simpl; [done|].
  destruct (tokens !! i) as [token|] eqn:Ht; [|done].
  apply lookup_lt_Some in Ht.
  destruct (type token); try done; try (intros [= <- <-]; lia).
  - intros (? & _ & [= <- <-])%bind_Ok. lia.
  - intros H%parse_elements_advances; [lia|].
    intros j [v' j'] H'%IH. simpl. lia.
Qed.

Lemma parse_elements_total parseElement tokens n i arr :
  (forall j, (i <= j)%nat -> total (parseElement j)) ->
  (forall j r, parseElement j = Ok r -> (j < snd r)%nat) ->
  (length tokens - i < n)%nat ->
  total (parse_elements parseElement tokens n i arr).
Proof.
  intros Htotal Hadv. revert i arr Htotal.
  induction n as [|n IH]; intros i arr Htotal Hn; simpl; [lia|].
  destruct (tokens !! i) as [t|] eqn:Ht; [|done].
  apply lookup_lt_Some in Ht.
  destruct (bool_decide (type t = TOKEN_ARRAY_END)); [done|].
  destruct (bool_decide (type t = TOKEN_COMMA)).
  - apply IH; [|lia]. intros j Hj. apply Htotal. lia.
  - apply bind_total; [by apply Htotal|].
    intros r Hr%Hadv. apply IH; [|lia]. intros j Hj. apply Htotal. lia.
Qed.

Lemma parseNumber_total literal : total (parseNumber literal).
Proof. unfold parseNumber. by repeat case_match. Qed.

Lemma parseValueFromTokens_total fuel tokens i :
  (length tokens - i < fuel)%nat ->
  total (parseValueFromTokens fuel tokens i).
Proof.
  revert i. induction fuel as [|fuel IH]; intros i Hfuel; simpl; [lia|].
  destruct (tokens !! i) as [token|] eqn:Ht; [|done].
  apply lookup_lt_Some in Ht.
  destruct (type token); try done.
  - apply bind_total; [apply parseNumber_total|done].
  - apply parse_elements_total; [| |lia].
    + intros j Hj. apply IH. lia.
    + intros j [v j'] H%parseValueFromTokens_advances. simpl. lia.
Qed.

Lemma parseValueFromTokens_S fuel tokens i :
  parseValueFromTokens (S fuel) tokens i =
  match tokens !! i with
  | None => Throw ERR_SYNTAX
  | Some token =>
      match type token with
      | TOKEN_STRING => Ok (VString (literal token), S i)
      | TOKEN_NUMBER => do v <- parseNumber (literal token); Ok (v, S i)
      | TOKEN_BOOL => Ok (VBool (String.eqb (literal token) "true"), S i)
      | TOKEN_NULL => Ok (VNull, S i)
      | TOKEN_ARRAY_START =>
          parse_elements (parseValueFromTokens fuel tokens) tokens fuel (S i) []
      | _ => Throw ERR_TYPE
      end
  end.
Proof. reflexivity. Qed.

#[local] Arguments parseValueFromTokens : simpl never.

(** ** The context stack *)

Lemma to_size_t_small z : 0 <= z < 2 ^ 64 -> to_size_t z = z.
Proof. apply Z.mod_small. Qed.

Lemma pop_to_take n stack :
  0 <= n <= Z.of_nat (length stack) -> pop_to n stack = take (Z.to_nat n) stack.
Proof. intros H. unfold pop_to. by rewrite Z.min_l by lia. Qed.

Lemma length_assign m key val h : length (assign m key val h) = length h.
Proof. unfold assign. apply length_alter. Qed.

Lemma stack_inv_initial : stack_inv initial.
Proof.
  split; simpl; try done.
  intros [|k] c; simpl; [|done]. intros [= <-]. simpl. unfold root. lia.
Qed.

Lemma stack_inv_last st :
  stack_inv st -> exists c, last (stack st) = Some c.
Proof.
  intros [Hlen Hdepth _ _]. destruct (stack st) as [|c s] eqn:E using rev_ind.
  - simpl in Hlen. lia.
  - rewrite last_snoc. eauto.
Qed.

(** Dropping the frames above the level [n] keeps the discipline. *)
Lemma stack_inv_pop st n :
  stack_inv st -> 0 <= n <= currentLevel st ->
  stack_inv (mkParser (heap st) (pop_to (to_size_t (n + 1)) (stack st)) n).
Proof.
  intros [Hlen Hdepth Hroot Hframes] Hn.
  rewrite to_size_t_small by lia. rewrite pop_to_take by lia.
  split; simpl.
  - rewrite length_take. lia.
  - lia.
  - rewrite lookup_take_lt by lia. done.
  - intros k c [Hc Hk]%lookup_take_Some. by apply Hframes.
Qed.

(** Assigning in a map of the store keeps the discipline. *)
Lemma stack_inv_assign st m key val :
  stack_inv st ->
  stack_inv (mkParser (assign m key val (heap st)) (stack st) (currentLevel st)).
Proof.
  intros [Hlen Hdepth Hroot Hframes]. split; simpl; try done.
  intros k c Hc. rewrite length_assign. by apply Hframes.
Qed.

(** Opening a section on top of the stack keeps the discipline. *)
Lemma stack_inv_push st key :
  stack_inv st -> currentLevel st < 3 ->
  forall parent, last (stack st) = Some parent ->
  stack_inv
    (mkParser
       (assign (ctx_map parent) key (VObject (length (heap st)))
          (push_back (heap st) ∅))
       (push_back (stack st) (mkContext (length (heap st)) (currentLevel st + 1)))
       (currentLevel st + 1)).
Proof.
  intros [Hlen Hdepth Hroot Hframes] Hlt parent Hparent.
  unfold push_back. split; simpl.
  - rewrite length_app. simpl. lia.
  - lia.
  - rewrite lookup_app_l; [done|]. by eapply lookup_lt_Some.
  - intros k c. rewrite length_assign, length_app. simpl.
    intros [Hc|[Hk Hc]]%lookup_app_Some.
    + apply Hframes in Hc. lia.
    + destruct (k - length (stack st))%nat eqn:E; simpl in Hc; [|done].
      simplify_eq. simpl. lia.
Qed.

(** ** One turn of the loop *)

Lemma validateKey_Ok key u : validateKey key = Ok u -> key <> "Charizard".
Proof.
  unfold validateKey. destruct (String.eqb_spec key "Charizard"); [done|]. auto.
Qed.

Lemma validateKey_total key : total (validateKey key).
Proof. unfold validateKey. by case_match. Qed.

Lemma parse_section_inv tokens i expectedLevel nextToken st i' st' :
  stack_inv st -> 1 <= level nextToken <= 3 ->
  parse_section tokens i expectedLevel nextToken st = Ok (Continue i' st') ->
  stack_inv st' /\ (i < i')%nat /\ currentLevel st' = level nextToken.
Proof.
  intros Hinv Hlevel. unfold parse_section.
  rewrite to_size_t_small by lia.
  destruct (expectedLevel =? level nextToken - 1); [|done]. simpl.
  destruct (Z.ltb_spec (Z.of_nat (length (stack st))) (level nextToken)); [done|].
  destruct (tokens !! S i) as [keyToken|]; [|done].
  destruct (bool_decide (type keyToken = TOKEN_IDENTIFIER)); [|done]. simpl.
  intros (_ & _ & Hrest)%bind_Ok. revert Hrest.
  destruct (tokens !! S (S i)) as [closeToken|]; [|done].
  destruct (bool_decide (type closeToken = TOKEN_SECTION_CLOSE)); [|done]. simpl.
  pose proof (stack_inv_pop st (level nextToken - 1) Hinv) as Hpop.
  replace (level nextToken - 1 + 1) with (level nextToken) in Hpop by lia.
  rewrite to_size_t_small in Hpop by lia.
  destruct Hinv. specialize (Hpop ltac:(lia)).
  destruct (last (pop_to _ _)) as [parent|] eqn:Hparent; [|done].
  intros [= <- <-]. split; [|split; [lia|done]].
  pose proof (stack_inv_push _ (literal keyToken) Hpop ltac:(simpl; lia) parent Hparent)
    as Hpush.
  simpl in Hpush.
  by replace (level nextToken - 1 + 1) with (level nextToken) in Hpush by lia.
Qed.

Lemma parse_section_total tokens i expectedLevel nextToken st :
  stack_inv st -> 1 <= level nextToken <= 3 ->
  total (parse_section tokens i expectedLevel nextToken st).
Proof.
  intros Hinv Hlevel. unfold parse_section.
  rewrite to_size_t_small by lia.
  destruct (expectedLevel =? level nextToken - 1); [|done]. simpl.
  destruct (Z.ltb_spec (Z.of_nat (length (stack st))) (level nextToken)); [done|].
  destruct (tokens !! S i) as [keyToken|]; [|done].
  destruct (bool_decide (type keyToken = TOKEN_IDENTIFIER)); [|done]. simpl.
  apply bind_total; [apply validateKey_total|]. intros _ _.
  destruct (tokens !! S (S i)) as [closeToken|]; [|done].
  destruct (bool_decide (type closeToken = TOKEN_SECTION_CLOSE)); [|done]. simpl.
  pose proof (stack_inv_pop st (level nextToken - 1) Hinv) as Hpop.
  replace (level nextToken - 1 + 1) with (level nextToken) in Hpop by lia.
  rewrite to_size_t_small in Hpop by lia.
  destruct Hinv. specialize (Hpop ltac:(lia)).
  destruct (stack_inv_last _ Hpop) as [parent Hparent]. simpl in Hparent.
  by rewrite Hparent.
Qed.

Lemma dedent_inv expectedLevel st st1 :
  stack_inv st -> 0 <= expectedLevel ->
  dedent expectedLevel st = Ok st1 ->
  stack_inv st1 /\ heap st1 = heap st /\ currentLevel st1 = expectedLevel
  /\ expectedLevel <= currentLevel st.
Proof.
  intros Hinv Hlevel. unfold dedent.
  destruct (Z.eqb_spec expectedLevel (currentLevel st)); simpl.
  { intros [= <-]. split; [done|]. split; [done|]. lia. }
  destruct (Z.ltb_spec expectedLevel (currentLevel st)); [|done].
  intros [= <-]. split; [apply stack_inv_pop; [done|lia]|]. simpl.
  split; [done|]. lia.
Qed.

Lemma parse_key_value_inv tokens i expectedLevel nextToken st i' st' :
  stack_inv st -> 0 <= expectedLevel ->
  parse_key_value tokens i expectedLevel nextToken st = Ok (Continue i' st') ->
  stack_inv st' /\ (i < i')%nat /\ currentLevel st' = expectedLevel.
Proof.
  intros Hinv Hlevel. unfold parse_key_value.
  intros (st1 & (Hinv1 & _ & Hcur & _)%dedent_inv & Hrest)%bind_Ok; [|done..].
  apply bind_Ok in Hrest as (_ & _ & Hrest). revert Hrest.
  destruct (tokens !! S i) as [t|]; [|done].
  destruct (bool_decide (type t = TOKEN_VINE_WHIP)); [|done]. simpl.
  intros ([val j] & Hval%parseValueFromTokens_advances & Hrest)%bind_Ok.
  revert Hrest. destruct (last (stack st1)) as [current|]; [|done].
  intros [= <- <-]. split; [|split; [lia|done]].
  by apply stack_inv_assign.
Qed.

Lemma parse_key_value_total tokens i expectedLevel nextToken st :
  stack_inv st -> 0 <= expectedLevel ->
  total (parse_key_value tokens i expectedLevel nextToken st).
Proof.
  intros Hinv Hlevel. unfold parse_key_value.
  apply bind_total.
  { unfold dedent. by repeat case_match. }
  intros st1 (Hinv1 & _)%dedent_inv; [|done..].
  apply bind_total; [apply validateKey_total|]. intros _ _.
  destruct (tokens !! S i) as [t|]; [|done].
  destruct (bool_decide (type t = TOKEN_VINE_WHIP)); [|done]. simpl.
  apply bind_total; [apply parseValueFromTokens_total; unfold parse_fuel; lia|].
  intros [val j] _. by destruct (stack_inv_last _ Hinv1) as [current ->].
Qed.

Lemma parse_turn_inv tokens i st i' st' :
  Forall lexed_token tokens -> stack_inv st ->
  parse_turn tokens i st = Ok (Continue i' st') ->
  stack_inv st' /\ (i < i' )%nat.
Proof.
  intros Hlexed Hinv. unfold parse_turn.
  destruct (tokens !! i) as [token|] eqn:Htoken; [|done].
  pose proof (Forall_lookup_1 _ _ _ _ Hlexed Htoken) as Hwf.
  unfold lexed_token in Hwf.
  destruct (type token) eqn:Htype; try done; try (intros [= <- <-]; split; [done|lia]).
  destruct (tokens !! S i) as [nextToken|] eqn:Hnext; [|done].
  pose proof (Forall_lookup_1 _ _ _ _ Hlexed Hnext) as Hwf'.
  unfold lexed_token in Hwf'.
  destruct (type nextToken) eqn:Htype'; try done.
  - intros (? & ? & _)%parse_section_inv; [|done..]. split; [done|lia].
  - intros (? & ? & _)%parse_key_value_inv; [|done..]. split; [done|lia].
Qed.

Lemma parse_turn_total tokens i st :
  Forall lexed_token tokens -> stack_inv st ->
  total (parse_turn tokens i st).
Proof.
  intros Hlexed Hinv. unfold parse_turn.
  destruct (tokens !! i) as [token|] eqn:Htoken; [|done].
  pose proof (Forall_lookup_1 _ _ _ _ Hlexed Htoken) as Hwf.
  unfold lexed_token in Hwf.
  destruct (type token) eqn:Htype; try done.
  destruct (tokens !! S i) as [nextToken|] eqn:Hnext; [|done].
  pose proof (Forall_lookup_1 _ _ _ _ Hlexed Hnext) as Hwf'.
  unfold lexed_token in Hwf'.
  destruct (type nextToken) eqn:Htype'; try done.
  - by apply parse_section_total.
  - by apply parse_key_value_total.
Qed.

Lemma parse_turn_lt tokens i st i' st' :
  parse_turn tokens i st = Ok (Continue i' st') -> (i < length tokens)%nat.
Proof.
  unfold parse_turn. destruct (tokens !! i) eqn:E; [|done].
  intros _. by eapply lookup_lt_Some.
Qed.

(** ** The loop *)

Lemma parse_loop_fuel tokens f1 f2 i st :
  Forall lexed_token tokens -> stack_inv st ->
  (length tokens - i < f1)%nat -> (length tokens - i < f2)%nat ->
  parse_loop f1 tokens i st = parse_loop f2 tokens i st.
Proof.
  intros Hlexed. revert f2 i st.
  induction f1 as [|f1 IH]; intros [|f2] i st Hinv H1 H2; try lia. simpl.
  destruct (parse_turn tokens i st) as [[i' st'|]| | |] eqn:Hturn; simpl; try done.
  pose proof (parse_turn_lt _ _ _ _ _ Hturn).
  apply parse_turn_inv in Hturn as [Hinv' Hlt]; [|done..].
  apply IH; [done|lia..].
Qed.

Lemma parse_loop_total tokens f i st :
  Forall lexed_token tokens -> stack_inv st ->
  (length tokens - i < f)%nat ->
  total (parse_loop f tokens i st).
Proof.
  intros Hlexed. revert i st.
  induction f as [|f IH]; intros i st Hinv Hf; [lia|]. simpl.
  apply bind_total; [by apply parse_turn_total|].
  intros [i' st'|] Hturn; [|done].
  pose proof (parse_turn_lt _ _ _ _ _ Hturn).
  apply parse_turn_inv in Hturn as [Hinv' Hlt]; [|done..].
  apply IH; [done|lia].
Qed.

Lemma parse_loop_inv tokens f i st st' :
  Forall lexed_token tokens -> stack_inv st ->
  parse_loop f tokens i st = Ok st' -> stack_inv st'.
Proof.
  intros Hlexed. revert i st.
  induction f as [|f IH]; intros i st Hinv; [done|]. simpl.
  intros ([i1 st1|] & Hturn & Hrest)%bind_Ok; [|by simplify_eq].
  apply parse_turn_inv in Hturn as [Hinv' Hlt]; [|done..]. by eapply IH.
Qed.

Lemma reachable_inv tokens i st :
  Forall lexed_token tokens -> reachable tokens i st -> stack_inv st.
Proof.
  intros Hlexed. induction 1 as [|i st i' st' _ IH Hturn].
  - apply stack_inv_initial.
  - by apply parse_turn_inv in Hturn as [? _].
Qed.

Lemma reachable_parse_loop tokens i st f :
  Forall lexed_token tokens -> reachable tokens i st ->
  (length tokens - i < f)%nat ->
  parse_loop (parse_fuel tokens) tokens 0 initial = parse_loop f tokens i st.
Proof.
  intros Hlexed Hreach. revert f.
  induction Hreach as [|i st i' st' Hreach IH Hturn]; intros f Hf.
  - apply parse_loop_fuel; [done|apply stack_inv_initial|unfold parse_fuel; lia|done].
  - pose proof (parse_turn_lt _ _ _ _ _ Hturn).
    pose proof (reachable_inv _ _ _ Hlexed Hreach) as Hinv.
    pose proof Hturn as [_ Hlt]%parse_turn_inv; [|done..].
    rewrite (IH (S (length tokens))) by lia. simpl. rewrite Hturn. simpl.
    pose proof Hturn as [Hinv' _]%parse_turn_inv; [|done..].
    apply parse_loop_fuel; [done..|lia|lia].
Qed.

(** What a turn of the loop throws in a state that the parser reaches is
    what [parse] throws. *)
Lemma reachable_throw content tokens i st what :
  tokenize content = Ok tokens -> reachable tokens i st ->
  parse_turn tokens i st = Throw what ->
  parse content = Throw what.
Proof.
  intros Htokens Hreach Hturn. unfold parse. rewrite Htokens. cbn [bind].
  rewrite (reachable_parse_loop tokens i st (S (length tokens)));
    [|by eapply tokenize_lexed|done|lia].
  simpl. by rewrite Hturn.
Qed.

(** What the lexer throws is what [parse] throws. *)
Lemma parse_tokenize_throw content what :
  tokenize content = Throw what -> parse content = Throw what.
Proof. intros Htokens. unfold parse. by rewrite Htokens. Qed.

(** BSONParser::parse returns a document or throws: the model reaches
    neither the bound of a loop nor undefined behaviour. *)
Lemma parse_total content : total (parse content).
Proof.
  unfold parse. apply bind_total; [apply tokenize_total|].
  intros tokens Htokens%tokenize_lexed.
  apply bind_total.
  { apply parse_loop_total; [done|apply stack_inv_initial|unfold parse_fuel; lia]. }
  intros st Hst%parse_loop_inv; [|done|apply stack_inv_initial].
  destruct Hst as [_ _ Hroot Hframes]. apply Hframes in Hroot as [_ Hroot].
  destruct (lookup_lt_is_Some_2 (heap st) root Hroot) as [m Hm].
  by rewrite Hm.
Qed.

(** ** No reserved key in the store *)

Lemma heap_ok_assign m key val h :
  key <> "Charizard" -> heap_ok h -> heap_ok (assign m key val h).
Proof.
  intros Hkey Hh. unfold assign, heap_ok.
  apply Forall_alter; [done|]. intros mp _ Hmp. by rewrite lookup_insert_ne.
Qed.

Lemma parse_turn_heap_ok tokens i st i' st' :
  parse_turn tokens i st = Ok (Continue i' st') ->
  heap_ok (heap st) -> heap_ok (heap st').
Proof.
  unfold parse_turn. intros Hturn Hh.
  destruct (tokens !! i) as [token|]; [|done].
  destruct (type token); simplify_eq; try done.
  destruct (tokens !! S i) as [nextToken|]; [|done].
  destruct (type nextToken); try done.
  - unfold parse_section in Hturn.
    repeat case_match; try done;
      apply bind_Ok in Hturn as (u & Hkey%validateKey_Ok & Hturn);
      simpl in Hturn; simplify_eq.
    simpl. apply heap_ok_assign; [done|]. apply Forall_app. split; [done|].
    by apply Forall_singleton.
  - unfold parse_key_value in Hturn.
    apply bind_Ok in Hturn as (st1 & Hst1 & Hturn).
    assert (heap st1 = heap st) as Hheap.
    { unfold dedent in Hst1. repeat case_match; by simplify_eq. }
    apply bind_Ok in Hturn as (u & Hkey%validateKey_Ok & Hturn).
    simpl in Hturn.
    repeat case_match; try done;
      apply bind_Ok in Hturn as ([val j] & _ & Hturn);
      simpl in Hturn; simplify_eq.
    simpl.
    apply heap_ok_assign; [done|]. by rewrite Hheap.
Qed.

Lemma parse_loop_heap_ok tokens f i st st' :
  parse_loop f tokens i st = Ok st' ->
  heap_ok (heap st) -> heap_ok (heap st').
Proof.
  revert i st. induction f as [|f IH]; intros i st; [done|]. simpl.
  intros ([i1 st1|] & Hturn & Hrest)%bind_Ok Hh; [|by simplify_eq].
  eapply IH; [done|]. by eapply parse_turn_heap_ok.
Qed.

(** * The claims *)

(** ** The reference document *)

(** C1. The input of [testValid] (the header, top-level string and number
    keys, the sections database, pool and KERNEL_FLAGS one inside the
    other, the last one holding a boolean key, and a top-level array of
    two strings) parses to a document whose root holds the scalar keys,
    the chain of the three section objects, and the array of the two
    strings under whitelist. *)
Theorem testValid_parses :
  parse testValid_input = Ok testValid_document
  /\ doc_root testValid_document !! "app_name" = Some (VString "Pokedex_API")
  /\ doc_root testValid_document !! "version" = Some (VFloat (DDec false 15 (-1)))
  /\ lookup_path (doc_heap testValid_document) (doc_root testValid_document)
       ["database"; "host"] = Some (VString "127.0.0.1")
  /\ lookup_path (doc_heap testValid_document) (doc_root testValid_document)
       ["database"; "pool"; "max_connections"] = Some (VInt 100)
  /\ lookup_path (doc_heap testValid_document) (doc_root testValid_document)
       ["database"; "pool"; "KERNEL_FLAGS"; "panic_on_fail"] = Some (VBool true)
  /\ doc_root testValid_document !! "whitelist"
     = Some (VArray [VString "Prof_Oak"; VString "Mom"]).
Proof. repeat split; vm_compute; reflexivity. Qed.

(** The error tests of main.cpp. *)
Lemma main_error_tests :
  parse ("NOT_BULBA!" ++ nl ++ "key ~> " ++ quoted "val") = Throw ERR_HEADER
  /\ parse ("BULBA!" ++ nl ++ tab ++ "key ~> " ++ quoted "val") = Throw ERR_TAB
  /\ parse ("BULBA!" ++ nl ++ " key ~> " ++ quoted "val") = Throw ERR_INDENTATION
  /\ parse charizardKey = Throw ERR_RESERVED
  /\ parse deepNesting = Throw ERR_BADGES
  /\ parse ("BULBA!" ++ nl ++ "key ~> UnknownType") = Throw ERR_TYPE.
Proof. repeat split; vm_compute; reflexivity. Qed.

(** C8. The empty input has no line: the lexer returns the end-of-input
    token alone, and the parser returns the empty root. *)
Theorem empty_input_parses :
  tokenize "" = Ok [mkToken TOKEN_EOF "" 0 0]
  /\ parse "" = Ok (mkDocument ∅ [∅]).
Proof. split; vm_compute; reflexivity. Qed.

(** ** Number tokens *)

(** C10. The literal of every number token of a token list of the lexer is
    read whole by the integer or by the floating-point conversion, so
    that the parser makes a number of it: the TOKEN_NUMBER case of
    [parseValueFromTokens] returns, and does not throw the type error. *)
Theorem lexed_number_reparses content tokens i t :
  tokenize content = Ok tokens ->
  tokens !! i = Some t ->
  type t = TOKEN_NUMBER ->
  lexed_number (literal t)
  /\ exists v,
       parseNumber (literal t) = Ok v
       /\ forall fuel, parseValueFromTokens (S fuel) tokens i = Ok (v, S i).
Proof.
  intros Htokens Ht Htype.
  pose proof (Forall_lookup_1 _ _ _ _ (tokenize_lexed _ _ Htokens) Ht) as Hnum.
  unfold lexed_token in Hnum. rewrite Htype in Hnum.
  split; [done|].
  destruct (lexed_number_parseNumber _ Hnum) as [v Hv]. exists v.
  split; [done|]. intros fuel.
  rewrite parseValueFromTokens_S. by rewrite Ht, Htype, Hv.
Qed.

Lemma lexed_number_reparses_witness :
  lexed_number "1.5"
  /\ exists v,
       parseNumber "1.5" = Ok v
       /\ forall fuel,
            parseValueFromTokens (S fuel)
              [mkToken TOKEN_HEADER "BULBA!" 1 0;
               mkToken TOKEN_INDENT "" 2 0;
               mkToken TOKEN_IDENTIFIER "version" 2 0;
               mkToken TOKEN_VINE_WHIP "" 2 0;
               mkToken TOKEN_NUMBER "1.5" 2 0;
               mkToken TOKEN_EOF "" 2 0] 4
            = Ok (v, 5%nat).
Proof.
  apply (lexed_number_reparses (unlines ["BULBA!"; "version ~> 1.5"]) _ 4
           (mkToken TOKEN_NUMBER "1.5" 2 0)).
  - vm_compute. reflexivity.
  - reflexivity.
  - reflexivity.
Defined.

(** ** The context stack between two statements *)

(** C3. In every state of the parser between two statements (the initial
    state, and the state after each turn of the loop that goes on), the
    context stack has one frame more than the current level, which is the
    level of the top frame, the deepest open section; frame [k] has level
    [k], and frame 0 is the root at level 0.  A turn of the loop keeps
    this. *)
Theorem stack_discipline content tokens i st :
  tokenize content = Ok tokens ->
  reachable tokens i st ->
  Z.of_nat (length (stack st)) = currentLevel st + 1
  /\ stack st !! 0%nat = Some (mkContext root 0)
  /\ (exists top, last (stack st) = Some top /\ ctx_level top = currentLevel st)
  /\ (forall (k : nat) c, stack st !! k = Some c -> ctx_level c = Z.of_nat k)
  /\ (forall i' st',
        parse_turn tokens i st = Ok (Continue i' st') ->
        Z.of_nat (length (stack st')) = currentLevel st' + 1
        /\ stack_inv st').
Proof.
  intros Htokens%tokenize_lexed Hreach.
  pose proof (reachable_inv _ _ _ Htokens Hreach) as Hinv.
  pose proof Hinv as [Hlen Hdepth Hroot Hframes].
  split; [done|]. split; [done|]. split; [|split].
  - destruct (stack_inv_last _ Hinv) as [top Htop]. exists top. split; [done|].
    rewrite last_lookup in Htop. apply Hframes in Htop as [-> _]. lia.
  - intros k c Hc. by apply Hframes in Hc as [? _].
  - intros i' st' Hturn. apply parse_turn_inv in Hturn as [Hinv' _]; [|done..].
    split; [apply Hinv'|done].
Qed.

Lemma one_section_reachable : reachable one_section_tokens 5 one_section_open.
Proof.
  eapply reach_turn; [eapply reach_turn; [apply reach_initial|]|].
  - vm_compute. reflexivity.
  - vm_compute. reflexivity.
Defined.

Lemma stack_discipline_witness :
  Z.of_nat (length (stack one_section_open)) = currentLevel one_section_open + 1
  /\ stack one_section_open !! 0%nat = Some (mkContext root 0)
  /\ (exists top, last (stack one_section_open) = Some top
                  /\ ctx_level top = currentLevel one_section_open)
  /\ (forall (k : nat) c,
        stack one_section_open !! k = Some c -> ctx_level c = Z.of_nat k)
  /\ (forall i' st',
        parse_turn one_section_tokens 5 one_section_open = Ok (Continue i' st') ->
        Z.of_nat (length (stack st')) = currentLevel st' + 1
        /\ stack_inv st').
Proof.
  apply (stack_discipline one_section_input one_section_tokens 5 one_section_open).
  - vm_compute. reflexivity.
  - apply one_section_reachable.
Defined.

(** ** The header line *)

(** C4, as stated, fails: a first line that is the sentinel followed by a
    carriage return is not the sentinel, and the input is accepted, also
    when the carriage return is the last character of the input. *)
Lemma header_with_carriage_return_accepted :
  let content := "BULBA!" ++ cr ++ nl ++ "key ~> 1" in
  getlines LF content = ["BULBA!" ++ cr; "key ~> 1"]
  /\ "BULBA!" ++ cr <> "BULBA!"
  /\ getlines LF ("BULBA!" ++ cr) = ["BULBA!" ++ cr]
  /\ tokenize ("BULBA!" ++ cr)
     = Ok [mkToken TOKEN_HEADER "BULBA!" 1 0; mkToken TOKEN_EOF "" 1 0]
  /\ tokenize content
     = Ok [mkToken TOKEN_HEADER "BULBA!" 1 0;
           mkToken TOKEN_INDENT "" 2 0;
           mkToken TOKEN_IDENTIFIER "key" 2 0;
           mkToken TOKEN_VINE_WHIP "" 2 0;
           mkToken TOKEN_NUMBER "1" 2 0;
           mkToken TOKEN_EOF "" 2 0]
  /\ parse content = Ok (mkDocument {[ "key" := VInt 1 ]} [{[ "key" := VInt 1 ]}]).
Proof. repeat split; try (vm_compute; reflexivity). discriminate. Qed.

(** C4, amended.  When the first line, after the removal of one carriage
    return at its end, is not the sentinel, [tokenize] and [parse] throw
    the header error.  When it is, the lexer pushes the header token for
    it and goes on with the other lines; the token list that [tokenize]
    returns starts with this header token, holds no other one, and holds
    no indent token for the first line. *)
Theorem header_line_checked content first rest :
  getlines LF content = first :: rest ->
  (strip_cr first <> "BULBA!" ->
   tokenize content = Throw ERR_HEADER /\ parse content = Throw ERR_HEADER)
  /\ (strip_cr first = "BULBA!" ->
      tokenize_lines (first :: rest) 0 true []
      = tokenize_lines rest 1 false [mkToken TOKEN_HEADER "BULBA!" 1 0]
      /\ forall tokens,
           tokenize content = Ok tokens ->
           exists body,
             tokens = mkToken TOKEN_HEADER "BULBA!" 1 0 :: body
             /\ Forall (fun t => type t <> TOKEN_HEADER
                                 /\ (type t = TOKEN_INDENT -> 1 < line t)) body).
Proof.
  intros Hlines. split.
  - intros Hfirst. assert (tokenize content = Throw ERR_HEADER) as Htok.
    { unfold tokenize. rewrite Hlines. simpl.
      by destruct (String.eqb_spec (strip_cr first) "BULBA!"). }
    split; [done|]. unfold parse. by rewrite Htok.
  - intros Hfirst. split.
    { simpl. by rewrite Hfirst. }
    intros tokens [[Hnil _]|(? & ? & body & lineNum & _ & _ & _ & -> & Hbody)]%tokenize_shape.
    { congruence. }
    exists (body ++ [mkToken TOKEN_EOF "" lineNum 0])%list. split; [done|].
    apply Forall_app. split.
    + eapply Forall_impl; [done|]. intros t. unfold body_token.
      destruct (type t); try done. intros [_ ?]. split; [done|]. by intros _.
    + by repeat constructor.
Qed.

Lemma header_line_checked_witness :
  ("BULBA!" <> "BULBA!" ->
   tokenize (unlines ["BULBA!" ++ cr; "key ~> 1"]) = Throw ERR_HEADER
   /\ parse (unlines ["BULBA!" ++ cr; "key ~> 1"]) = Throw ERR_HEADER)
  /\ ("BULBA!" = "BULBA!" ->
      tokenize_lines ["BULBA!" ++ cr; "key ~> 1"] 0 true []
      = tokenize_lines ["key ~> 1"] 1 false [mkToken TOKEN_HEADER "BULBA!" 1 0]
      /\ forall tokens,
           tokenize (unlines ["BULBA!" ++ cr; "key ~> 1"]) = Ok tokens ->
           exists body,
             tokens = mkToken TOKEN_HEADER "BULBA!" 1 0 :: body
             /\ Forall (fun t => type t <> TOKEN_HEADER
                                 /\ (type t = TOKEN_INDENT -> 1 < line t)) body).
Proof.
  apply (header_line_checked (unlines ["BULBA!" ++ cr; "key ~> 1"])
           ("BULBA!" ++ cr) ["key ~> 1"]).
  vm_compute. reflexivity.
Defined.

Lemma header_missing_rejected :
  tokenize ("NOT_BULBA!" ++ nl ++ "key ~> " ++ quoted "val") = Throw ERR_HEADER
  /\ parse ("NOT_BULBA!" ++ nl ++ "key ~> " ++ quoted "val") = Throw ERR_HEADER.
Proof. split; vm_compute; reflexivity. Qed.

(** ** The segments of an array *)

Lemma getlines_nil d s : getlines d s = [] -> s = "".
Proof.
  destruct s as [|c s]; simpl; [done|].
  destruct (Ascii.eqb c d); [done|]. by destruct (getlines d s).
Qed.

Lemma getlines_no_delim d s segment :
  segment ∈ getlines d s ->
  forall_chars (fun c => negb (Ascii.eqb c d)) segment = true.
Proof.
  revert segment. induction s as [|c s IH]; simpl; intros segment Hin.
  - inversion Hin.
  - destruct (Ascii.eqb c d) eqn:Hc.
    + apply elem_of_cons in Hin as [->|Hin]; [done|by apply IH].
    + destruct (getlines d s) as [|l ls].
      * apply list_elem_of_singleton in Hin as ->. simpl. by rewrite Hc.
      * apply elem_of_cons in Hin as [->|Hin].
        -- simpl. rewrite Hc. simpl. apply IH. by left.
        -- apply IH. by right.
Qed.

Lemma getlines_concat d s :
  exists tail,
    (tail = "" \/ tail = String d "")
    /\ s = String.concat (String d "") (getlines d s) ++ tail.
Proof.
  induction s as [|c s (tail & Htail & IH)]; simpl.
  - exists "". by split; [left|].
  - destruct (Ascii.eqb_spec c d) as [->|Hc].
    + destruct (getlines d s) as [|l ls] eqn:E.
      * apply getlines_nil in E as ->. exists (String d ""). by split; [right|].
      * exists tail. split; [done|]. simpl in *. by rewrite IH at 1.
    + destruct (getlines d s) as [|l ls] eqn:E.
      * apply getlines_nil in E as ->. exists "". by split; [left|].
      * exists tail. split; [done|]. rewrite IH at 1. simpl. by destruct ls.
Qed.

Lemma mapM_length {A B} (f : A -> result B) l ys :
  mapM f l = Ok ys -> length ys = length l.
Proof.
  revert ys. induction l as [|x l IH]; intros ys; simpl.
  - by intros [= <-].
  - intros (y & _ & (ys' & Hys'%IH & [= <-])%bind_Ok)%bind_Ok. simpl. lia.
Qed.

Lemma tokenize_segments_mapM tokenizeElement lineNum segments first tokens :
  (forall segment, appends (tokenizeElement segment)) ->
  tokenize_segments tokenizeElement lineNum segments first tokens =
  do tss <- mapM (fun segment => tokenizeElement segment []) segments;
  Ok (tokens
      ++ (if first then [] else
          match segments with
          | [] => []
          | _ => [mkToken TOKEN_COMMA "" lineNum 0]
          end)
      ++ intercalate [mkToken TOKEN_COMMA "" lineNum 0] tss)%list.
Proof.
  intros Hrec. revert first tokens.
  induction segments as [|segment segments IH]; intros first tokens; simpl.
  - destruct first; by rewrite !app_nil_r.
  - rewrite (Hrec segment (if first then tokens else _)).
    destruct (tokenizeElement segment []) as [vs| | |]; simpl; try done.
    rewrite IH.
    destruct (mapM _ segments) as [tss| | |] eqn:Htss; simpl; try done.
    apply mapM_length in Htss. f_equal. unfold push_back.
    destruct segments, tss; try done; destruct first; simpl;
      by rewrite <- ?app_assoc, ?app_nil_r.
Qed.

Lemma substring_prefix n s p :
  String.substring 0 n s = p -> String.length p = n -> exists r, s = p ++ r.
Proof.
  revert s p. induction n as [|n IH]; intros s p.
  - destruct s; simpl; intros <- _; by eexists.
  - destruct s as [|c s]; simpl; [by intros <-|].
    intros <- [= Hlen]. destruct (IH s _ eq_refl Hlen) as [r Hr].
    exists r. by rewrite Hr at 1.
Qed.

Lemma startsWith_prefix str prefix :
  startsWith str prefix = true -> exists r, str = prefix ++ r.
Proof.
  unfold startsWith, substr, str_size.
  intros [Hsize Heq%String.eqb_eq]%andb_true_iff.
  apply Z.leb_le in Hsize.
  rewrite Z.min_l in Heq by lia. rewrite Nat2Z.id in Heq. simpl in Heq.
  by apply substring_prefix in Heq.
Qed.

(** C5, as stated, fails: the comma inside the inner array, or inside the
    quotes, separates two segments, and the value is rejected. *)
Lemma nested_comma_rejected :
  getlines COMMA " <| 1, 2 |> " = [" <| 1"; " 2 |> "]
  /\ value_tokens 20 "<| <| 1, 2 |> |>" 2 = Throw ERR_TYPE
  /\ tokenize (unlines ["BULBA!"; "k ~> <| <| 1, 2 |> |>"]) = Throw ERR_TYPE
  /\ getlines COMMA (" " ++ quoted "a,b" ++ " ") = [" " ++ quote ++ "a"; "b" ++ quote ++ " "]
  /\ tokenize (unlines ["BULBA!"; "k ~> <| " ++ quoted "a,b" ++ " |>"]) = Throw ERR_TYPE.
Proof. repeat split; vm_compute; reflexivity. Qed.

(** C5, amended.  The inside of an array is split at every comma: no
    segment holds a comma, and the segments with a comma between two of
    them (and a comma at the end, when the inside ends with one) are the
    inside.  The tokens of the array are the array start token, the
    tokens of the segments, each tokenized as a value, with a comma token
    between two segments, and the array end token; the first failure of
    a segment is the failure of the array.  So [nested_array], which has
    no comma inside its inner array, has well-nested tokens, and
    [nested_array_comma] is rejected with the type error. *)
Theorem array_split_at_every_comma fuel valStr lineNum :
  let s := trim valStr in
  let inner := substr s 2 (to_size_t (str_size s - 4)) in
  startsWith s "<|" && endsWith s "|>" = true ->
  (forall segment, segment ∈ getlines COMMA inner ->
     forall_chars (fun c => negb (Ascii.eqb c COMMA)) segment = true)
  /\ (exists tail,
        (tail = "" \/ tail = ",")
        /\ inner = String.concat "," (getlines COMMA inner) ++ tail)
  /\ value_tokens (S fuel) valStr lineNum =
     (do tss <- mapM (fun segment => value_tokens fuel segment lineNum)
                  (getlines COMMA inner);
      Ok ([mkToken TOKEN_ARRAY_START "" lineNum 0]
          ++ intercalate [mkToken TOKEN_COMMA "" lineNum 0] tss
          ++ [mkToken TOKEN_ARRAY_END "" lineNum 0])%list)
  /\ value_tokens (tokenizeValue_fuel nested_array) nested_array 2
     = Ok nested_array_tokens
  /\ value_tokens (tokenizeValue_fuel nested_array_comma) nested_array_comma 2
     = Throw ERR_TYPE.
Proof.
  intros s inner Harray.
  split; [|split; [|split; [|split; vm_compute; reflexivity]]].
  - intros segment. apply getlines_no_delim.
  - apply getlines_concat.
  - pose proof Harray as [[r Hr]%startsWith_prefix _]%andb_true_iff.
    unfold value_tokens. simpl. fold s. fold inner. rewrite Harray.
    assert (startsWith s quote = false) as ->.
    { rewrite Hr. unfold startsWith, substr, str_size. simpl String.length.
      rewrite Z.min_l by lia. simpl. apply andb_false_r. }
    assert (String.eqb s "" = false) as -> by by rewrite Hr.
    assert (String.eqb s "SuperEffective" = false) as -> by by rewrite Hr.
    assert (String.eqb s "NotVeryEffective" = false) as -> by by rewrite Hr.
    assert (String.eqb s "MissingNo" = false) as -> by by rewrite Hr.
    simpl.
    rewrite tokenize_segments_mapM by (intros segment; apply tokenizeValue_appends).
    by destruct (mapM _ _) as [tss| | |].
Qed.

Lemma array_split_at_every_comma_witness :
  (forall segment, segment ∈ getlines COMMA " <| 1 |>, 2 " ->
     forall_chars (fun c => negb (Ascii.eqb c COMMA)) segment = true)
  /\ (exists tail,
        (tail = "" \/ tail = ",")
        /\ " <| 1 |>, 2 " = String.concat "," (getlines COMMA " <| 1 |>, 2 ") ++ tail)
  /\ value_tokens 9 "<| <| 1 |>, 2 |>" 2 =
     (do tss <- mapM (fun segment => value_tokens 8 segment 2)
                  (getlines COMMA " <| 1 |>, 2 ");
      Ok ([mkToken TOKEN_ARRAY_START "" 2 0]
          ++ intercalate [mkToken TOKEN_COMMA "" 2 0] tss
          ++ [mkToken TOKEN_ARRAY_END "" 2 0])%list)
  /\ value_tokens (tokenizeValue_fuel nested_array) nested_array 2
     = Ok nested_array_tokens
  /\ value_tokens (tokenizeValue_fuel nested_array_comma) nested_array_comma 2
     = Throw ERR_TYPE.
Proof.
  apply (array_split_at_every_comma 8 "<| <| 1 |>, 2 |>" 2).
  vm_compute. reflexivity.
Defined.

(** A nested array without a comma inside is tokenized, and parsed. *)
Lemma nested_array_parses :
  parse (unlines ["BULBA!"; "k ~> " ++ nested_array])
  = Ok (mkDocument {[ "k" := VArray [VArray [VInt 1]; VInt 2] ]}
                   [{[ "k" := VArray [VArray [VInt 1]; VInt 2] ]}]).
Proof. vm_compute; reflexivity. Qed.

(** ** Statements *)

Lemma parse_turn_section tokens i st indent open :
  tokens !! i = Some indent -> type indent = TOKEN_INDENT ->
  tokens !! S i = Some open -> type open = TOKEN_SECTION_OPEN ->
  parse_turn tokens i st = parse_section tokens (S i) (level indent) open st.
Proof. intros Hi Hindent Hn Hopen. unfold parse_turn. by rewrite Hi, Hindent, Hn, Hopen. Qed.

Lemma parse_turn_key_value tokens i st indent keyToken :
  tokens !! i = Some indent -> type indent = TOKEN_INDENT ->
  tokens !! S i = Some keyToken -> type keyToken = TOKEN_IDENTIFIER ->
  parse_turn tokens i st = parse_key_value tokens (S i) (level indent) keyToken st.
Proof. intros Hi Hindent Hn Hkey. unfold parse_turn. by rewrite Hi, Hindent, Hn, Hkey. Qed.

Lemma lexed_section_level content tokens i open :
  tokenize content = Ok tokens ->
  tokens !! i = Some open -> type open = TOKEN_SECTION_OPEN ->
  1 <= level open <= 3.
Proof.
  intros Htokens%tokenize_lexed Hi Hopen.
  pose proof (Forall_lookup_1 _ _ _ _ Htokens Hi) as H.
  unfold lexed_token in H. by rewrite Hopen in H.
Qed.

Lemma lexed_indent_level content tokens i indent :
  tokenize content = Ok tokens ->
  tokens !! i = Some indent -> type indent = TOKEN_INDENT ->
  0 <= level indent.
Proof.
  intros Htokens%tokenize_lexed Hi Hindent.
  pose proof (Forall_lookup_1 _ _ _ _ Htokens Hi) as H.
  unfold lexed_token in H. by rewrite Hindent in H.
Qed.

(** ** Sections without their ancestors *)

(** C2, as stated, fails: a stage 3 header at the start of a line, under
    the root alone, is met with one frame on the stack, and the error is
    the indentation error. *)
Lemma section_at_wrong_indent_not_badges :
  let content := unlines ["BULBA!"; "(@) x (@)"] in
  exists tokens indent open,
    tokenize content = Ok tokens
    /\ reachable tokens 1 initial
    /\ tokens !! 1%nat = Some indent /\ type indent = TOKEN_INDENT
    /\ tokens !! 2%nat = Some open /\ type open = TOKEN_SECTION_OPEN
    /\ level open = 3
    /\ Z.of_nat (length (stack initial)) < level open
    /\ parse content = Throw ERR_INDENTATION
    /\ parse content <> Throw ERR_BADGES.
Proof.
  eexists _, (mkToken TOKEN_INDENT "" 2 0), (mkToken TOKEN_SECTION_OPEN "" 2 3).
  split; [vm_compute; reflexivity|].
  split; [eapply reach_turn; [apply reach_initial|vm_compute; reflexivity]|].
  repeat split; try (vm_compute; reflexivity); try done.
Qed.

(** C2, amended.  When the parser comes to a section header of stage [S]
    on a line indented at level [S - 1], and the context stack holds fewer
    than [S] frames, [parse] throws the badges error.  The stage is then 2
    or 3.  The input of the test `Deep Nesting Violation' of main.cpp is
    such an input: a stage 3 header under a stage 1 section, indented at
    level 2. *)
Theorem section_without_ancestors content tokens i st indent open :
  tokenize content = Ok tokens ->
  reachable tokens i st ->
  tokens !! i = Some indent -> type indent = TOKEN_INDENT ->
  tokens !! S i = Some open -> type open = TOKEN_SECTION_OPEN ->
  level indent = level open - 1 ->
  Z.of_nat (length (stack st)) < level open ->
  2 <= level open <= 3
  /\ parse content = Throw ERR_BADGES
  /\ parse deepNesting = Throw ERR_BADGES.
Proof.
  intros Htokens Hreach Hi Hindent Hn Hopen Hlevel Hstack.
  pose proof (lexed_section_level _ _ _ _ Htokens Hn Hopen) as HS.
  pose proof (reachable_inv _ _ _ (tokenize_lexed _ _ Htokens) Hreach) as [Hlen Hdepth _ _].
  split; [lia|]. split; [|vm_compute; reflexivity].
  eapply reachable_throw; [done..|].
  rewrite (parse_turn_section _ _ _ _ _ Hi Hindent Hn Hopen).
  unfold parse_section. rewrite to_size_t_small by lia.
  rewrite Hlevel, Z.eqb_refl. simpl.
  by destruct (Z.ltb_spec (Z.of_nat (length (stack st))) (level open)); [|lia].
Qed.

Lemma deepNesting_reachable : reachable deepNesting_tokens 5 deepNesting_level1.
Proof.
  eapply reach_turn; [eapply reach_turn; [apply reach_initial|]|].
  - vm_compute. reflexivity.
  - vm_compute. reflexivity.
Defined.

(** The test `Deep Nesting Violation' of main.cpp, at its third line. *)
Lemma section_without_ancestors_witness :
  2 <= 3 <= 3
  /\ parse deepNesting = Throw ERR_BADGES
  /\ parse deepNesting = Throw ERR_BADGES.
Proof.
  apply (section_without_ancestors deepNesting deepNesting_tokens 5
           deepNesting_level1 (mkToken TOKEN_INDENT "" 3 2)
           (mkToken TOKEN_SECTION_OPEN "" 3 3)).
  - vm_compute. reflexivity.
  - apply deepNesting_reachable.
  - reflexivity.
  - reflexivity.
  - reflexivity.
  - reflexivity.
  - reflexivity.
  - simpl. lia.
Defined.

(** ** A name bound twice *)

Lemma last_take_lookup {A} (l : list A) n :
  (0 < n <= length l)%nat -> last (take n l) = l !! (n - 1)%nat.
Proof.
  intros Hn. rewrite last_lookup, length_take.
  replace (Nat.pred (n `min` length l)) with (n - 1)%nat by lia.
  apply lookup_take_lt. lia.
Qed.

Lemma lookup_assign_eq m key val (h : Store) mp :
  h !! m = Some mp -> assign m key val h !! m = Some (<[key := val]> mp).
Proof. intros Hm. unfold assign. by rewrite list_lookup_alter_eq, Hm. Qed.

Lemma lookup_assign_ne m m' key val (h : Store) :
  m <> m' -> assign m key val h !! m' = h !! m'.
Proof. intros Hm. unfold assign. by rewrite list_lookup_alter_ne. Qed.






(** The document of [rebinding_input]: a is bound to the second section,
    in which y is bound to 3; the first section, with x, is not in the
    document. *)
Lemma rebinding_document :
  exists d,
    parse rebinding_input = Ok d
    /\ doc_root d = {[ "a" := VObject 2%nat ]}
    /\ doc_heap d !! 2%nat = Some {[ "y" := VInt 3 ]}
    /\ lookup_path (doc_heap d) (doc_root d) ["a"; "y"] = Some (VInt 3)
    /\ lookup_path (doc_heap d) (doc_root d) ["a"; "x"] = None.
Proof. eexists. split; [vm_compute; reflexivity|]. repeat split. Qed.

(** ** The statements of a token list *)

Lemma tokenizeLine_statement indent line lineNum tokens tokens' :
  type indent = TOKEN_INDENT ->
  tokenizeLine line lineNum (push_back tokens indent) = Ok tokens' ->
  exists stmt, tokens' = (tokens ++ stmt)%list /\ statement stmt.
Proof.
  intros Hindent. unfold tokenizeLine, push_back.
  destruct (startsWith line "(o) " && _).
  { intros [= <-]. eexists. rewrite <- !app_assoc. split; [done|]. by constructor. }
  destruct (startsWith line "(O) " && _).
  { intros [= <-]. eexists. rewrite <- !app_assoc. split; [done|]. by constructor. }
  destruct (startsWith line "(@) " && _).
  { intros [= <-]. eexists. rewrite <- !app_assoc. split; [done|]. by constructor. }
  destruct (regex_match_kv line) as [[key valStr]|]; [|done].
  intros (vs & -> & Hvs)%tokenizeValue_pushes.
  eexists. rewrite <- !app_assoc. split; [done|]. by constructor.
Qed.

Lemma tokenize_lines_statements lines lineNum tokens lineNum' tokens' :
  tokenize_lines lines lineNum false tokens = Ok (lineNum', tokens') ->
  exists stmts, tokens' = (tokens ++ concat stmts)%list /\ Forall statement stmts.
Proof.
  revert lineNum tokens.
  induction lines as [|line lines IH]; intros lineNum tokens; simpl.
  { intros [= <- <-]. exists []. by rewrite app_nil_r. }
  destruct (String.eqb _ ""); [apply IH|].
  destruct (scan_indent _ 0) as [indentCount hasTab].
  destruct hasTab; [done|].
  destruct (Z.rem indentCount 4 =? 0); [|done]. simpl.
  intros (tokens1 & (stmt & -> & Hstmt)%tokenizeLine_statement
          & (stmts & -> & Hstmts)%IH)%bind_Ok; [|done].
  exists (stmt :: stmts). simpl. rewrite <- app_assoc. split; [done|].
  by constructor.
Qed.

(** The token lists of the lexer: the end-of-input token alone, or the
    header token, the statements of the lines, and the end-of-input
    token. *)
Lemma tokenize_statements content tokens :
  tokenize content = Ok tokens ->
  tokens = [mkToken TOKEN_EOF "" 0 0]
  \/ exists stmts lineNum,
       tokens = (mkToken TOKEN_HEADER "BULBA!" 1 0 :: concat stmts
                 ++ [mkToken TOKEN_EOF "" lineNum 0])%list
       /\ Forall statement stmts.
Proof.
  intros [[_ ->]|(first & rest & body & lineNum & _ & _ & Hlines & -> & _)]%tokenize_shape.
  { by left. }
  right. apply tokenize_lines_statements in Hlines as (stmts & [= ->] & Hstmts).
  by exists stmts, lineNum.
Qed.

Lemma lookup_concat {A} (ls : list (list A)) j x :
  concat ls !! j = Some x ->
  exists l1 l l2 k,
    ls = (l1 ++ l :: l2)%list /\ j = (length (concat l1) + k)%nat /\ l !! k = Some x.
Proof.
  revert j. induction ls as [|l ls IH]; intros j; simpl; [done|].
  intros [Hl|[Hj (l1 & l' & l2 & k & -> & Hk & Hx)%IH]]%lookup_app_Some.
  - by exists [], l, ls, j.
  - exists (l :: l1), l', l2, k. simpl. rewrite length_app.
    split; [done|]. split; [lia|done].
Qed.

Lemma statement_not_eof stmt k t :
  statement stmt -> stmt !! k = Some t -> type t <> TOKEN_EOF.
Proof.
  intros [indent open name close Hi Ho Hn Hc|indent key vine vs Hi Hk Hv Hvs] Ht.
  - destruct k as [|[|[|[|k]]]]; simplify_eq/=; congruence.
  - destruct k as [|[|[|k]]]; simplify_eq/=; try congruence.
    pose proof (Forall_lookup_1 _ _ _ _ Hvs Ht) as H. unfold value_token in H.
    intros E. by rewrite E in H.
Qed.

(** The end-of-input token is the last token. *)
Lemma lexed_eof_last content tokens k t :
  tokenize content = Ok tokens ->
  tokens !! k = Some t -> type t = TOKEN_EOF -> S k = length tokens.
Proof.
  intros [->|(stmts & lineNum & -> & Hstmts)]%tokenize_statements Hk Ht.
  { by destruct k as [|[|k]]. }
  destruct k as [|k]; [by simplify_eq/=|]. simpl in *.
  rewrite length_app. simpl.
  apply lookup_app_Some in Hk as [Hk|[Hk Hlast]].
  - apply lookup_concat in Hk as (l1 & l & l2 & k' & -> & _ & Hk').
    apply Forall_app in Hstmts as [_ [Hl _]%Forall_cons].
    by destruct (statement_not_eof _ _ _ Hl Hk').
  - destruct (k - length (concat stmts))%nat eqn:E; [lia|done].
Qed.

(** ** The parser comes to every statement *)

Lemma parse_elements_span parseElement tokens n i arr v i' :
  (forall j r, parseElement j = Ok r ->
     (j < snd r)%nat /\ forall k, (j <= k < snd r)%nat -> value_at tokens k) ->
  parse_elements parseElement tokens n i arr = Ok (v, i') ->
  forall k, (i <= k < i')%nat -> value_at tokens k.
Proof.
  intros Hrec. revert i arr.
  induction n as [|n IH]; intros i arr; simpl; [done|].
  destruct (tokens !! i) as [t|] eqn:Ht; [|done].
  destruct (bool_decide_reflect (type t = TOKEN_ARRAY_END)) as [Hend|_].
  { intros [= <- <-] k Hk. assert (k = i) as -> by lia.
    exists t. by rewrite Hend. }
  destruct (bool_decide_reflect (type t = TOKEN_COMMA)) as [Hcomma|_].
  - intros H k Hk. destruct (decide (k = i)) as [->|].
    + exists t. by rewrite Hcomma.
    + eapply IH; [done|lia].
  - intros (r & [Hlt Hr]%Hrec & H)%bind_Ok k Hk.
    destruct (decide (k < snd r)%nat).
    + apply Hr. lia.
    + eapply IH; [done|lia].
Qed.

Lemma parseValueFromTokens_span fuel tokens i v i' :
  parseValueFromTokens fuel tokens i = Ok (v, i') ->
  forall k, (i <= k < i')%nat -> value_at tokens k.
Proof.
  revert i v i'. induction fuel as [|fuel IH]; intros i v i'; [done|].
  rewrite parseValueFromTokens_S.
  destruct (tokens !! i) as [token|] eqn:Ht; [|done].
  assert (forall k, (i <= k < S i)%nat -> value_type (type token) = true ->
                    value_at tokens k) as Hone.
  { intros k Hk Hty. assert (k = i) as -> by lia. by exists token. }
  destruct (type token) eqn:Hty; try done; try (intros [= <- <-] k Hk; by apply Hone).
  - intros (? & _ & [= <- <-])%bind_Ok k Hk. by apply Hone.
  - intros H k Hk. destruct (decide (k = i)) as [->|].
    { exists token. by rewrite Hty. }
    eapply parse_elements_span; [|done|lia].
    intros j [v' j'] Hj. simpl. split.
    + apply parseValueFromTokens_advances in Hj. lia.
    + by eapply IH.
Qed.

(** A turn of the loop that goes on steps over no indent token and no
    end-of-input token. *)
Lemma parse_turn_span tokens i st i' st' k t :
  parse_turn tokens i st = Ok (Continue i' st') ->
  (i < k < i')%nat -> tokens !! k = Some t ->
  type t <> TOKEN_INDENT /\ type t <> TOKEN_EOF.
Proof.
  unfold parse_turn. intros Hturn Hk Ht.
  destruct (tokens !! i) as [token|]; [|done].
  destruct (type token); simplify_eq; try lia.
  destruct (tokens !! S i) as [nextToken|] eqn:Hnext; [|done].
  destruct (type nextToken) eqn:Hty; try done.
  - unfold parse_section in Hturn.
    destruct (negb _); [done|]. destruct (_ <? _); [done|].
    destruct (tokens !! S (S i)) as [keyToken|] eqn:Hkey; [|done].
    destruct (bool_decide_reflect (type keyToken = TOKEN_IDENTIFIER)) as [Hkt|]; [|done].
    apply bind_Ok in Hturn as (_ & _ & Hturn).
    destruct (tokens !! S (S (S i))) as [closeToken|] eqn:Hclose; [|done].
    destruct (bool_decide_reflect (type closeToken = TOKEN_SECTION_CLOSE)) as [Hct|]; [|done].
    simpl in Hturn. destruct (last _); [|done]. simplify_eq.
    assert (k = S i \/ k = S (S i) \/ k = S (S (S i))) as [->|[->| ->]] by lia;
      simplify_eq; split; congruence.
  - unfold parse_key_value in Hturn.
    apply bind_Ok in Hturn as (st1 & _ & Hturn).
    apply bind_Ok in Hturn as (_ & _ & Hturn).
    destruct (tokens !! S (S i)) as [vine|] eqn:Hvine; [|done].
    destruct (bool_decide_reflect (type vine = TOKEN_VINE_WHIP)) as [Hvt|]; [|done].
    simpl in Hturn.
    apply bind_Ok in Hturn as ([val j] & Hval & Hturn).
    destruct (last _); [|done]. simplify_eq.
    destruct (decide (k = S i)) as [->|]; [simplify_eq; split; congruence|].
    destruct (decide (k = S (S i))) as [->|]; [simplify_eq; split; congruence|].
    destruct (parseValueFromTokens_span _ _ _ _ _ Hval k ltac:(lia)) as (t' & Ht' & Hvalue).
    simplify_eq. split; intros E; by rewrite E in Hvalue.
Qed.

(** The loop is left at the end-of-input token, at the end of the tokens,
    or at an indent token that is the last token. *)
Lemma parse_turn_Break tokens i st :
  parse_turn tokens i st = Ok Break ->
  tokens !! i = None
  \/ (exists t, tokens !! i = Some t /\ type t = TOKEN_EOF)
  \/ tokens !! S i = None.
Proof.
  unfold parse_turn. intros Hturn.
  destruct (tokens !! i) as [token|]; [|by left].
  destruct (type token) eqn:Hty; simplify_eq; try (right; left; by eauto).
  destruct (tokens !! S i) as [nextToken|] eqn:Hnext; [|by right; right].
  exfalso. destruct (type nextToken); try done.
  - unfold parse_section in Hturn.
    repeat (case_match; try done);
      apply bind_Ok in Hturn as (_ & _ & Hturn); by simplify_eq.
  - unfold parse_key_value in Hturn.
    apply bind_Ok in Hturn as (st1 & _ & Hturn).
    apply bind_Ok in Hturn as (_ & _ & Hturn).
    repeat (case_match; try done);
      apply bind_Ok in Hturn as ([val j] & _ & Hturn); simpl in Hturn;
      by repeat case_match.
Qed.

(** When the loop returns, it has come to every indent token before the
    end-of-input token. *)
Lemma parse_loop_visits tokens f i st st' j t :
  Forall lexed_token tokens ->
  reachable tokens i st ->
  parse_loop f tokens i st = Ok st' ->
  (i <= j)%nat ->
  tokens !! j = Some t -> type t = TOKEN_INDENT ->
  is_Some (tokens !! S j) ->
  (forall k t', (k < j)%nat -> tokens !! k = Some t' -> type t' <> TOKEN_EOF) ->
  exists stj, reachable tokens j stj.
Proof.
  intros Hlexed Hreach Hloop Hij Hj Ht Hnext Heof. revert i st Hreach Hloop Hij.
  induction f as [|f IH]; intros i st Hreach Hloop Hij; [done|].
  destruct (decide (i = j)) as [->|Hne]; [by eauto|].
  simpl in Hloop. apply bind_Ok in Hloop as ([i1 st1|] & Hturn & Hloop).
  - apply (IH i1 st1); [by eapply reach_turn|done|].
    destruct (decide (i1 <= j)%nat); [done|].
    destruct (parse_turn_span _ _ _ _ _ j t Hturn ltac:(lia) Hj) as [? _]. done.
  - exfalso. apply parse_turn_Break in Hturn as [Hi|[(t' & Hi & Ht')|Hi]].
    + apply lookup_ge_None in Hi. apply lookup_lt_Some in Hj. lia.
    + by apply (Heof i t' ltac:(lia) Hi).
    + apply lookup_ge_None in Hi. apply lookup_lt_Some in Hj. lia.
Qed.

Lemma lexed_last content tokens :
  tokenize content = Ok tokens ->
  exists t, last tokens = Some t /\ type t = TOKEN_EOF.
Proof.
  unfold tokenize. intros ([lineNum tokens1] & _ & [= <-])%bind_Ok.
  eexists. unfold push_back. by rewrite last_snoc.
Qed.

(** When [parse] returns, the parser has come to every line. *)
Lemma statement_reached content tokens d j t :
  tokenize content = Ok tokens ->
  parse content = Ok d ->
  tokens !! j = Some t -> type t = TOKEN_INDENT ->
  exists st, reachable tokens j st.
Proof.
  intros Htokens Hparse Hj Ht.
  unfold parse in Hparse. rewrite Htokens in Hparse. cbn [bind] in Hparse.
  apply bind_Ok in Hparse as (st' & Hloop & _).
  assert (is_Some (tokens !! S j)) as Hnext.
  { apply lookup_lt_is_Some.
    destruct (decide (S j < length tokens)%nat) as [|Hlast]; [done|].
    apply lookup_lt_Some in Hj as Hlt. exfalso.
    destruct (lexed_last _ _ Htokens) as (t' & Hlast' & Heof).
    rewrite last_lookup in Hlast'.
    replace (Nat.pred (length tokens)) with j in Hlast' by lia.
    congruence. }
  eapply parse_loop_visits; try done.
  - by eapply tokenize_lexed.
  - apply reach_initial.
  - lia.
  - intros k t' Hk Hk' Heof.
    pose proof (lexed_eof_last _ _ _ _ Htokens Hk' Heof).
    apply lookup_lt_Some in Hj. lia.
Qed.

(** ** A key without a value *)

Lemma parse_key_value_no_value tokens i expectedLevel keyToken vine next st :
  tokens !! S i = Some vine -> type vine = TOKEN_VINE_WHIP ->
  tokens !! S (S i) = Some next ->
  type next = TOKEN_INDENT \/ type next = TOKEN_EOF ->
  parse_key_value tokens i expectedLevel keyToken st =
  do _ <- dedent expectedLevel st;
  do _ <- validateKey (literal keyToken);
  Throw ERR_TYPE.
Proof.
  intros Hv Hvine Hn Hnext. unfold parse_key_value.
  destruct (dedent expectedLevel st) as [st1| | |]; simpl; try done.
  destruct (validateKey (literal keyToken)); simpl; try done.
  rewrite Hv, Hvine. simpl. unfold parse_fuel. rewrite parseValueFromTokens_S, Hn.
  by destruct Hnext as [-> | ->].
Qed.

Lemma bind_Throw_total {A B} (r : result A) (k : A -> result B) :
  total r -> (forall a, exists what, k a = Throw what) ->
  exists what, bind r k = Throw what.
Proof. destruct r as [a|what| |]; simpl; try done; intros _ Hk; eauto. Qed.

Lemma dedent_total expectedLevel st : total (dedent expectedLevel st).
Proof. unfold dedent. by repeat case_match. Qed.

Lemma dedent_Ok expectedLevel st :
  expectedLevel <= currentLevel st -> exists st1, dedent expectedLevel st = Ok st1.
Proof.
  intros Hle. unfold dedent.
  destruct (Z.eqb_spec expectedLevel (currentLevel st)); simpl; [by eauto|].
  destruct (Z.ltb_spec expectedLevel (currentLevel st)); [by eauto|lia].
Qed.

(** C6, as stated, fails: the error for a key without a value is the type
    error. *)
Lemma missing_value_type_error :
  let content := unlines ["BULBA!"; "key ~>"] in
  tokenize content
  = Ok [mkToken TOKEN_HEADER "BULBA!" 1 0;
        mkToken TOKEN_INDENT "" 2 0;
        mkToken TOKEN_IDENTIFIER "key" 2 0;
        mkToken TOKEN_VINE_WHIP "" 2 0;
        mkToken TOKEN_EOF "" 2 0]
  /\ parse content = Throw ERR_TYPE
  /\ parse content <> Throw ERR_SYNTAX
  /\ parse (unlines ["BULBA!"; "key ~>"; "other ~> 1"]) = Throw ERR_TYPE.
Proof. repeat split; try (vm_compute; reflexivity). by vm_compute. Qed.

(** C6, amended.  An input with a key/value line without a value (the
    token after the assign operator is the indent token of the next line
    or the end-of-input token) is rejected: [parse] throws.  When the
    parser comes to this line, the line is not indented deeper than the
    current level and its key is not the reserved one, the error is the
    type error: the token after the assign operator starts no value. *)
Theorem missing_value_rejected content tokens j indent keyToken vine next :
  tokenize content = Ok tokens ->
  tokens !! j = Some indent -> type indent = TOKEN_INDENT ->
  tokens !! S j = Some keyToken -> type keyToken = TOKEN_IDENTIFIER ->
  tokens !! S (S j) = Some vine -> type vine = TOKEN_VINE_WHIP ->
  tokens !! S (S (S j)) = Some next ->
  type next = TOKEN_INDENT \/ type next = TOKEN_EOF ->
  (exists what, parse content = Throw what)
  /\ (forall st,
        reachable tokens j st ->
        level indent <= currentLevel st ->
        literal keyToken <> "Charizard" ->
        parse content = Throw ERR_TYPE).
Proof.
  intros Htokens Hj Hindent Hk Hkey Hv Hvine Hn Hnext.
  assert (forall st, parse_turn tokens j st =
                     do _ <- dedent (level indent) st;
                     do _ <- validateKey (literal keyToken);
                     Throw ERR_TYPE) as Hturn.
  { intros st. rewrite (parse_turn_key_value _ _ _ _ _ Hj Hindent Hk Hkey).
    by eapply parse_key_value_no_value. }
  split.
  - pose proof (parse_total content) as Htotal.
    destruct (parse content) as [d|what| |] eqn:Hparse; try done; [|by eauto].
    destruct (statement_reached _ _ _ _ _ Htokens Hparse Hj Hindent) as [st Hreach].
    assert (exists what, parse_turn tokens j st = Throw what) as [what Hwhat].
    { rewrite Hturn. apply bind_Throw_total; [apply dedent_total|].
      intros _. apply bind_Throw_total; [apply validateKey_total|by eauto]. }
    pose proof (reachable_throw _ _ _ _ _ Htokens Hreach Hwhat). congruence.
  - intros st Hreach Hlevel Hname.
    eapply reachable_throw; [done..|]. rewrite Hturn.
    destruct (dedent_Ok _ _ Hlevel) as [st1 ->]. simpl.
    unfold validateKey. by destruct (String.eqb_spec (literal keyToken) "Charizard").
Qed.

Lemma missing_value_rejected_witness :
  (exists what, parse (unlines ["BULBA!"; "key ~>"]) = Throw what)
  /\ (forall st,
        reachable
          [mkToken TOKEN_HEADER "BULBA!" 1 0;
           mkToken TOKEN_INDENT "" 2 0;
           mkToken TOKEN_IDENTIFIER "key" 2 0;
           mkToken TOKEN_VINE_WHIP "" 2 0;
           mkToken TOKEN_EOF "" 2 0] 1 st ->
        0 <= currentLevel st ->
        "key" <> "Charizard" ->
        parse (unlines ["BULBA!"; "key ~>"]) = Throw ERR_TYPE).
Proof.
  apply (missing_value_rejected (unlines ["BULBA!"; "key ~>"]) _ 1
           (mkToken TOKEN_INDENT "" 2 0)
           (mkToken TOKEN_IDENTIFIER "key" 2 0)
           (mkToken TOKEN_VINE_WHIP "" 2 0)
           (mkToken TOKEN_EOF "" 2 0)).
  - vm_compute. reflexivity.
  - reflexivity.
  - reflexivity.
  - reflexivity.
  - reflexivity.
  - reflexivity.
  - reflexivity.
  - reflexivity.
  - right. reflexivity.
Defined.

(** ** The reserved name *)

Lemma parse_heap_ok content d : parse content = Ok d -> heap_ok (doc_heap d).
Proof.
  unfold parse. intros (tokens & _ & (st & Hloop & Hd)%bind_Ok)%bind_Ok.
  destruct (heap st !! root); [|done]. simplify_eq. simpl.
  eapply parse_loop_heap_ok; [done|]. by repeat constructor.
Qed.

Lemma parse_doc_root content d :
  parse content = Ok d -> doc_heap d !! root = Some (doc_root d).
Proof.
  unfold parse. intros (tokens & _ & (st & Hloop & Hd)%bind_Ok)%bind_Ok.
  destruct (heap st !! root) eqn:E; [|done]. by simplify_eq.
Qed.

Lemma in_document_heap content d m :
  parse content = Ok d -> in_document d m -> m ∈ doc_heap d.
Proof.
  intros Hparse. induction 1 as [|m key p m' _ _ _ Hp].
  - eapply list_elem_of_lookup_2. by apply (parse_doc_root content).
  - by eapply list_elem_of_lookup_2.
Qed.

(** The lines of a token list of the lexer, by their place. *)
Lemma statement_lookup (hd : Token) (l1 : list (list Token)) stmt l2 tl k :
  (k < length stmt)%nat ->
  (hd :: concat (l1 ++ stmt :: l2) ++ tl)%list !! S (length (concat l1) + k)
  = stmt !! k.
Proof.
  intros Hk. simpl. rewrite concat_app. simpl.
  rewrite <- !app_assoc. rewrite lookup_app_r by lia.
  replace (length (concat l1) + k - length (concat l1))%nat with k by lia.
  by rewrite lookup_app_l.
Qed.

(** An identifier token of the lexer is the key of a key/value line or
    the name of a section header. *)
Lemma lexed_identifier content tokens j t :
  tokenize content = Ok tokens ->
  tokens !! j = Some t -> type t = TOKEN_IDENTIFIER ->
  exists j0 indent,
    tokens !! j0 = Some indent /\ type indent = TOKEN_INDENT
    /\ ((j = S j0)
        \/ (j = S (S j0)
            /\ exists open, tokens !! S j0 = Some open
                            /\ type open = TOKEN_SECTION_OPEN)).
Proof.
  intros [->|(stmts & lineNum & -> & Hstmts)]%tokenize_statements Hj Ht.
  { destruct j as [|[|j]]; by simplify_eq/=. }
  destruct j as [|j]; [by simplify_eq/=|]. simpl in Hj.
  apply lookup_app_Some in Hj as [Hj|[_ Hj]]; cycle 1.
  { destruct (j - length (concat stmts))%nat; by simplify_eq/=. }
  apply lookup_concat in Hj as (l1 & stmt & l2 & k & -> & -> & Hk).
  apply Forall_app in Hstmts as [_ [Hstmt _]%Forall_cons].
  pose proof (fun k' => statement_lookup (mkToken TOKEN_HEADER "BULBA!" 1 0)
                          l1 stmt l2 [mkToken TOKEN_EOF "" lineNum 0] k') as Hlk.
  remember (mkToken TOKEN_HEADER "BULBA!" 1 0 :: concat (l1 ++ stmt :: l2)
            ++ [mkToken TOKEN_EOF "" lineNum 0])%list as tokens eqn:E.
  clear E. exists (S (length (concat l1) + 0)).
  destruct Hstmt as [indent open name close Hi Ho Hn Hc|indent key vine vs Hi Hky Hv Hvs].
  - exists indent. split; [by rewrite Hlk by (simpl; lia)|]. split; [done|]. right.
    destruct k as [|[|[|[|k]]]]; simpl in Hk; simplify_eq; try congruence.
    split; [lia|]. exists open.
    replace (S (S (length (concat l1) + 0))) with (S (length (concat l1) + 1)) by lia.
    by rewrite Hlk by (simpl; lia).
  - exists indent. split; [by rewrite Hlk by (simpl; lia)|]. split; [done|]. left.
    destruct k as [|[|[|k]]]; simpl in Hk; simplify_eq; try congruence.
    + lia.
    + pose proof (Forall_lookup_1 _ _ _ _ Hvs Hk) as H. unfold value_token in H.
      by rewrite Ht in H.
Qed.

Lemma parse_section_reserved tokens i expectedLevel open name st :
  tokens !! S i = Some name -> type name = TOKEN_IDENTIFIER ->
  literal name = "Charizard" ->
  parse_section tokens i expectedLevel open st =
  if negb (expectedLevel =? level open - 1) then Throw ERR_INDENTATION
  else if Z.of_nat (length (stack st)) <? to_size_t (level open)
       then Throw ERR_BADGES
       else Throw ERR_RESERVED.
Proof.
  intros Hn Hname Hlit. unfold parse_section, validateKey.
  by rewrite Hn, Hname, Hlit.
Qed.

Lemma parse_key_value_reserved tokens i expectedLevel key st :
  literal key = "Charizard" ->
  parse_key_value tokens i expectedLevel key st =
  do _ <- dedent expectedLevel st; Throw ERR_RESERVED.
Proof. intros Hlit. unfold parse_key_value, validateKey. by rewrite Hlit. Qed.

(** C7, as stated, fails: an input whose key or section name is the
    reserved one is rejected with another error, when the line is
    indented too deep or when a value of the input is no value. *)
Lemma reserved_name_other_error :
  tokenize (unlines ["BULBA!"; "    Charizard ~> 1"])
  = Ok [mkToken TOKEN_HEADER "BULBA!" 1 0;
        mkToken TOKEN_INDENT "" 2 1;
        mkToken TOKEN_IDENTIFIER "Charizard" 2 0;
        mkToken TOKEN_VINE_WHIP "" 2 0;
        mkToken TOKEN_NUMBER "1" 2 0;
        mkToken TOKEN_EOF "" 2 0]
  /\ parse (unlines ["BULBA!"; "    Charizard ~> 1"]) = Throw ERR_INDENTATION
  /\ parse (unlines ["BULBA!"; "    (o) Charizard (o)"]) = Throw ERR_INDENTATION
  /\ parse (unlines ["BULBA!"; "Charizard ~> 1"; "key ~> Unknown"]) = Throw ERR_TYPE
  /\ ERR_INDENTATION <> ERR_RESERVED
  /\ ERR_TYPE <> ERR_RESERVED.
Proof. repeat split; try (vm_compute; reflexivity); discriminate. Qed.

(** C7, amended.  No map of a document that [parse] returns binds the
    reserved name, and no identifier token of an accepted input is the
    reserved name: an input in which a key or a section name is the
    reserved name is rejected.  The error is the reserved-key error when
    the parser comes to the line and the line passes the checks made
    before the name is read: for a key, that the line is not indented
    deeper than the current level; for a section of stage [S], that the
    line is indented at level [S - 1] and that the stack holds [S]
    frames. *)
Theorem reserved_name_rejected content tokens :
  tokenize content = Ok tokens ->
  (forall d, parse content = Ok d ->
     (forall m, in_document d m -> m !! "Charizard" = None)
     /\ (forall j t, tokens !! j = Some t -> type t = TOKEN_IDENTIFIER ->
           literal t <> "Charizard"))
  /\ (forall j t, tokens !! j = Some t -> type t = TOKEN_IDENTIFIER ->
        literal t = "Charizard" -> exists what, parse content = Throw what)
  /\ (forall i st indent key,
        reachable tokens i st ->
        tokens !! i = Some indent -> type indent = TOKEN_INDENT ->
        tokens !! S i = Some key -> type key = TOKEN_IDENTIFIER ->
        literal key = "Charizard" ->
        level indent <= currentLevel st ->
        parse content = Throw ERR_RESERVED)
  /\ (forall i st indent open name,
        reachable tokens i st ->
        tokens !! i = Some indent -> type indent = TOKEN_INDENT ->
        tokens !! S i = Some open -> type open = TOKEN_SECTION_OPEN ->
        tokens !! S (S i) = Some name -> type name = TOKEN_IDENTIFIER ->
        literal name = "Charizard" ->
        level indent = level open - 1 ->
        level open <= Z.of_nat (length (stack st)) ->
        parse content = Throw ERR_RESERVED).
Proof.
  intros Htokens.
  assert (forall j t, tokens !! j = Some t -> type t = TOKEN_IDENTIFIER ->
            literal t = "Charizard" -> exists what, parse content = Throw what)
    as Hrejected.
  { intros j t Hj Ht Hlit.
    pose proof (parse_total content) as Htotal.
    destruct (parse content) as [d|what| |] eqn:Hparse; try done; [|by eauto].
    exfalso.
    destruct (lexed_identifier _ _ _ _ Htokens Hj Ht)
      as (j0 & indent & Hj0 & Hindent & [->|[-> (open & Ho & Hopen)]]);
      destruct (statement_reached _ _ _ _ _ Htokens Hparse Hj0 Hindent) as [st Hreach];
      assert (exists what, parse_turn tokens j0 st = Throw what) as [what Hwhat].
    - rewrite (parse_turn_key_value _ _ _ _ _ Hj0 Hindent Hj Ht).
      rewrite parse_key_value_reserved by done.
      apply bind_Throw_total; [apply dedent_total|by eauto].
    - pose proof (reachable_throw _ _ _ _ _ Htokens Hreach Hwhat). congruence.
    - rewrite (parse_turn_section _ _ _ _ _ Hj0 Hindent Ho Hopen).
      rewrite (parse_section_reserved _ _ _ _ t) by done.
      repeat case_match; by eauto.
    - pose proof (reachable_throw _ _ _ _ _ Htokens Hreach Hwhat). congruence. }
  split; [|split; [done|split]].
  - intros d Hparse. split.
    + intros m Hm%(in_document_heap content); [|done].
      pose proof (parse_heap_ok _ _ Hparse) as Hok.
      unfold heap_ok in Hok. rewrite Forall_forall in Hok. by apply Hok.
    + intros j t Hj Ht Hlit.
      destruct (Hrejected j t Hj Ht Hlit) as [what Hwhat]. congruence.
  - intros i st indent key Hreach Hi Hindent Hk Hkey Hlit Hlevel.
    eapply reachable_throw; [done..|].
    rewrite (parse_turn_key_value _ _ _ _ _ Hi Hindent Hk Hkey).
    rewrite parse_key_value_reserved by done.
    by destruct (dedent_Ok _ _ Hlevel) as [st1 ->].
  - intros i st indent open name Hreach Hi Hindent Ho Hopen Hn Hname Hlit Hlevel Hstack.
    pose proof (lexed_section_level _ _ _ _ Htokens Ho Hopen) as HS.
    eapply reachable_throw; [done..|].
    rewrite (parse_turn_section _ _ _ _ _ Hi Hindent Ho Hopen).
    rewrite (parse_section_reserved _ _ _ _ name) by done.
    rewrite to_size_t_small by lia. rewrite Hlevel, Z.eqb_refl. simpl.
    by destruct (Z.ltb_spec (Z.of_nat (length (stack st))) (level open)); [lia|].
Qed.

Lemma reserved_name_rejected_witness :
  (forall d, parse charizardKey = Ok d ->
     (forall m, in_document d m -> m !! "Charizard" = None)
     /\ (forall j t, charizardKey_tokens !! j = Some t ->
           type t = TOKEN_IDENTIFIER -> literal t <> "Charizard"))
  /\ (forall j t, charizardKey_tokens !! j = Some t -> type t = TOKEN_IDENTIFIER ->
        literal t = "Charizard" -> exists what, parse charizardKey = Throw what)
  /\ (forall i st indent key,
        reachable charizardKey_tokens i st ->
        charizardKey_tokens !! i = Some indent -> type indent = TOKEN_INDENT ->
        charizardKey_tokens !! S i = Some key -> type key = TOKEN_IDENTIFIER ->
        literal key = "Charizard" ->
        level indent <= currentLevel st ->
        parse charizardKey = Throw ERR_RESERVED)
  /\ (forall i st indent open name,
        reachable charizardKey_tokens i st ->
        charizardKey_tokens !! i = Some indent -> type indent = TOKEN_INDENT ->
        charizardKey_tokens !! S i = Some open -> type open = TOKEN_SECTION_OPEN ->
        charizardKey_tokens !! S (S i) = Some name -> type name = TOKEN_IDENTIFIER ->
        literal name = "Charizard" ->
        level indent = level open - 1 ->
        level open <= Z.of_nat (length (stack st)) ->
        parse charizardKey = Throw ERR_RESERVED).
Proof.
  apply (reserved_name_rejected charizardKey charizardKey_tokens).
  vm_compute. reflexivity.
Defined.

(** The reserved name as a key (the test of main.cpp), as the name of a
    section, and as a key in a section of stage 3. *)
Lemma reserved_name_examples :
  parse charizardKey = Throw ERR_RESERVED
  /\ parse (unlines ["BULBA!"; "(o) a (o)"; "    (O) Charizard (O)"]) = Throw ERR_RESERVED
  /\ parse (unlines ["BULBA!"; "(o) a (o)"; "    (O) b (O)"; "        (@) c (@)";
                     "            Charizard ~> 1"]) = Throw ERR_RESERVED.
Proof. repeat split; vm_compute; reflexivity. Qed.

(** * Further properties *)

(** ** The string helpers of the lexer *)

Lemma app_cons c (a b : string) : String c a ++ b = String c (a ++ b).
Proof. reflexivity. Qed.

Lemma app_empty_l (a : string) : "" ++ a = a.
Proof. reflexivity. Qed.

Lemma length_app_string (a b : string) :
  String.length (a ++ b) = (String.length a + String.length b)%nat.
Proof.
  induction a as [|c a IH]; [done|]. rewrite app_cons. simpl. by rewrite IH.
Qed.

Lemma app_assoc_string (a b c : string) : (a ++ b) ++ c = a ++ (b ++ c).
Proof. induction a as [|x a IH]; [done|]. rewrite !app_cons. by rewrite IH. Qed.

Lemma app_empty_r (a : string) : a ++ "" = a.
Proof. induction a as [|x a IH]; [done|]. rewrite app_cons. by rewrite IH. Qed.

Lemma substring_0_app p r :
  String.substring 0 (String.length p) (p ++ r) = p.
Proof.
  induction p as [|c p IH].
  - rewrite app_empty_l. by destruct r.
  - rewrite app_cons. simpl. by rewrite IH.
Qed.

Lemma substring_skip_app p n s :
  String.substring (String.length p) n (p ++ s) = String.substring 0 n s.
Proof.
  induction p as [|c p IH]; [done|]. rewrite app_cons. simpl. apply IH.
Qed.

Lemma substring_0_all s : String.substring 0 (String.length s) s = s.
Proof. induction s as [|c s IH]; simpl; [done|]. by rewrite IH. Qed.

Lemma substring_split n s :
  (n <= String.length s)%nat ->
  s = String.substring 0 n s ++ String.substring n (String.length s - n) s.
Proof.
  revert n. induction s as [|c s IH]; intros [|n] Hn; simpl in *; try done; try lia.
  - by rewrite substring_0_all.
  - rewrite app_cons. f_equal. apply IH. lia.
Qed.

Lemma length_substring_0 n s :
  (n <= String.length s)%nat -> String.length (String.substring 0 n s) = n.
Proof.
  revert n. induction s as [|c s IH]; intros [|n] Hn; simpl in *; try done; try lia.
  rewrite IH; lia.
Qed.

Lemma startsWith_app p r : startsWith (p ++ r) p = true.
Proof.
  unfold startsWith, substr, str_size.
  rewrite length_app_string. apply andb_true_iff. split; [apply Z.leb_le; lia|].
  rewrite Z.min_l by lia. rewrite Nat2Z.id. simpl.
  rewrite substring_0_app. apply String.eqb_refl.
Qed.

Lemma endsWith_app r p : endsWith (r ++ p) p = true.
Proof.
  unfold endsWith, substr, str_size.
  rewrite length_app_string. apply andb_true_iff. split; [apply Z.leb_le; lia|].
  rewrite Z.min_l by lia. rewrite Nat2Z.id.
  replace (Z.to_nat (Z.of_nat (String.length r + String.length p)
                     - Z.of_nat (String.length p)))
    with (String.length r) by lia.
  rewrite substring_skip_app, substring_0_all. apply String.eqb_refl.
Qed.

Lemma endsWith_suffix str suffix :
  endsWith str suffix = true -> exists r, str = r ++ suffix.
Proof.
  unfold endsWith, substr, str_size.
  intros [Hsize%Z.leb_le Heq%String.eqb_eq]%andb_true_iff.
  rewrite Z.min_l in Heq by lia. rewrite Nat2Z.id in Heq.
  replace (Z.to_nat (Z.of_nat (String.length str) - Z.of_nat (String.length suffix)))
    with (String.length str - String.length suffix)%nat in Heq by lia.
  exists (String.substring 0 (String.length str - String.length suffix) str).
  rewrite (substring_split (String.length str - String.length suffix) str) at 1 by lia.
  f_equal. rewrite <- Heq at 3. f_equal. lia.
Qed.

(** X1. Lexer::startsWith and Lexer::endsWith hold of the strings that have
    the prefix, or the suffix, and of no other. *)
Theorem startsWith_endsWith_spec str affix :
  (startsWith str affix = true <-> exists r, str = affix ++ r)
  /\ (endsWith str affix = true <-> exists r, str = r ++ affix).
Proof.
  split; split.
  - apply startsWith_prefix.
  - intros [r ->]. apply startsWith_app.
  - apply endsWith_suffix.
  - intros [r ->]. apply endsWith_app.
Qed.

Lemma take_drop_while p s : s = take_while p s ++ drop_while p s.
Proof.
  induction s as [|c s IH]; simpl; [done|].
  destruct (p c); [|done]. rewrite app_cons. by f_equal.
Qed.

Lemma forall_take_while p s : forall_chars p (take_while p s) = true.
Proof.
  induction s as [|c s IH]; simpl; [done|].
  destruct (p c) eqn:E; [|done]. simpl. by rewrite E.
Qed.

Lemma forall_chars_app p a b :
  forall_chars p (a ++ b) = forall_chars p a && forall_chars p b.
Proof.
  induction a as [|c a IH]; [done|]. rewrite app_cons. simpl.
  by rewrite IH, andb_assoc.
Qed.

Lemma drop_while_starts_off p s : starts_off p (drop_while p s).
Proof.
  induction s as [|c s IH]; simpl; [done|]. by destruct (p c) eqn:E.
Qed.

Lemma drop_while_id p s : starts_off p s -> drop_while p s = s.
Proof. destruct s as [|c s]; simpl; [done|]. by intros ->. Qed.

Lemma take_while_app p a b :
  forall_chars p a = true -> starts_off p b -> take_while p (a ++ b) = a.
Proof.
  intros Ha Hb. induction a as [|c a IH].
  - rewrite app_empty_l. destruct b as [|c b]; simpl in *; [done|]. by rewrite Hb.
  - rewrite app_cons. simpl in *. apply andb_true_iff in Ha as [-> Ha].
    by rewrite IH.
Qed.

Lemma drop_while_app p a b :
  forall_chars p a = true -> starts_off p b -> drop_while p (a ++ b) = b.
Proof.
  intros Ha Hb. induction a as [|c a IH].
  - rewrite app_empty_l. by apply drop_while_id.
  - rewrite app_cons. simpl in *. apply andb_true_iff in Ha as [-> Ha].
    by apply IH.
Qed.

Lemma drop_while_end_split p s :
  exists b, s = drop_while_end p s ++ b /\ forall_chars p b = true.
Proof.
  induction s as [|c s (b & IH & Hb)]; simpl.
  - by exists "".
  - destruct (drop_while_end p s) as [|c' r] eqn:E.
    + destruct (p c) eqn:Hc.
      * exists (String c s). split; [done|]. simpl. rewrite Hc.
        simpl in IH. by rewrite IH.
      * exists b. split; [|done]. rewrite app_cons. by f_equal.
    + exists b. split; [|done]. rewrite app_cons. by f_equal.
Qed.

Lemma drop_while_end_head p c s :
  p c = false -> exists r, drop_while_end p (String c s) = String c r.
Proof. intros Hc. simpl. destruct (drop_while_end p s); rewrite ?Hc; by eauto. Qed.

Lemma drop_while_end_starts_off p s :
  starts_off p s -> starts_off p (drop_while_end p s).
Proof.
  destruct s as [|c s]; [done|]. intros Hc.
  by destruct (drop_while_end_head p c s Hc) as [r ->].
Qed.

Lemma drop_while_end_idem p s :
  drop_while_end p (drop_while_end p s) = drop_while_end p s.
Proof.
  induction s as [|c s IH]; simpl; [done|].
  destruct (drop_while_end p s) as [|c' r] eqn:E.
  - destruct (p c) eqn:Hc; simpl; [done|]. by rewrite Hc.
  - simpl. simpl in IH. rewrite IH. done.
Qed.

(** X2. Lexer::trim removes a run of spaces and tabs at the start and one at
    the end, and nothing else: what is left neither starts nor ends with
    a space or a tab, so that trimming again changes nothing. *)
Theorem trim_spec str :
  (exists a b,
     str = a ++ trim str ++ b
     /\ forall_chars is_blank a = true /\ forall_chars is_blank b = true)
  /\ drop_while is_blank (trim str) = trim str
  /\ drop_while_end is_blank (trim str) = trim str
  /\ trim (trim str) = trim str.
Proof.
  assert (drop_while is_blank (trim str) = trim str) as Hstart.
  { apply drop_while_id. unfold trim.
    apply drop_while_end_starts_off, drop_while_starts_off. }
  assert (drop_while_end is_blank (trim str) = trim str) as Hend.
  { unfold trim. apply drop_while_end_idem. }
  split; [|split; [done|split; [done|]]].
  - destruct (drop_while_end_split is_blank (drop_while is_blank str)) as (b & Hb & Hblank).
    exists (take_while is_blank str), b.
    split; [|split; [apply forall_take_while|done]].
    unfold trim. rewrite <- Hb. apply take_drop_while.
  - unfold trim at 1. by rewrite Hstart, Hend.
Qed.

Lemma startsWith_head c r d p :
  startsWith (String c r) (String d p) = true -> c = d.
Proof. intros [r' E]%startsWith_prefix. rewrite app_cons in E. by injection E. Qed.

(** ** The pattern of a key/value line *)

Lemma key_char_classes c :
  (is_key_char c = true -> isspace c = false /\ is_tilde c = false)
  /\ (isspace c = true -> is_tilde c = false /\ Ascii.eqb c (chr 62) = false)
  /\ (is_tilde c = true -> Ascii.eqb c (chr 62) = false).
Proof. destruct c as [[] [] [] [] [] [] [] []]; vm_compute; by intuition. Qed.

Lemma starts_off_app (p q : ascii -> bool) a b :
  forall_chars q a = true ->
  (forall c, q c = true -> p c = false) ->
  starts_off p b -> starts_off p (a ++ b).
Proof.
  intros Ha Hq Hb. destruct a as [|c a]; [done|]. rewrite app_cons. simpl in *.
  apply andb_true_iff in Ha as [Hc _]. by apply Hq.
Qed.

Lemma starts_off_nonempty (p q : ascii -> bool) a b :
  a <> "" -> forall_chars q a = true ->
  (forall c, q c = true -> p c = false) ->
  starts_off p (a ++ b).
Proof.
  intros Hne Ha Hq. destruct a as [|c a]; [done|]. rewrite app_cons. simpl in *.
  apply andb_true_iff in Ha as [Hc _]. by apply Hq.
Qed.

Lemma drop_while_app_all p a b :
  forall_chars p a = true -> drop_while p (a ++ b) = drop_while p b.
Proof.
  intros Ha. induction a as [|c a IH]; [done|]. rewrite app_cons. simpl in *.
  apply andb_true_iff in Ha as [-> Ha]. by apply IH.
Qed.

Lemma eqb_empty_false (s : string) : s <> "" -> String.eqb s "" = false.
Proof. intros Hs. by apply String.eqb_neq. Qed.

Lemma regex_match_kv_sound line key valStr :
  regex_match_kv line = Some (key, valStr) ->
  exists w1 t w2,
    line = key ++ w1 ++ t ++ ">" ++ w2 ++ valStr
    /\ key <> "" /\ forall_chars is_key_char key = true
    /\ forall_chars isspace w1 = true
    /\ t <> "" /\ forall_chars is_tilde t = true
    /\ forall_chars isspace w2 = true
    /\ starts_off isspace valStr
    /\ forall_chars is_dot_char valStr = true.
Proof.
  unfold regex_match_kv.
  destruct (String.eqb_spec (take_while is_key_char line) "") as [|Hkey]; [done|].
  set (r0 := drop_while is_key_char line).
  set (r := drop_while isspace r0).
  destruct (String.eqb_spec (take_while is_tilde r) "") as [|Ht]; [done|].
  destruct (drop_while is_tilde r) as [|c r'] eqn:Hr'; [done|].
  destruct (Ascii.eqb_spec c (chr 62)) as [->|]; [|done].
  destruct (forall_chars is_dot_char (drop_while isspace r')) eqn:Hdot; [|done].
  intros [= <- <-].
  exists (take_while isspace r0), (take_while is_tilde r), (take_while isspace r').
  split; [|repeat split; auto using forall_take_while, drop_while_starts_off].
  rewrite <- (take_drop_while isspace r').
  change (">" ++ r') with (String (chr 62) r'). rewrite <- Hr'.
  rewrite <- (take_drop_while is_tilde r). unfold r.
  rewrite <- (take_drop_while isspace r0). unfold r0.
  apply take_drop_while.
Qed.

Lemma regex_match_kv_complete key w1 t w2 valStr :
  key <> "" -> forall_chars is_key_char key = true ->
  forall_chars isspace w1 = true ->
  t <> "" -> forall_chars is_tilde t = true ->
  forall_chars isspace w2 = true ->
  starts_off isspace valStr ->
  forall_chars is_dot_char valStr = true ->
  regex_match_kv (key ++ w1 ++ t ++ ">" ++ w2 ++ valStr) = Some (key, valStr).
Proof.
  intros Hkey Hkeys Hw1 Ht Hts Hw2 Hval Hdot.
  pose proof (fun c => proj1 (key_char_classes c)) as Hk.
  pose proof (fun c => proj1 (proj2 (key_char_classes c))) as Hs.
  pose proof (fun c => proj2 (proj2 (key_char_classes c))) as Htl.
  assert (starts_off is_tilde (">" ++ w2 ++ valStr)) as H3 by done.
  assert (starts_off isspace (t ++ ">" ++ w2 ++ valStr)) as H2.
  { apply (starts_off_nonempty _ is_tilde); [done..|].
    intros c Hc. destruct (isspace c) eqn:E; [|done].
    apply Hs in E as [E _]. congruence. }
  assert (starts_off is_key_char (w1 ++ t ++ ">" ++ w2 ++ valStr)) as H1.
  { apply (starts_off_app _ isspace); [done| |].
    - intros c Hc. destruct (is_key_char c) eqn:E; [|done].
      apply Hk in E as [E _]. congruence.
    - apply (starts_off_nonempty _ is_tilde); [done..|].
      intros c Hc. destruct (is_key_char c) eqn:E; [|done].
      apply Hk in E as [_ E]. congruence. }
  unfold regex_match_kv.
  rewrite take_while_app, drop_while_app by done.
  rewrite eqb_empty_false by done.
  rewrite drop_while_app by done.
  rewrite take_while_app, drop_while_app by done.
  rewrite eqb_empty_false by done.
  change (">" ++ w2 ++ valStr) with (String (chr 62) (w2 ++ valStr)).
  cbv iota beta. replace (Ascii.eqb (chr 62) (chr 62)) with true by done.
  rewrite drop_while_app by done. by rewrite Hdot.
Qed.

(** X3. [regex_match_kv] accepts the lines of the pattern of
    Lexer::tokenizeLine and no other, and its groups are the groups of the
    greedy match: a key of letters, digits and underscores, white space,
    tildes, [>], white space, and a value that starts with no white space
    and holds no line terminator. *)
Theorem regex_match_kv_spec line key valStr :
  regex_match_kv line = Some (key, valStr) <->
  exists w1 t w2,
    line = key ++ w1 ++ t ++ ">" ++ w2 ++ valStr
    /\ key <> "" /\ forall_chars is_key_char key = true
    /\ forall_chars isspace w1 = true
    /\ t <> "" /\ forall_chars is_tilde t = true
    /\ forall_chars isspace w2 = true
    /\ starts_off isspace valStr
    /\ forall_chars is_dot_char valStr = true.
Proof.
  split; [apply regex_match_kv_sound|].
  intros (w1 & t & w2 & -> & H). destruct_and!.
  by apply regex_match_kv_complete.
Qed.

(** ** Section headers and string values *)

Lemma drop_while_all p s : forall_chars p s = true -> drop_while p s = "".
Proof.
  induction s as [|c s IH]; simpl; [done|].
  intros [-> Hs]%andb_true_iff. by apply IH.
Qed.

Lemma drop_while_end_app_all p x b :
  forall_chars p b = true -> drop_while_end p (x ++ b) = drop_while_end p x.
Proof.
  intros Hb. induction x as [|c x IH].
  - rewrite app_empty_l. simpl. induction b as [|c b IHb]; simpl in *; [done|].
    apply andb_true_iff in Hb as [Hc Hb]. by rewrite IHb, Hc.
  - rewrite app_cons. simpl. by rewrite IH.
Qed.

Lemma starts_off_app_l p x b : x <> "" -> starts_off p x -> starts_off p (x ++ b).
Proof. destruct x as [|c x]; [done|]. by rewrite app_cons. Qed.

(** What [trim] makes of a string between two runs of spaces and tabs. *)
Lemma trim_app a x b :
  forall_chars is_blank a = true -> forall_chars is_blank b = true ->
  starts_off is_blank x -> drop_while_end is_blank x = x ->
  trim (a ++ x ++ b) = x.
Proof.
  intros Ha Hb Hx Hx'. unfold trim. rewrite drop_while_app_all by done.
  destruct (decide (x = "")) as [->|Hne].
  - rewrite app_empty_l. by rewrite drop_while_all.
  - rewrite drop_while_id by by apply starts_off_app_l.
    by rewrite drop_while_end_app_all.
Qed.

Lemma drop_while_end_snoc p x c :
  p c = false -> drop_while_end p (x ++ String c "") = x ++ String c "".
Proof.
  intros Hc. induction x as [|d x IH].
  - rewrite app_empty_l. simpl. by rewrite Hc.
  - rewrite app_cons. simpl. rewrite IH.
    destruct x; [rewrite app_empty_l|rewrite app_cons]; done.
Qed.

Lemma str_size_app (a b : string) : str_size (a ++ b) = str_size a + str_size b.
Proof. unfold str_size. rewrite length_app_string. lia. Qed.

Lemma substr_middle a x b :
  substr (a ++ x ++ b) (str_size a) (str_size x) = x.
Proof.
  unfold substr. rewrite !str_size_app. unfold str_size.
  rewrite Z.min_l by lia. rewrite !Nat2Z.id.
  rewrite substring_skip_app. apply substring_0_app.
Qed.

(** X4. A section header is read whatever its name is: the name is the text
    between the two markers, as it stands, and the stage is the one of
    the markers.  (The length of the line is a [size_t].) *)
Theorem section_header_tokens name lineNum tokens :
  str_size name < 2 ^ 64 ->
  tokenizeLine ("(o) " ++ name ++ " (o)") lineNum tokens
  = Ok (tokens ++ [mkToken TOKEN_SECTION_OPEN "" lineNum 1;
                   mkToken TOKEN_IDENTIFIER name lineNum 0;
                   mkToken TOKEN_SECTION_CLOSE "" lineNum 1])%list
  /\ tokenizeLine ("(O) " ++ name ++ " (O)") lineNum tokens
     = Ok (tokens ++ [mkToken TOKEN_SECTION_OPEN "" lineNum 2;
                      mkToken TOKEN_IDENTIFIER name lineNum 0;
                      mkToken TOKEN_SECTION_CLOSE "" lineNum 2])%list
  /\ tokenizeLine ("(@) " ++ name ++ " (@)") lineNum tokens
     = Ok (tokens ++ [mkToken TOKEN_SECTION_OPEN "" lineNum 3;
                      mkToken TOKEN_IDENTIFIER name lineNum 0;
                      mkToken TOKEN_SECTION_CLOSE "" lineNum 3])%list.
Proof.
  intros Hsize.
  assert (forall open close : string,
            str_size open = 4 -> str_size close = 4 ->
            startsWith (open ++ name ++ close) open = true
            /\ endsWith (open ++ name ++ close) close = true
            /\ substr (open ++ name ++ close) 4
                 (to_size_t (str_size (open ++ name ++ close) - 8)) = name)
    as Hshape.
  { intros open close Ho Hc. split; [|split].
    - apply startsWith_app.
    - rewrite <- app_assoc_string. apply endsWith_app.
    - rewrite !str_size_app, Ho, Hc.
      replace (4 + (str_size name + 4) - 8) with (str_size name) by lia.
      rewrite to_size_t_small by (unfold str_size in *; lia).
      rewrite <- Ho. apply substr_middle. }
  assert (forall open other r : string,
            String.length open = 4%nat -> String.length other = 4%nat ->
            open <> other -> startsWith (open ++ r) other = false) as Hother.
  { intros open other r Ho Hot Hne.
    destruct (startsWith (open ++ r) other) eqn:E; [|done].
    apply startsWith_prefix in E as [r' E]. exfalso. apply Hne.
    apply (f_equal (String.substring 0 4)) in E.
    rewrite <- Ho in E at 1. rewrite substring_0_app in E.
    rewrite <- Hot in E. by rewrite substring_0_app in E. }
  unfold tokenizeLine, push_back.
  destruct (Hshape "(o) " " (o)" eq_refl eq_refl) as (-> & -> & ->).
  destruct (Hshape "(O) " " (O)" eq_refl eq_refl) as (-> & -> & ->).
  destruct (Hshape "(@) " " (@)" eq_refl eq_refl) as (-> & -> & ->).
  rewrite (Hother "(O) " "(o) ") by done.
  rewrite (Hother "(@) " "(o) ") by done.
  rewrite (Hother "(@) " "(O) ") by done.
  simpl. by rewrite <- !app_assoc.
Qed.

Lemma section_header_tokens_witness :
  tokenizeLine ("(o) " ++ "data base" ++ " (o)") 2 []
  = Ok ([] ++ [mkToken TOKEN_SECTION_OPEN "" 2 1;
               mkToken TOKEN_IDENTIFIER "data base" 2 0;
               mkToken TOKEN_SECTION_CLOSE "" 2 1])%list
  /\ tokenizeLine ("(O) " ++ "data base" ++ " (O)") 2 []
     = Ok ([] ++ [mkToken TOKEN_SECTION_OPEN "" 2 2;
                  mkToken TOKEN_IDENTIFIER "data base" 2 0;
                  mkToken TOKEN_SECTION_CLOSE "" 2 2])%list
  /\ tokenizeLine ("(@) " ++ "data base" ++ " (@)") 2 []
     = Ok ([] ++ [mkToken TOKEN_SECTION_OPEN "" 2 3;
                  mkToken TOKEN_IDENTIFIER "data base" 2 0;
                  mkToken TOKEN_SECTION_CLOSE "" 2 3])%list.
Proof. apply (section_header_tokens "data base" 2 []). vm_compute. reflexivity. Defined.

Lemma tokenizeValue_quoted fuel a s b lineNum tokens :
  str_size s < 2 ^ 64 ->
  forall_chars is_blank a = true -> forall_chars is_blank b = true ->
  tokenizeValue (S fuel) (a ++ quoted s ++ b) lineNum tokens
  = Ok (push_back tokens (mkToken TOKEN_STRING s lineNum 0)).
Proof.
  intros Hsize Ha Hb. simpl.
  assert (quoted s = quote ++ s ++ quote) as Hq by done.
  rewrite trim_app; [|done..| |].
  - rewrite eqb_empty_false by done.
    assert (startsWith (quoted s) quote = true) as ->.
    { apply startsWith_app. }
    assert (endsWith (quoted s) quote = true) as ->.
    { unfold quoted. rewrite <- app_assoc_string. apply endsWith_app. }
    simpl. do 3 f_equal. rewrite Hq, !str_size_app.
    change (str_size quote) with 1.
    replace (1 + (str_size s + 1) - 2) with (str_size s) by lia.
    rewrite to_size_t_small by (unfold str_size in *; lia).
    apply (substr_middle quote s quote).
  - done.
  - unfold quoted. rewrite <- app_assoc_string. by apply drop_while_end_snoc.
Qed.

(** X5. A string value is read as it stands between its quotes, with no
    escape, whatever it holds, and whatever spaces and tabs surround the
    quotes. *)
Theorem string_value_tokens fuel a s b lineNum :
  str_size s < 2 ^ 64 ->
  forall_chars is_blank a = true -> forall_chars is_blank b = true ->
  value_tokens (S fuel) (a ++ quoted s ++ b) lineNum
  = Ok [mkToken TOKEN_STRING s lineNum 0].
Proof. intros. unfold value_tokens. by rewrite tokenizeValue_quoted. Qed.

Lemma string_value_tokens_witness :
  value_tokens 1 (" " ++ quoted "a\b, zZz" ++ tab) 7
  = Ok [mkToken TOKEN_STRING "a\b, zZz" 7 0].
Proof.
  apply (string_value_tokens 0 " " "a\b, zZz" tab 7).
  - vm_compute. reflexivity.
  - reflexivity.
  - reflexivity.
Defined.

(** ** A section header shorter than its two markers *)

(** X6. The length of the name of a section is computed without a sign: on a
    line shorter than 8 characters that starts and ends with the markers
    (they share a space), the name is all that follows the opening
    marker. *)
Theorem short_section_header line lineNum tokens :
  startsWith line "(o) " = true -> endsWith line " (o)" = true ->
  str_size line < 8 ->
  tokenizeLine line lineNum tokens
  = Ok (tokens ++ [mkToken TOKEN_SECTION_OPEN "" lineNum 1;
                   mkToken TOKEN_IDENTIFIER (substr_from line 4) lineNum 0;
                   mkToken TOKEN_SECTION_CLOSE "" lineNum 1])%list.
Proof.
  intros Hstart Hend Hsize. unfold tokenizeLine. rewrite Hstart, Hend. simpl.
  unfold push_back. rewrite <- !app_assoc. simpl. do 5 f_equal.
  apply startsWith_size in Hstart. change (str_size "(o) ") with 4 in Hstart.
  unfold substr_from, substr, to_size_t. do 2 f_equal.
  replace ((str_size line - 8) mod 2 ^ 64) with (str_size line - 8 + 2 ^ 64).
  - lia.
  - apply Z.mod_unique with (-1); lia.
Qed.

Lemma short_section_header_witness :
  tokenizeLine "(o) (o)" 2 []
  = Ok ([] ++ [mkToken TOKEN_SECTION_OPEN "" 2 1;
               mkToken TOKEN_IDENTIFIER (substr_from "(o) (o)" 4) 2 0;
               mkToken TOKEN_SECTION_CLOSE "" 2 1])%list.
Proof.
  apply (short_section_header "(o) (o)" 2 []).
  - reflexivity.
  - reflexivity.
  - reflexivity.
Defined.

(** ** Comments and line ends *)

Lemma prefix_app p s : String.prefix p s = true <-> exists r, s = p ++ r.
Proof.
  revert s. induction p as [|c p IH]; intros s.
  - split; [|by destruct s]. intros _. exists s. by rewrite app_empty_l.
  - destruct s as [|d s]; simpl.
    + split; [done|]. intros [r Hr]. by rewrite app_cons in Hr.
    + destruct (Ascii.ascii_dec c d) as [->|Hne].
      * rewrite IH. split; intros [r Hr]; exists r.
        -- by rewrite app_cons, Hr.
        -- rewrite app_cons in Hr. by injection Hr.
      * split; [done|]. intros [r Hr]. rewrite app_cons in Hr. congruence.
Qed.

Lemma find_cons pat c s :
  find pat (String c s)
  = if String.prefix pat (String c s) then Some 0
    else match find pat s with Some k => Some (k + 1) | None => None end.
Proof. done. Qed.

(** [find] gives the place of the first occurrence. *)
Lemma find_Some pat s k :
  find pat s = Some k ->
  exists a b, s = a ++ pat ++ b /\ str_size a = k
    /\ forall a' b', s = a' ++ pat ++ b' -> str_size a <= str_size a'.
Proof.
  revert k. induction s as [|c s IH]; intros k.
  - simpl. destruct pat; [|done]. intros [= <-]. exists "", "".
    repeat split. intros a' b' _. unfold str_size. simpl. lia.
  - rewrite find_cons. destruct (String.prefix pat (String c s)) eqn:Hp.
    + intros [= <-]. apply prefix_app in Hp as [r Hr]. exists "", r.
      rewrite app_empty_l. repeat split; [done|]. intros a' b' _.
      unfold str_size. simpl. lia.
    + destruct (find pat s) as [k'|]; [|done]. intros [= <-].
      destruct (IH k' eq_refl) as (a & b & -> & <- & Hmin).
      exists (String c a), b. rewrite app_cons. repeat split.
      { unfold str_size. simpl. lia. }
      intros [|d a'] b' Heq.
      * rewrite app_empty_l in Heq. exfalso.
        assert (String.prefix pat (String c (a ++ pat ++ b)) = true) as Hp'.
        { apply prefix_app. by exists b'. }
        congruence.
      * rewrite app_cons in Heq. injection Heq as _ Heq.
        apply Hmin in Heq. unfold str_size in *. simpl. lia.
Qed.

Lemma find_None pat s a b : find pat s = None -> s <> a ++ pat ++ b.
Proof.
  revert a. induction s as [|c s IH]; intros a.
  - simpl. destruct pat as [|p pat]; [done|]. intros _ Heq.
    destruct a as [|d a]; [|by rewrite app_cons in Heq].
    by rewrite app_empty_l, app_cons in Heq.
  - rewrite find_cons.
    destruct (String.prefix pat (String c s)) eqn:Hp; [done|].
    destruct (find pat s) as [k'|]; [done|]. intros _ Heq.
    destruct a as [|d a].
    + rewrite app_empty_l in Heq.
      assert (String.prefix pat (String c s) = true)
        by (apply prefix_app; by exists b).
      congruence.
    + rewrite app_cons in Heq. injection Heq as _ Heq. by eapply IH.
Qed.

Lemma find_is_None pat s :
  (forall a b, s <> a ++ pat ++ b) -> find pat s = None.
Proof.
  intros Hs. destruct (find pat s) as [k|] eqn:E; [|done].
  apply find_Some in E as (a & b & -> & _). by destruct (Hs a b).
Qed.

Lemma substr_0_app a b : substr (a ++ b) 0 (str_size a) = a.
Proof.
  unfold substr. rewrite str_size_app, Z.sub_0_r, Z.min_l by (unfold str_size; lia).
  unfold str_size. rewrite Nat2Z.id. apply substring_0_app.
Qed.

(** X7. The comment of a line is what starts at the first ["zZz"], wherever it
    stands (inside a quoted string too): what is kept holds no marker, and
    is the whole line or what comes before the first marker. *)
Theorem strip_comment_spec line :
  find "zZz" (strip_comment line) = None
  /\ (strip_comment line = line
      \/ exists rest,
           line = strip_comment line ++ "zZz" ++ rest
           /\ find "zZz" (strip_comment line ++ "zZ") = None).
Proof.
  unfold strip_comment. destruct (find "zZz" line) as [k|] eqn:E.
  - apply find_Some in E as (a & b & -> & <- & Hmin).
    rewrite substr_0_app.
    assert (find "zZz" (a ++ "zZ") = None) as Hnone.
    { apply find_is_None. intros a' b' Heq.
      assert (str_size a <= str_size a') as Hle.
      { apply (Hmin a' (b' ++ "z" ++ b)).
        transitivity ((a ++ "zZ") ++ "z" ++ b).
        - by rewrite app_assoc_string.
        - rewrite Heq. by rewrite !app_assoc_string. }
      apply (f_equal str_size) in Heq. rewrite !str_size_app in Heq.
      unfold str_size in *. simpl in *. lia. }
    split; [|right; by exists b].
    apply find_is_None. intros a' b' Heq.
    eapply (find_None _ _ a' (b' ++ "zZ")); [exact Hnone|].
    rewrite Heq. by rewrite !app_assoc_string.
  - by split; [|left].
Qed.

Lemma strip_cr_snoc line : strip_cr (line ++ cr) = line.
Proof.
  induction line as [|c line IH]; [done|].
  rewrite app_cons. simpl. rewrite IH.
  destruct line; [rewrite app_empty_l|rewrite app_cons]; done.
Qed.

(** X8. Windows line ends: a carriage return added at the end of every line
    changes nothing, for lines that do not end with one already (one
    carriage return is removed from a line, not more). *)
Theorem carriage_returns_ignored lines lineNum firstLine tokens :
  Forall (fun line => strip_cr line = line) lines ->
  tokenize_lines (map (fun line => line ++ cr) lines) lineNum firstLine tokens
  = tokenize_lines lines lineNum firstLine tokens.
Proof.
  intros Hlines. revert lineNum firstLine tokens.
  induction Hlines as [|line lines Hline _ IH]; intros lineNum firstLine tokens;
    [done|].
  simpl. rewrite strip_cr_snoc, Hline.
  destruct firstLine.
  - destruct (negb _); [done|]. apply IH.
  - destruct (String.eqb _ ""); [apply IH|].
    destruct (scan_indent _ 0) as [indentCount hasTab].
    destruct hasTab; [done|]. destruct (negb _); [done|].
    destruct (tokenizeLine _ _ _); simpl; [apply IH|done..].
Qed.

Lemma carriage_returns_ignored_witness :
  tokenize_lines (map (fun line => line ++ cr) ["BULBA!"; "hp ~> 45"]) 0 true []
  = tokenize_lines ["BULBA!"; "hp ~> 45"] 0 true [].
Proof.
  apply (carriage_returns_ignored ["BULBA!"; "hp ~> 45"] 0 true []).
  repeat constructor.
Defined.

(** ** Lines that are skipped *)

Lemma strip_comment_prefix line : exists rest, line = strip_comment line ++ rest.
Proof.
  unfold strip_comment. destruct (find "zZz" line) as [k|] eqn:E.
  - apply find_Some in E as (a & b & -> & <- & _). rewrite substr_0_app. eauto.
  - exists "". by rewrite app_empty_r.
Qed.

Lemma forall_chars_strip_cr p line :
  forall_chars p line = true -> forall_chars p (strip_cr line) = true.
Proof.
  induction line as [|c line IH]; [done|]. simpl.
  intros [Hc Hline]%andb_true_iff.
  destruct line as [|d line].
  - destruct (Ascii.eqb c CR); simpl; by rewrite ?Hc.
  - simpl in *. rewrite Hc. by apply IH.
Qed.

Lemma strip_cr_app a b : b <> "" -> strip_cr (a ++ b) = a ++ strip_cr b.
Proof.
  intros Hb. induction a as [|c a IH]; [done|].
  rewrite !app_cons. simpl. rewrite IH.
  destruct (a ++ b) eqn:E; [|done].
  destruct a; [|by rewrite app_cons in E]. by rewrite app_empty_l in E.
Qed.

Lemma find_after_spaces w rest :
  forall_chars isspace w = true ->
  find "zZz" (w ++ "zZz" ++ rest) = Some (str_size w).
Proof.
  induction w as [|c w IH].
  { intros _. rewrite app_empty_l.
    change ("zZz" ++ rest) with (String "z" ("Zz" ++ rest)). rewrite find_cons.
    assert (String.prefix "zZz" (String "z" ("Zz" ++ rest)) = true) as ->
      by (apply prefix_app; by exists rest).
    done. }
  simpl forall_chars.
  intros [Hc Hw]%andb_true_iff. rewrite app_cons, find_cons, IH by done.
  assert (String.prefix "zZz" (String c (w ++ "zZz" ++ rest)) = false) as ->.
  { destruct (String.prefix _ _) eqn:E; [|done].
    apply prefix_app in E as [r E].
    change ("zZz" ++ r) with (String "z" ("Zz" ++ r)) in E.
    injection E as -> _. by vm_compute in Hc. }
  f_equal. unfold str_size. simpl String.length. lia.
Qed.

Lemma skip_line line lines lineNum tokens :
  forall_chars isspace (strip_comment (strip_cr line)) = true ->
  tokenize_lines (line :: lines) lineNum false tokens
  = tokenize_lines lines (lineNum + 1) false tokens.
Proof.
  intros Hline. simpl.
  pose proof (drop_while_end_app_all isspace "" _ Hline) as H.
  rewrite app_empty_l in H. by rewrite H.
Qed.

(** X9. A line of white space, and a line whose comment comes after white
    space only, push no token and raise no error, whatever the white space
    is (tabs, or spaces in a number that is no multiple of 4); the line is
    counted. *)
Theorem blank_line_skipped w comment lines lineNum tokens :
  forall_chars isspace w = true ->
  tokenize_lines (w :: lines) lineNum false tokens
  = tokenize_lines lines (lineNum + 1) false tokens
  /\ tokenize_lines ((w ++ "zZz" ++ comment) :: lines) lineNum false tokens
     = tokenize_lines lines (lineNum + 1) false tokens.
Proof.
  intros Hw. split; apply skip_line.
  - apply (forall_chars_strip_cr isspace) in Hw.
    destruct (strip_comment_prefix (strip_cr w)) as [rest Hrest].
    rewrite Hrest, forall_chars_app in Hw. by apply andb_true_iff in Hw as [? _].
  - assert (exists comment', strip_cr (w ++ "zZz" ++ comment) = w ++ "zZz" ++ comment')
      as [comment' ->].
    { rewrite strip_cr_app by done. change ("zZz" ++ comment) with
        ("zZ" ++ String "z" comment).
      rewrite strip_cr_app by done. destruct comment as [|c comment].
      - by exists "".
      - exists (strip_cr (String c comment)).
        change (String "z" (String c comment)) with ("z" ++ String c comment).
        by rewrite strip_cr_app. }
    unfold strip_comment. rewrite find_after_spaces by done.
    by rewrite substr_0_app.
Qed.

Lemma blank_line_skipped_witness :
  tokenize_lines ((" " ++ tab) :: []) 1 false []
  = tokenize_lines [] (1 + 1) false []
  /\ tokenize_lines (((" " ++ tab) ++ "zZz" ++ " note") :: []) 1 false []
     = tokenize_lines [] (1 + 1) false [].
Proof. apply (blank_line_skipped (" " ++ tab) " note" [] 1 []). reflexivity. Defined.

(** ** The indentation of a line *)

(** X10. The scan of the indentation counts the spaces at the start of the
    line, and stops on a tab only when the tab is the first character
    after them. *)
Theorem scan_indent_spec n rest k :
  starts_off (fun c => Ascii.eqb c SPACE) rest ->
  scan_indent (spaces n ++ rest) k
  = (k + Z.of_nat n, startsWith rest tab).
Proof.
  intros Hrest. revert k. induction n as [|n IH]; intros k.
  - rewrite app_empty_l, Z.add_0_r. destruct rest as [|c rest]; [done|].
    simpl in *. rewrite Hrest.
    destruct (Ascii.eqb_spec c TAB) as [->|Hc]; f_equal; symmetry.
    + apply (startsWith_app tab rest).
    + destruct (startsWith _ _) eqn:E; [|done].
      by apply startsWith_head in E.
  - simpl spaces. rewrite app_cons. simpl. rewrite IH. f_equal. lia.
Qed.

Lemma scan_indent_spec_witness :
  scan_indent (spaces 4 ++ (tab ++ "key ~> 1")) 0
  = (0 + Z.of_nat 4, startsWith (tab ++ "key ~> 1") tab).
Proof. apply (scan_indent_spec 4 (tab ++ "key ~> 1") 0). reflexivity. Defined.

(** ** The end of the input *)




(** ** Integers *)

Lemma digit_classes c :
  isdigit c = true ->
  isspace c = false /\ is_blank c = false
  /\ Ascii.eqb c (chr 45) = false /\ Ascii.eqb c (chr 43) = false
  /\ 0 <= digit_value c <= 9
  /\ tolower c = c
  /\ c <> "i"%char /\ c <> "n"%char /\ c <> "x"%char
  /\ c <> QUOTE /\ c <> "S"%char /\ c <> "N"%char /\ c <> "M"%char
  /\ c <> "<"%char.
Proof. destruct c as [[] [] [] [] [] [] [] []]; vm_compute; by intuition. Qed.

Lemma take_while_all p s : forall_chars p s = true -> take_while p s = s.
Proof.
  induction s as [|c s IH]; [done|]. simpl.
  intros [-> Hs]%andb_true_iff. by rewrite IH.
Qed.

Lemma number_value_bounds acc s :
  forall_chars isdigit s = true -> 0 <= acc -> acc <= number_value 10 acc s.
Proof.
  revert acc. induction s as [|c s IH]; intros acc; simpl; [lia|].
  intros [Hc Hs]%andb_true_iff Hacc.
  destruct (digit_classes c Hc) as (_ & _ & _ & _ & Hd & _).
  specialize (IH (10 * acc + digit_value c) Hs). lia.
Qed.

Lemma lower_digits s : forall_chars isdigit s = true -> lower s = s.
Proof.
  induction s as [|c s IH]; [done|]. simpl.
  intros [Hc Hs]%andb_true_iff.
  destruct (digit_classes c Hc) as (_ & _ & _ & _ & _ & -> & _). by rewrite IH.
Qed.

Lemma eqb_head c r d p : c <> d -> String.eqb (String c r) (String d p) = false.
Proof. intros Hne. apply String.eqb_neq. congruence. Qed.

Lemma prefix_head c r d p : c <> d -> String.prefix (String d p) (String c r) = false.
Proof.
  intros Hne. destruct (String.prefix _ _) eqn:E; [|done].
  apply prefix_app in E as [r' E]. rewrite app_cons in E. congruence.
Qed.

Lemma startsWith_head_ne c r d p : c <> d -> startsWith (String c r) (String d p) = false.
Proof.
  intros Hne. destruct (startsWith _ _) eqn:E; [|done].
  by apply startsWith_head in E.
Qed.

(** What the conversions make of a number written with digits only. *)
Lemma stoi_digits s :
  s <> "" -> forall_chars isdigit s = true ->
  stoi s = if number_value 10 0 s <=? INT_MAX
           then Some (number_value 10 0 s, str_size s) else None.
Proof.
  intros Hne Hs. destruct s as [|c s'] eqn:Es; [done|]. rewrite <- Es in *.
  assert (isdigit c = true) as Hc.
  { rewrite Es in Hs. simpl in Hs. by apply andb_true_iff in Hs as [? _]. }
  destruct (digit_classes c Hc) as (Hsp & _ & Hminus & Hplus & _).
  unfold stoi.
  assert (take_while isspace s = "") as -> by (rewrite Es; simpl; by rewrite Hsp).
  assert (drop_while isspace s = s) as -> by (rewrite Es; simpl; by rewrite Hsp).
  assert (read_sign s = (false, 0, s)) as ->.
  { rewrite Es. simpl. by rewrite Hminus, Hplus. }
  rewrite take_while_all by done. rewrite eqb_empty_false by done.
  pose proof (number_value_bounds 0 s Hs ltac:(lia)) as Hv.
  cbv beta iota zeta.
  assert ((INT_MIN <=? number_value 10 0 s) = true) as ->
    by (apply Z.leb_le; unfold INT_MIN; lia).
  cbn [andb]. by destruct (_ <=? INT_MAX).
Qed.

Lemma stod_digits s :
  s <> "" -> forall_chars isdigit s = true ->
  number_value 10 0 s < 2 ^ 1024 - 2 ^ 970 ->
  stod s = Some (DDec false (number_value 10 0 s) 0, str_size s).
Proof.
  intros Hne Hs Hrange. destruct s as [|c s'] eqn:Es; [done|]. rewrite <- Es in *.
  assert (isdigit c = true) as Hc.
  { rewrite Es in Hs. simpl in Hs. by apply andb_true_iff in Hs as [? _]. }
  destruct (digit_classes c Hc)
    as (Hsp & _ & Hminus & Hplus & _ & _ & Hi & Hn & Hx & _).
  unfold stod.
  assert (take_while isspace s = "") as -> by (rewrite Es; simpl; by rewrite Hsp).
  assert (drop_while isspace s = s) as -> by (rewrite Es; simpl; by rewrite Hsp).
  assert (read_sign s = (false, 0, s)) as ->.
  { rewrite Es. simpl. by rewrite Hminus, Hplus. }
  unfold read_double. rewrite lower_digits by done.
  assert (String.prefix "infinity" s = false) as -> by (rewrite Es; by apply prefix_head).
  assert (String.prefix "inf" s = false) as -> by (rewrite Es; by apply prefix_head).
  assert (String.prefix "nan" s = false) as -> by (rewrite Es; by apply prefix_head).
  assert (String.prefix "0x" s = false) as ->.
  { destruct (String.prefix _ _) eqn:E; [|done].
    apply prefix_app in E as [r E]. rewrite E in Hs.
    change ("0x" ++ r) with (String "0" (String "x" r)) in Hs.
    by simpl in Hs. }
  unfold read_mantissa.
  rewrite take_while_all by done.
  assert (drop_while isdigit s = "") as -> by by apply drop_while_all.
  rewrite eqb_empty_false by done. simpl.
  pose proof (number_value_bounds 0 s Hs ltac:(lia)) as Hv.
  change (0 - 1 * str_size "") with 0.
  unfold out_of_double_range. change (0 <=? 0) with true. cbv iota zeta beta.
  rewrite Z.pow_0_r, Z.mul_1_r, Z.div_1_r.
  assert ((2 ^ 1024 - 2 ^ 970 <=? number_value 10 0 s) = false) as ->
    by (apply Z.leb_gt; lia).
  assert (((0 <? number_value 10 0 s)
           && (number_value 10 0 s * 2 ^ 1022 <? 1)) = false) as ->.
  { destruct (Z.ltb_spec 0 (number_value 10 0 s)) as [Hpos|]; [|done].
    apply Z.ltb_ge.
    pose proof (Z.pow_pos_nonneg 2 1022 ltac:(lia) ltac:(lia)). nia. }
  cbn [andb orb]. do 2 f_equal. unfold str_size. simpl. lia.
Qed.

Lemma forall_chars_last p s :
  s <> "" -> forall_chars p s = true ->
  exists body d, s = body ++ String d "" /\ p d = true.
Proof.
  induction s as [|a s IH]; [done|]. intros _. simpl.
  intros [Ha Hs]%andb_true_iff. destruct s as [|b s].
  - by exists "", a.
  - destruct (IH ltac:(done) Hs) as (body & d & -> & Hd).
    by exists (String a body), d.
Qed.

Lemma tokenizeValue_digits fuel s lineNum tokens :
  s <> "" -> forall_chars isdigit s = true ->
  number_value 10 0 s < 2 ^ 1024 - 2 ^ 970 ->
  tokenizeValue (S fuel) s lineNum tokens
  = Ok (push_back tokens (mkToken TOKEN_NUMBER s lineNum 0)).
Proof.
  intros Hne Hs Hrange. destruct s as [|c s'] eqn:Es; [done|]. rewrite <- Es in *.
  assert (isdigit c = true) as Hc.
  { rewrite Es in Hs. simpl in Hs. by apply andb_true_iff in Hs as [? _]. }
  destruct (digit_classes c Hc)
    as (_ & Hblank & _ & _ & _ & _ & _ & _ & _ & Hq & HS & HN & HM & Hlt).
  destruct (forall_chars_last isdigit s Hne Hs) as (body & d & Hbody & Hd).
  destruct (digit_classes d Hd) as (_ & Hblank' & _).
  assert (trim s = s) as Htrim.
  { assert (trim ("" ++ s ++ "") = s) as Htrim.
    { apply trim_app; [done..| |].
      - rewrite Es. done.
      - rewrite Hbody. by apply drop_while_end_snoc. }
    by rewrite app_empty_l, app_empty_r in Htrim. }
  cbn [tokenizeValue]. rewrite Htrim. rewrite eqb_empty_false by done.
  assert (startsWith s quote = false) as ->
    by (rewrite Es; by apply startsWith_head_ne).
  assert (String.eqb s "SuperEffective" = false) as ->
    by (rewrite Es; by apply eqb_head).
  assert (String.eqb s "NotVeryEffective" = false) as ->
    by (rewrite Es; by apply eqb_head).
  assert (String.eqb s "MissingNo" = false) as ->
    by (rewrite Es; by apply eqb_head).
  assert (startsWith s "<|" = false) as ->
    by (rewrite Es; by apply startsWith_head_ne).
  cbn [andb]. rewrite stoi_digits, stod_digits by done.
  unfold whole. rewrite Z.eqb_refl.
  by destruct (_ <=? INT_MAX); rewrite ?Z.eqb_refl.
Qed.

(** X12. A value written with digits only is a number token with the digits
    as its literal.  The parser reads it as the integer that the digits
    write when this is at most [INT_MAX], and as the floating-point number
    of this value when it is greater (up to the range of a double). *)
Theorem integer_value fuel s lineNum :
  s <> "" -> forall_chars isdigit s = true ->
  number_value 10 0 s < 2 ^ 1024 - 2 ^ 970 ->
  value_tokens (S fuel) s lineNum = Ok [mkToken TOKEN_NUMBER s lineNum 0]
  /\ (number_value 10 0 s <= INT_MAX ->
      parseNumber s = Ok (VInt (number_value 10 0 s)))
  /\ (INT_MAX < number_value 10 0 s ->
      parseNumber s = Ok (VFloat (DDec false (number_value 10 0 s) 0))).
Proof.
  intros Hne Hs Hrange. split; [|split].
  - unfold value_tokens. by rewrite tokenizeValue_digits.
  - intros Hint. unfold parseNumber. rewrite stoi_digits by done.
    destruct (Z.leb_spec (number_value 10 0 s) INT_MAX); [|lia].
    by rewrite Z.eqb_refl.
  - intros Hint. unfold parseNumber. rewrite stoi_digits, stod_digits by done.
    by destruct (Z.leb_spec (number_value 10 0 s) INT_MAX); [lia|].
Qed.

Lemma integer_value_witness :
  value_tokens 1 "2147483648" 3 = Ok [mkToken TOKEN_NUMBER "2147483648" 3 0]
  /\ (number_value 10 0 "2147483648" <= INT_MAX ->
      parseNumber "2147483648" = Ok (VInt (number_value 10 0 "2147483648")))
  /\ (INT_MAX < number_value 10 0 "2147483648" ->
      parseNumber "2147483648"
      = Ok (VFloat (DDec false (number_value 10 0 "2147483648") 0))).
Proof.
  apply (integer_value 0 "2147483648" 3).
  - done.
  - reflexivity.
  - reflexivity.
Defined.

(** ** The values of the lexer and the parser *)

Lemma tokenize_segments_elements tokenizeElement lineNum segments first es :
  (forall segment, appends (tokenizeElement segment)) ->
  (forall segment vs, tokenizeElement segment [] = Ok vs -> value_seq vs) ->
  tokenize_segments tokenizeElement lineNum segments first [] = Ok es ->
  elements es.
Proof.
  intros Happ Hrec. revert first es.
  induction segments as [|segment segments IH]; intros first es; simpl.
  { intros [= <-]. constructor. }
  rewrite Happ.
  intros (t1 & (vs & Hvs & [= <-])%bind_Ok & Hes)%bind_Ok.
  rewrite (tokenize_segments_appends _ _ _ _ Happ) in Hes.
  apply bind_Ok in Hes as (es' & Hes' & [= <-]).
  apply IH in Hes'. apply Hrec in Hvs.
  rewrite <- app_assoc.
  destruct first; simpl.
  - by constructor.
  - unfold push_back. simpl. apply elements_comma; [done|]. by constructor.
Qed.

Lemma tokenizeValue_value_seq fuel valStr lineNum vs :
  tokenizeValue fuel valStr lineNum [] = Ok vs -> value_seq vs.
Proof.
  revert valStr vs.
  induction fuel as [|fuel IH]; intros valStr vs; simpl; [done|].
  intros H.
  assert (forall ty lit, scalar_type ty = true -> ty <> TOKEN_NUMBER ->
            value_seq (push_back [] (mkToken ty lit lineNum 0))) as Hscalar.
  { intros ty lit Hty Hne. apply value_scalar; [done|]. hnf. simpl.
    by destruct ty. }
  destruct (String.eqb (trim valStr) ""); [simplify_eq; constructor|].
  destruct (startsWith _ quote && _); [simplify_eq; by apply Hscalar|].
  destruct (String.eqb _ "SuperEffective"); [simplify_eq; by apply Hscalar|].
  destruct (String.eqb _ "NotVeryEffective"); [simplify_eq; by apply Hscalar|].
  destruct (String.eqb _ "MissingNo"); [simplify_eq; by apply Hscalar|].
  destruct (startsWith _ "<|" && _).
  { apply bind_Ok in H as (tokens1 & H1 & [= <-]).
    rewrite (tokenize_segments_appends _ _ _ _
               (fun seg => tokenizeValue_appends fuel seg lineNum)) in H1.
    apply bind_Ok in H1 as (es & Hes & [= <-]).
    unfold push_back. simpl. apply value_array; [done| |done].
    eapply tokenize_segments_elements; [| |done].
    - intros seg. apply tokenizeValue_appends.
    - intros seg ws. apply IH. }
  destruct (whole _ (stoi _)) eqn:Hi.
  { simplify_eq. apply value_scalar; [done|]. hnf. simpl.
    unfold lexed_number. by rewrite Hi. }
  destruct (whole _ (stod _)) eqn:Hd; [|done].
  simplify_eq. apply value_scalar; [done|]. hnf. simpl.
  unfold lexed_number. by rewrite Hd, orb_true_r.
Qed.

Lemma tokenizeValue_pushes_value fuel valStr lineNum tokens tokens' :
  tokenizeValue fuel valStr lineNum tokens = Ok tokens' ->
  exists vs, tokens' = (tokens ++ vs)%list /\ value_seq vs.
Proof.
  rewrite tokenizeValue_appends. intros (vs & Hvs & [= <-])%bind_Ok.
  exists vs; split; [done|]. by eapply tokenizeValue_value_seq.
Qed.

Lemma value_seq_head t vs :
  value_seq (t :: vs) ->
  scalar_type (type t) = true \/ type t = TOKEN_ARRAY_START.
Proof. inversion 1; subst; auto. Qed.

Lemma lookup_cursor {A} (pre l : list A) :
  (pre ++ l)%list !! length pre = l !! 0%nat.
Proof. rewrite lookup_app_r by lia. by rewrite Nat.sub_diag. Qed.

Lemma lookup_cursor_add {A} (pre l : list A) k :
  (pre ++ l)%list !! (length pre + k)%nat = l !! k.
Proof. rewrite lookup_app_r by lia. f_equal. lia. Qed.

(** On the tokens of a value of the lexer the value parser throws
    nothing, and stops after the last of them. *)
Lemma parse_value_seq :
  (forall vs, value_seq vs -> vs <> [] ->
     forall fuel pre post,
       value_result (parseValueFromTokens fuel (pre ++ vs ++ post)%list (length pre))
         (length pre + length vs))
  /\ (forall es, elements es ->
        forall fuel n pre close post arr,
          type close = TOKEN_ARRAY_END ->
          value_result
            (parse_elements
               (parseValueFromTokens fuel (pre ++ es ++ close :: post)%list)
               (pre ++ es ++ close :: post)%list n (length pre) arr)
            (length pre + length es + 1)).
Proof.
  apply value_seq_elements_ind.
  - done.
  - intros t Hty Hlexed _ [|fuel] pre post; [by left|]. right.
    rewrite parseValueFromTokens_S, lookup_cursor. simpl.
    replace (length pre + 1)%nat with (S (length pre)) by lia.
    unfold lexed_token in Hlexed.
    destruct (type t); try done; eauto.
    destruct (lexed_number_parseNumber _ Hlexed) as [v ->]. simpl. eauto.
  - intros open es close Hopen _ IH Hclose _ [|fuel] pre post; [by left|].
    rewrite parseValueFromTokens_S, lookup_cursor. simpl. rewrite Hopen.
    specialize (IH fuel fuel (pre ++ [open])%list close post [] Hclose).
    rewrite <- !app_assoc in IH. simpl in IH.
    rewrite <- !app_assoc. simpl.
    rewrite length_app in IH. simpl in IH.
    replace (S (length pre)) with (length pre + 1)%nat by lia.
    rewrite length_app. simpl.
    replace (length pre + S (length es + 1))%nat
      with (length pre + 1 + length es + 1)%nat by lia.
    exact IH.
  - intros fuel [|n] pre close post arr Hclose; [by left|]. right.
    simpl. rewrite lookup_cursor. simpl.
    rewrite bool_decide_true by done.
    replace (length pre + 0 + 1)%nat with (S (length pre)) by lia. eauto.
  - intros vs es Hvs IHvs _ IHes fuel n pre close post arr Hclose.
    destruct vs as [|t vs]; [by apply IHes|].
    destruct n as [|n]; [by left|].
    set (tokens := (pre ++ ((t :: vs) ++ es) ++ close :: post)%list).
    assert (tokens !! length pre = Some t) as Ht
      by (unfold tokens; by rewrite lookup_cursor).
    assert (tokens = (pre ++ (t :: vs) ++ es ++ close :: post)%list) as H1
      by (unfold tokens; by rewrite <- app_assoc).
    assert (tokens = ((pre ++ t :: vs) ++ es ++ close :: post)%list) as H2
      by (unfold tokens; by rewrite <- !app_assoc).
    cbn [parse_elements]. rewrite Ht.
    apply value_seq_head in Hvs as Hhead.
    rewrite bool_decide_false
      by (intros E; rewrite E in Hhead; by destruct Hhead).
    rewrite bool_decide_false
      by (intros E; rewrite E in Hhead; by destruct Hhead).
    specialize (IHvs ltac:(done) fuel pre (es ++ close :: post)%list).
    rewrite <- H1 in IHvs.
    destruct IHvs as [->|[v ->]]; [by left|]. cbn [bind fst snd].
    specialize (IHes fuel n (pre ++ t :: vs)%list close post (push_back arr v) Hclose).
    rewrite <- H2 in IHes. rewrite !length_app in IHes.
    rewrite length_app.
    replace (length pre + (length (t :: vs) + length es) + 1)%nat
      with (length pre + length (t :: vs) + length es + 1)%nat by lia.
    exact IHes.
  - intros c es Hc _ IHes fuel n pre close post arr Hclose.
    destruct n as [|n]; [by left|].
    set (tokens := (pre ++ (c :: es) ++ close :: post)%list).
    assert (tokens !! length pre = Some c) as Ht
      by (unfold tokens; by rewrite lookup_cursor).
    assert (tokens = ((pre ++ [c]) ++ es ++ close :: post)%list) as H2
      by (unfold tokens; by rewrite <- !app_assoc).
    cbn [parse_elements]. rewrite Ht.
    rewrite bool_decide_false by (rewrite Hc; done).
    rewrite bool_decide_true by done.
    specialize (IHes fuel n (pre ++ [c])%list close post arr Hclose).
    rewrite <- H2 in IHes. rewrite !length_app in IHes. simpl in IHes.
    replace (S (length pre)) with (length pre + 1)%nat by lia.
    replace (length pre + length (c :: es) + 1)%nat
      with (length pre + 1 + length es + 1)%nat by (simpl; lia).
    exact IHes.
Qed.

(** ** The statements of the lexer and the errors of the parser *)

Ltac one_of := first [by left | right; one_of].

Ltac each_of H :=
  apply list_elem_of_In in H; simpl in H;
  repeat (destruct H as [<-|H]; [one_of|]); destruct H.

Lemma tokenizeLine_lexed_statement indent line lineNum tokens tokens' :
  type indent = TOKEN_INDENT ->
  tokenizeLine line lineNum (push_back tokens indent) = Ok tokens' ->
  exists stmt, tokens' = (tokens ++ stmt)%list /\ lexed_statement stmt.
Proof.
  intros Hindent. unfold tokenizeLine, push_back.
  destruct (startsWith line "(o) " && _).
  { intros [= <-]. eexists. rewrite <- !app_assoc. split; [done|]. by constructor. }
  destruct (startsWith line "(O) " && _).
  { intros [= <-]. eexists. rewrite <- !app_assoc. split; [done|]. by constructor. }
  destruct (startsWith line "(@) " && _).
  { intros [= <-]. eexists. rewrite <- !app_assoc. split; [done|]. by constructor. }
  destruct (regex_match_kv line) as [[key valStr]|] eqn:Hre; [|done].
  apply regex_match_kv_sound in Hre as (_ & _ & _ & _ & Hkey & Hkeys & _).
  intros (vs & -> & Hvs)%tokenizeValue_pushes_value.
  eexists. rewrite <- !app_assoc. split; [done|]. by constructor.
Qed.

Lemma tokenize_lines_lexed_statements lines lineNum tokens lineNum' tokens' :
  tokenize_lines lines lineNum false tokens = Ok (lineNum', tokens') ->
  exists stmts,
    tokens' = (tokens ++ concat stmts)%list /\ Forall lexed_statement stmts.
Proof.
  revert lineNum tokens.
  induction lines as [|line lines IH]; intros lineNum tokens; simpl.
  { intros [= <- <-]. exists []. by rewrite app_nil_r. }
  destruct (String.eqb _ ""); [apply IH|].
  destruct (scan_indent _ 0) as [indentCount hasTab].
  destruct hasTab; [done|].
  destruct (Z.rem indentCount 4 =? 0); [|done]. simpl.
  intros (tokens1 & (stmt & -> & Hstmt)%tokenizeLine_lexed_statement
          & (stmts & -> & Hstmts)%IH)%bind_Ok; [|done].
  exists (stmt :: stmts). simpl. rewrite <- app_assoc. split; [done|].
  by constructor.
Qed.

Lemma tokenize_lexed_statements content tokens :
  tokenize content = Ok tokens ->
  tokens = [mkToken TOKEN_EOF "" 0 0]
  \/ exists stmts lineNum,
       tokens = (mkToken TOKEN_HEADER "BULBA!" 1 0 :: concat stmts
                 ++ [mkToken TOKEN_EOF "" lineNum 0])%list
       /\ Forall lexed_statement stmts.
Proof.
  intros [[_ ->]|(first & rest & body & lineNum & _ & _ & Hlines & -> & _)]%tokenize_shape.
  { by left. }
  right. apply tokenize_lines_lexed_statements in Hlines as (stmts & [= ->] & Hstmts).
  by exists stmts, lineNum.
Qed.

(** What follows a statement: the indent token of the next one, or the
    end-of-input token. *)
Lemma lexed_statements_head stmts eof post :
  Forall lexed_statement stmts -> type eof = TOKEN_EOF ->
  exists next rest,
    (concat stmts ++ eof :: post)%list = next :: rest
    /\ (type next = TOKEN_INDENT \/ type next = TOKEN_EOF).
Proof.
  intros Hstmts Heof. destruct Hstmts as [|stmt stmts Hstmt _]; simpl; [by eauto|].
  destruct Hstmt; simpl; eauto.
Qed.

(** The errors of the loop of the parser on statements of the lexer. *)
Lemma parse_loop_throws stmts :
  Forall lexed_statement stmts ->
  forall fuel pre eof post st what,
    type eof = TOKEN_EOF ->
    parse_loop fuel (pre ++ concat stmts ++ eof :: post)%list (length pre) st
    = Throw what ->
    what ∈ [ERR_INDENTATION; ERR_BADGES; ERR_RESERVED]
    \/ (what = ERR_TYPE
        /\ exists j, missing_value (pre ++ concat stmts ++ eof :: post)%list j).
Proof.
  induction 1 as [|stmt stmts Hstmt Hstmts IH];
    intros [|fuel] pre eof post st what Heof; try done.
  { cbn [parse_loop concat]. unfold parse_turn. rewrite lookup_cursor. simpl.
    by rewrite Heof. }
  cbn [concat]. rewrite <- app_assoc.
  set (rest := (concat stmts ++ eof :: post)%list).
  set (tokens := (pre ++ stmt ++ rest)%list).
  assert (tokens = ((pre ++ stmt) ++ concat stmts ++ eof :: post)%list) as Htokens
    by (unfold tokens, rest; by rewrite <- app_assoc).
  assert (forall k, tokens !! (length pre + k)%nat = (stmt ++ rest)%list !! k) as Hat.
  { intros k. apply lookup_cursor_add. }
  pose proof (Hat 0%nat) as H0. pose proof (Hat 1%nat) as H1.
  pose proof (Hat 2%nat) as H2. pose proof (Hat 3%nat) as H3.
  replace (length pre + 0)%nat with (length pre) in H0 by lia.
  replace (length pre + 1)%nat with (S (length pre)) in H1 by lia.
  replace (length pre + 2)%nat with (S (S (length pre))) in H2 by lia.
  replace (length pre + 3)%nat with (S (S (S (length pre)))) in H3 by lia.
  specialize (IH fuel (pre ++ stmt)%list eof post).
  rewrite <- Htokens in IH.
  cbn [parse_loop]. unfold parse_turn.
  destruct Hstmt as [indent open name close Hindent Hopen Hname Hclose _
                    |indent key vine vs Hindent Hkey _ _ Hvine Hvs].
  - simpl in H0, H1, H2, H3. rewrite H0, Hindent, H1, Hopen.
    unfold parse_section. rewrite H2, H3, Hname, Hclose.
    destruct (negb (level indent =? _)); [intros [= <-]; left; one_of|].
    destruct (_ <? _); [intros [= <-]; left; one_of|].
    simpl. unfold validateKey.
    destruct (String.eqb _ "Charizard"); [intros [= <-]; left; one_of|].
    simpl. destruct (last _); [|done]. simpl.
    intros Hloop. rewrite length_app in IH. simpl in IH.
    replace (length pre + 4)%nat with (S (S (S (S (length pre))))) in IH by lia.
    by eapply IH.
  - simpl in H0, H1, H2. rewrite H0, Hindent, H1, Hkey.
    unfold parse_key_value.
    destruct (dedent (level indent) st) as [st1|what1| |] eqn:Hdedent; simpl;
      try done.
    2:{ intros [= <-]. left. unfold dedent in Hdedent.
        repeat case_match; simplify_eq; one_of. }
    unfold validateKey.
    destruct (String.eqb _ "Charizard"); [intros [= <-]; left; one_of|].
    simpl. rewrite H2, Hvine. simpl.
    destruct vs as [|t vs].
    + destruct (lexed_statements_head stmts eof post Hstmts Heof)
        as (next & rest' & Hrest & Hnext).
      fold rest in Hrest. simpl in H3. rewrite Hrest in H3. simpl in H3.
      unfold parse_fuel. rewrite parseValueFromTokens_S, H3.
      assert (missing_value tokens (length pre)) as Hmissing.
      { exists indent, key, vine, next. by rewrite H0, H1, H2, H3. }
      destruct Hnext as [-> | ->]; simpl; intros [= <-]; right; eauto.
    + pose proof (proj1 parse_value_seq _ Hvs ltac:(done) (parse_fuel tokens)
                    (pre ++ [indent; key; vine])%list rest) as Hval.
      assert (tokens = ((pre ++ [indent; key; vine]) ++ (t :: vs) ++ rest)%list)
        as Htokens' by (unfold tokens; by rewrite <- !app_assoc).
      rewrite <- Htokens' in Hval. rewrite length_app in Hval. simpl in Hval.
      replace (length pre + 3)%nat with (S (S (S (length pre)))) in Hval by lia.
      destruct Hval as [->|[v ->]]; [done|]. cbn [bind].
      destruct (last _); [|done]. cbn [bind].
      intros Hloop. rewrite length_app in IH. simpl in IH.
      replace (length pre + S (S (S (S (length vs)))))%nat
        with (S (S (S (length pre + S (length vs))))) in IH by lia.
      by eapply IH.
Qed.

Lemma parse_throws content tokens what :
  tokenize content = Ok tokens -> parse content = Throw what ->
  what ∈ [ERR_INDENTATION; ERR_BADGES; ERR_RESERVED]
  \/ (what = ERR_TYPE /\ exists j, missing_value tokens j).
Proof.
  intros Htokens. unfold parse. rewrite Htokens. cbn [bind].
  destruct (parse_loop _ _ _ _) as [st|what'| |] eqn:Hloop; simpl; try done.
  { by destruct (heap st !! root). }
  intros [= ->].
  apply tokenize_lexed_statements in Htokens as [->|(stmts & n & -> & Hstmts)].
  { by vm_compute in Hloop. }
  set (header := mkToken TOKEN_HEADER "BULBA!" 1 0) in *.
  set (eof := mkToken TOKEN_EOF "" n 0) in *.
  change (parse_loop (parse_fuel (header :: concat stmts ++ [eof]))
            (header :: concat stmts ++ [eof]) 0 initial)
    with (parse_loop (length (header :: concat stmts ++ [eof]))
            ([header] ++ concat stmts ++ [eof])%list (length [header]) initial)
    in Hloop.
  by eapply (parse_loop_throws stmts Hstmts _ [header] eof []).
Qed.

Lemma tokenize_segments_throws tokenizeElement lineNum segments first tokens what :
  (forall segment tokens, tokenizeElement segment tokens = Throw what ->
     what = ERR_TYPE) ->
  tokenize_segments tokenizeElement lineNum segments first tokens = Throw what ->
  what = ERR_TYPE.
Proof.
  intros Hrec. revert first tokens.
  induction segments as [|segment segments IH]; intros first tokens; simpl; [done|].
  destruct (tokenizeElement segment _) as [tokens1|what1| |] eqn:E; simpl; try done.
  - apply IH.
  - intros [= <-]. by eapply Hrec.
Qed.

Lemma tokenizeValue_throws fuel valStr lineNum tokens what :
  tokenizeValue fuel valStr lineNum tokens = Throw what -> what = ERR_TYPE.
Proof.
  revert valStr tokens. induction fuel as [|fuel IH]; intros valStr tokens; simpl;
    [done|].
  repeat (case_match; try done).
  - destruct (tokenize_segments _ _ _ _ _) as [t1|what1| |] eqn:E; simpl; try done.
    intros [= <-]. eapply tokenize_segments_throws; [|done].
    intros seg tokens0. apply IH.
  - by intros [= <-].
Qed.

Lemma tokenize_lines_throws lines lineNum firstLine tokens what :
  tokenize_lines lines lineNum firstLine tokens = Throw what ->
  what ∈ [ERR_HEADER; ERR_TAB; ERR_INDENTATION; ERR_SYNTAX; ERR_TYPE].
Proof.
  revert lineNum firstLine tokens.
  induction lines as [|line lines IH]; intros lineNum firstLine tokens; simpl;
    [done|].
  destruct firstLine.
  { destruct (negb _); [intros [= <-]; one_of|apply IH]. }
  destruct (String.eqb _ ""); [apply IH|].
  destruct (scan_indent _ 0) as [indentCount hasTab].
  destruct hasTab; [intros [= <-]; one_of|].
  destruct (negb _); [intros [= <-]; one_of|].
  destruct (tokenizeLine _ _ _) as [t1|what1| |] eqn:E; simpl; try done; [apply IH|].
  intros [= <-]. unfold tokenizeLine in E.
  repeat (case_match; try done); simplify_eq; try one_of.
  apply tokenizeValue_throws in E as ->. one_of.
Qed.

(** X13. The lexer throws one of five messages. *)
Theorem lexer_errors content what :
  tokenize content = Throw what ->
  what ∈ [ERR_HEADER; ERR_TAB; ERR_INDENTATION; ERR_SYNTAX; ERR_TYPE].
Proof.
  unfold tokenize.
  destruct (tokenize_lines _ _ _ _) as [[n tokens]|what1| |] eqn:E; simpl; try done.
  intros [= <-]. by eapply tokenize_lines_throws.
Qed.

Lemma lexer_errors_witness :
  ERR_TYPE ∈ [ERR_HEADER; ERR_TAB; ERR_INDENTATION; ERR_SYNTAX; ERR_TYPE].
Proof.
  apply (lexer_errors (unlines ["BULBA!"; "key ~> <| <| 1, 2 |> |>"]) ERR_TYPE).
  vm_compute. reflexivity.
Defined.

(** X14. On the tokens of the lexer the parser never throws its syntax error:
    an `Expected ...' check of BSONParser::parse never fails, and no value
    runs into the end of the tokens.  What the parser throws is the
    indentation error, the badge error, the reserved-key error or the type
    error. *)
Theorem parser_errors content tokens what :
  tokenize content = Ok tokens -> parse content = Throw what ->
  what ∈ [ERR_INDENTATION; ERR_BADGES; ERR_RESERVED; ERR_TYPE].
Proof.
  intros Htokens Hparse.
  destruct (parse_throws _ _ _ Htokens Hparse) as [H|[-> _]]; [each_of H|one_of].
Qed.

Lemma parser_errors_witness :
  ERR_BADGES ∈ [ERR_INDENTATION; ERR_BADGES; ERR_RESERVED; ERR_TYPE].
Proof.
  eapply (parser_errors (unlines ["BULBA!"; "    (O) pool (O)"])).
  - vm_compute. reflexivity.
  - vm_compute. reflexivity.
Defined.

(** X15. The parser throws the type error on the tokens of the lexer only at a
    key/value line without a value: the values that the lexer lets through
    are values for the parser. *)
Theorem parser_type_error content tokens :
  tokenize content = Ok tokens -> parse content = Throw ERR_TYPE ->
  exists j, missing_value tokens j.
Proof.
  intros Htokens Hparse.
  destruct (parse_throws _ _ _ Htokens Hparse) as [H|[_ H]]; [|done].
  apply list_elem_of_In in H. simpl in H. by intuition.
Qed.

Lemma parser_type_error_witness :
  exists j,
    missing_value
      [mkToken TOKEN_HEADER "BULBA!" 1 0; mkToken TOKEN_INDENT "" 2 0;
       mkToken TOKEN_IDENTIFIER "key" 2 0; mkToken TOKEN_VINE_WHIP "" 2 0;
       mkToken TOKEN_EOF "" 2 0] j.
Proof.
  apply (parser_type_error (unlines ["BULBA!"; "key ~>"])).
  - vm_compute. reflexivity.
  - vm_compute. reflexivity.
Defined.

(** X16. BSONParser::parse returns a document or throws one of the seven
    messages of the program. *)
Theorem parse_outcomes content :
  (exists d, parse content = Ok d)
  \/ exists what,
       parse content = Throw what
       /\ what ∈ [ERR_HEADER; ERR_TAB; ERR_INDENTATION; ERR_SYNTAX; ERR_TYPE;
                  ERR_BADGES; ERR_RESERVED].
Proof.
  pose proof (parse_total content) as Htotal.
  destruct (parse content) as [d|what| |] eqn:Hparse; try done; [by eauto|].
  right. exists what. split; [done|].
  destruct (tokenize content) as [tokens|what'| |] eqn:Htokens.
  - destruct (parse_throws _ _ _ Htokens Hparse) as [H|[-> _]]; [each_of H|one_of].
  - rewrite (parse_tokenize_throw _ _ Htokens) in Hparse. simplify_eq.
    unfold tokenize in Htokens.
    destruct (tokenize_lines _ _ _ _) as [[n tokens]|what1| |] eqn:E;
      simpl in Htokens; try done.
    simplify_eq. apply tokenize_lines_throws in E. each_of E.
  - by pose proof (tokenize_total content) as H; rewrite Htokens in H.
  - by pose proof (tokenize_total content) as H; rewrite Htokens in H.
Qed.

(** ** The grammar of the tokens *)

(** X17. The token lists of the lexer: the end-of-input token alone, or the
    header token, the statements of the lines and the end-of-input token.
    A statement is a section header (an indent token, the two section
    tokens of one stage and the name between them) or a key/value line (an
    indent token, a key that is a word of letters, digits and underscores,
    the assign token and the tokens of a value: none, one scalar token, or
    the elements of an array between the two array tokens). *)
Theorem token_grammar content tokens :
  tokenize content = Ok tokens ->
  tokens = [mkToken TOKEN_EOF "" 0 0]
  \/ exists stmts lineNum,
       tokens = (mkToken TOKEN_HEADER "BULBA!" 1 0 :: concat stmts
                 ++ [mkToken TOKEN_EOF "" lineNum 0])%list
       /\ Forall lexed_statement stmts.
Proof.
  intros [[_ ->]|(first & rest & body & lineNum & _ & _ & Hlines & -> & _)]
           %tokenize_shape.
  { by left. }
  right.
  apply tokenize_lines_lexed_statements in Hlines as (stmts & [= ->] & Hstmts).
  by exists stmts, lineNum.
Qed.

Lemma token_grammar_witness :
  one_section_tokens = [mkToken TOKEN_EOF "" 0 0]
  \/ exists stmts lineNum,
       one_section_tokens
       = (mkToken TOKEN_HEADER "BULBA!" 1 0 :: concat stmts
          ++ [mkToken TOKEN_EOF "" lineNum 0])%list
       /\ Forall lexed_statement stmts.
Proof. apply (token_grammar one_section_input one_section_tokens). vm_compute. reflexivity. Defined.

(** ** What a statement does to the state *)

Lemma parse_elements_no_object parseElement tokens n i arr v i' :
  (forall j r, parseElement j = Ok r -> no_object (fst r) = true) ->
  forallb no_object arr = true ->
  parse_elements parseElement tokens n i arr = Ok (v, i') ->
  no_object v = true.
Proof.
  intros Hrec. revert i arr.
  induction n as [|n IH]; intros i arr Harr; simpl; [done|].
  destruct (tokens !! i) as [t|]; [|done].
  destruct (bool_decide (type t = TOKEN_ARRAY_END)); [by intros [= <- <-]|].
  destruct (bool_decide (type t = TOKEN_COMMA)); [by apply IH|].
  intros (r & Hr%Hrec & H)%bind_Ok. eapply IH; [|done].
  unfold push_back. rewrite forallb_app, Harr. simpl. by rewrite Hr.
Qed.

Lemma parseNumber_no_object s v : parseNumber s = Ok v -> no_object v = true.
Proof. unfold parseNumber. repeat case_match; by intros [= <-]. Qed.

Lemma parseValueFromTokens_no_object fuel tokens i v i' :
  parseValueFromTokens fuel tokens i = Ok (v, i') -> no_object v = true.
Proof.
  revert i v i'. induction fuel as [|fuel IH]; intros i v i'; [done|].
  rewrite parseValueFromTokens_S.
  destruct (tokens !! i) as [token|]; [|done].
  destruct (type token); try done; try by intros [= <- <-].
  - intros (w & Hw%parseNumber_no_object & [= <- <-])%bind_Ok. done.
  - apply parse_elements_no_object; [|done].
    intros j [w j']. apply IH.
Qed.

Lemma stack_inv_eta st :
  stack_inv st ->
  st = mkParser (heap st)
         (take (Z.to_nat (currentLevel st + 1)) (stack st)) (currentLevel st).
Proof.
  intros [Hlen Hdepth _ _]. rewrite take_ge by lia. by destruct st.
Qed.

Lemma dedent_step expectedLevel st st1 :
  stack_inv st -> 0 <= expectedLevel ->
  dedent expectedLevel st = Ok st1 ->
  expectedLevel <= currentLevel st
  /\ st1 = mkParser (heap st)
             (take (Z.to_nat (expectedLevel + 1)) (stack st)) expectedLevel.
Proof.
  intros Hinv Hlevel. unfold dedent.
  destruct (Z.eqb_spec expectedLevel (currentLevel st)) as [->|]; simpl.
  { intros [= <-]. split; [lia|]. by apply stack_inv_eta. }
  destruct (Z.ltb_spec expectedLevel (currentLevel st)); [|done].
  intros [= <-]. split; [lia|]. destruct Hinv.
  rewrite to_size_t_small by lia. by rewrite pop_to_take by lia.
Qed.

(** A key/value line that is accepted: its level is at most the current
    one, the frames above it are dropped, and the value is assigned in
    the map of the frame of its level. *)
Lemma parse_key_value_step tokens i expectedLevel nextToken st i' st' :
  stack_inv st -> 0 <= expectedLevel ->
  parse_key_value tokens i expectedLevel nextToken st = Ok (Continue i' st') ->
  exists current val,
    expectedLevel <= currentLevel st
    /\ literal nextToken <> "Charizard"
    /\ stack st !! Z.to_nat expectedLevel = Some current
    /\ parseValueFromTokens (parse_fuel tokens) tokens (S (S i)) = Ok (val, i')
    /\ st' = mkParser (assign (ctx_map current) (literal nextToken) val (heap st))
               (take (Z.to_nat (expectedLevel + 1)) (stack st)) expectedLevel.
Proof.
  intros Hinv Hlevel. unfold parse_key_value.
  intros (st1 & [Hle ->]%dedent_step & Hrest)%bind_Ok; [|done..].
  apply bind_Ok in Hrest as (_ & Hkey%validateKey_Ok & Hrest). revert Hrest.
  destruct (tokens !! S i) as [t|]; [|done].
  destruct (bool_decide (type t = TOKEN_VINE_WHIP)); [|done]. simpl.
  intros ([val j] & Hval & Hrest)%bind_Ok. revert Hrest.
  destruct (last (take _ _)) as [current|] eqn:Hcurrent; [|done].
  intros [= <- <-]. exists current, val. repeat split; try done.
  destruct Hinv. rewrite last_take_lookup in Hcurrent by lia.
  rewrite <- Hcurrent. f_equal. lia.
Qed.

(** A section header that is accepted: its line is at the level under its
    stage, the frames from its stage on are dropped, and a new, empty map
    is assigned to its name in the map of the frame under it, and is the
    new top frame. *)
Lemma parse_section_step tokens i expectedLevel nextToken st i' st' :
  stack_inv st -> 1 <= level nextToken <= 3 ->
  parse_section tokens i expectedLevel nextToken st = Ok (Continue i' st') ->
  exists name parent,
    expectedLevel = level nextToken - 1
    /\ expectedLevel <= currentLevel st
    /\ tokens !! S i = Some name
    /\ literal name <> "Charizard"
    /\ stack st !! Z.to_nat expectedLevel = Some parent
    /\ i' = S (S (S i))
    /\ st' = mkParser
               (assign (ctx_map parent) (literal name) (VObject (length (heap st)))
                  (push_back (heap st) ∅))
               (push_back (take (Z.to_nat (level nextToken)) (stack st))
                  (mkContext (length (heap st)) (level nextToken)))
               (level nextToken).
Proof.
  intros Hinv Hlevel. unfold parse_section.
  rewrite to_size_t_small by lia.
  destruct (Z.eqb_spec expectedLevel (level nextToken - 1)) as [->|]; [|done]. simpl.
  destruct (Z.ltb_spec (Z.of_nat (length (stack st))) (level nextToken)); [done|].
  destruct (tokens !! S i) as [keyToken|]; [|done].
  destruct (bool_decide (type keyToken = TOKEN_IDENTIFIER)); [|done]. simpl.
  intros (_ & Hkey%validateKey_Ok & Hrest)%bind_Ok. revert Hrest.
  destruct (tokens !! S (S i)) as [closeToken|]; [|done].
  destruct (bool_decide (type closeToken = TOKEN_SECTION_CLOSE)); [|done]. simpl.
  destruct Hinv. rewrite pop_to_take by lia.
  destruct (last (take _ _)) as [parent|] eqn:Hparent; [|done].
  intros [= <- <-]. exists keyToken, parent. repeat split; try done; [lia|].
  rewrite last_take_lookup in Hparent by lia.
  rewrite <- Hparent. f_equal. lia.
Qed.

(** ** The store is a tree *)

Lemma assign_entry m key val (h : Store) a mp k w :
  assign m key val h !! a = Some mp -> mp !! k = Some w ->
  (a = m /\ k = key /\ w = val)
  \/ exists m0, h !! a = Some m0 /\ m0 !! k = Some w.
Proof.
  unfold assign. intros Ha Hk.
  destruct (decide (a = m)) as [->|Hne].
  - rewrite list_lookup_alter_eq in Ha.
    destruct (h !! m) as [m0|] eqn:Hm; [|done]. simpl in Ha. simplify_eq.
    destruct (decide (k = key)) as [->|Hk'].
    + rewrite lookup_insert_eq in Hk. left. by simplify_eq.
    + rewrite lookup_insert_ne in Hk by done. right. eauto.
  - rewrite list_lookup_alter_ne in Ha by done. right. eauto.
Qed.

Lemma store_tree_initial : store_tree [∅].
Proof.
  split.
  - intros [|a] m key p; simpl; [|done]. by intros [= <-].
  - intros [|a] m key a' m' key' p; simpl; [|done]. by intros [= <-].
  - intros [|a] m key v; simpl; [|done]. by intros [= <-].
Qed.

Lemma store_tree_assign_value m key val h :
  store_tree h -> no_object val = true -> store_tree (assign m key val h).
Proof.
  intros [Hfwd Hpar Hval] Hno. split.
  - intros a mp k p Ha Hk. rewrite length_assign.
    destruct (assign_entry _ _ _ _ _ _ _ _ Ha Hk) as [(_ & _ & <-)|(m0 & ? & ?)];
      [done|by eapply Hfwd].
  - intros a mp k a' mp' k' p Ha Hk Ha' Hk'.
    destruct (assign_entry _ _ _ _ _ _ _ _ Ha Hk) as [(_ & _ & <-)|(m0 & ? & ?)];
      [done|].
    destruct (assign_entry _ _ _ _ _ _ _ _ Ha' Hk') as [(_ & _ & <-)|(m1 & ? & ?)];
      [done|by eapply Hpar].
  - intros a mp k w Ha Hk.
    destruct (assign_entry _ _ _ _ _ _ _ _ Ha Hk) as [(_ & _ & ->)|(m0 & ? & ?)];
      [by right|by eapply Hval].
Qed.

Lemma push_back_entry (h : Store) a (m : BSONMap) k w :
  push_back h ∅ !! a = Some m -> m !! k = Some w -> h !! a = Some m.
Proof.
  unfold push_back. intros [?|[_ Hm]]%lookup_app_Some Hk; [done|].
  destruct (a - length h)%nat; simpl in Hm; by simplify_eq.
Qed.

Lemma store_tree_assign_object parent key h :
  store_tree h -> (parent < length h)%nat ->
  store_tree (assign parent key (VObject (length h)) (push_back h ∅)).
Proof.
  intros [Hfwd Hpar Hval] Hparent.
  assert (length (push_back h (∅ : BSONMap)) = S (length h)) as Hlen.
  { unfold push_back. rewrite length_app. simpl. lia. }
  assert (forall a m0 k p,
            push_back h ∅ !! a = Some m0 -> m0 !! k = Some (VObject p) ->
            h !! a = Some m0 /\ (a < p < length h)%nat) as Hold.
  { intros a m0 k p Hm0 Hk0.
    pose proof (push_back_entry _ _ _ _ _ Hm0 Hk0) as Hm.
    split; [done|]. by eapply Hfwd. }
  split.
  - intros a mp k p Ha Hk. rewrite length_assign, Hlen.
    destruct (assign_entry _ _ _ _ _ _ _ _ Ha Hk)
      as [(-> & _ & E)|(m0 & Hm0 & Hk0)]; [simplify_eq; lia|].
    apply (Hold _ _ _ _ Hm0) in Hk0. lia.
  - intros a mp k a' mp' k' p Ha Hk Ha' Hk'.
    destruct (assign_entry _ _ _ _ _ _ _ _ Ha Hk)
      as [(-> & -> & E)|(m0 & Hm0 & Hk0)];
      destruct (assign_entry _ _ _ _ _ _ _ _ Ha' Hk')
        as [(-> & -> & E')|(m1 & Hm1 & Hk1)]; simplify_eq; try done.
    + apply (Hold _ _ _ _ Hm1) in Hk1. lia.
    + apply (Hold _ _ _ _ Hm0) in Hk0. lia.
    + pose proof (push_back_entry _ _ _ _ _ Hm0 Hk0).
      pose proof (push_back_entry _ _ _ _ _ Hm1 Hk1).
      by eapply Hpar.
  - intros a mp k w Ha Hk.
    destruct (assign_entry _ _ _ _ _ _ _ _ Ha Hk) as [(_ & _ & ->)|(m0 & Hm0 & Hk0)];
      [by eauto|].
    pose proof (push_back_entry _ _ _ _ _ Hm0 Hk0). by eapply Hval.
Qed.

Lemma parse_turn_store_tree tokens i st i' st' :
  Forall lexed_token tokens -> stack_inv st ->
  parse_turn tokens i st = Ok (Continue i' st') ->
  store_tree (heap st) -> store_tree (heap st').
Proof.
  intros Hlexed Hinv. unfold parse_turn.
  destruct (tokens !! i) as [token|] eqn:Htoken; [|done].
  pose proof (Forall_lookup_1 _ _ _ _ Hlexed Htoken) as Hwf.
  unfold lexed_token in Hwf.
  destruct (type token) eqn:Htype; try done; try by intros [= <- <-].
  destruct (tokens !! S i) as [nextToken|] eqn:Hnext; [|done].
  pose proof (Forall_lookup_1 _ _ _ _ Hlexed Hnext) as Hwf'.
  unfold lexed_token in Hwf'.
  destruct (type nextToken) eqn:Htype'; try done.
  - intros (name & parent & _ & _ & _ & _ & Hparent & _ & ->)%parse_section_step Htree;
      [|done..].
    simpl. apply store_tree_assign_object; [done|].
    destruct Hinv as [_ _ _ Hframes]. by apply Hframes in Hparent as [_ ?].
  - intros (current & val & _ & _ & _ & Hval%parseValueFromTokens_no_object & ->)
             %parse_key_value_step Htree; [|done..].
    simpl. by apply store_tree_assign_value.
Qed.

Lemma parse_loop_store_tree tokens f i st st' :
  Forall lexed_token tokens -> stack_inv st ->
  parse_loop f tokens i st = Ok st' ->
  store_tree (heap st) -> store_tree (heap st').
Proof.
  intros Hlexed. revert i st.
  induction f as [|f IH]; intros i st Hinv; [done|]. simpl.
  intros ([i1 st1|] & Hturn & Hrest)%bind_Ok; [|by simplify_eq].
  intros Htree. pose proof Hturn as [Hinv' _]%parse_turn_inv; [|done..].
  apply (IH i1 st1 Hinv' Hrest).
  by apply (parse_turn_store_tree tokens i st i1 st1).
Qed.

(** X18. The maps of a document form a tree: every object value points from a
    map to a map made later, which is the value of no other entry; what a
    key/value line binds holds no object, so that an array holds none. *)
Theorem document_is_tree content d :
  parse content = Ok d -> store_tree (doc_heap d).
Proof.
  unfold parse. intros (tokens & Htokens%tokenize_lexed
                         & (st & Hloop & Hd)%bind_Ok)%bind_Ok.
  destruct (heap st !! root); [|done]. simplify_eq. simpl.
  eapply parse_loop_store_tree; [done|apply stack_inv_initial|done|].
  apply store_tree_initial.
Qed.

Lemma document_is_tree_witness :
  store_tree [{[ "level1" := VObject 1%nat ]}; {[ "key" := VInt 1 ]}].
Proof.
  apply (document_is_tree
           (unlines ["BULBA!"; "(o) level1 (o)"; "    key ~> 1"])
           (mkDocument {[ "level1" := VObject 1%nat ]}
              [{[ "level1" := VObject 1%nat ]}; {[ "key" := VInt 1 ]}])).
  vm_compute. reflexivity.
Defined.

(** ** The depth of a document *)









(** ** Where a statement is stored *)

(** X20. A key/value line that the parser accepts is at most at the current
    level; its value is assigned in the map of the frame of its level, the
    frames above are dropped, and its level is the current one from then
    on. *)
Theorem key_value_stored content tokens i st indent keyToken i' st' :
  tokenize content = Ok tokens ->
  reachable tokens i st ->
  tokens !! i = Some indent -> type indent = TOKEN_INDENT ->
  tokens !! S i = Some keyToken -> type keyToken = TOKEN_IDENTIFIER ->
  parse_turn tokens i st = Ok (Continue i' st') ->
  exists current val,
    0 <= level indent <= currentLevel st
    /\ stack st !! Z.to_nat (level indent) = Some current
    /\ parseValueFromTokens (parse_fuel tokens) tokens (S (S (S i))) = Ok (val, i')
    /\ no_object val = true
    /\ heap st' = assign (ctx_map current) (literal keyToken) val (heap st)
    /\ stack st' = take (Z.to_nat (level indent + 1)) (stack st)
    /\ currentLevel st' = level indent.
Proof.
  intros Htokens Hreach Hi Hindent Hk Hkey.
  pose proof (tokenize_lexed _ _ Htokens) as Hlexed.
  pose proof (reachable_inv _ _ _ Hlexed Hreach) as Hinv.
  pose proof (Forall_lookup_1 _ _ _ _ Hlexed Hi) as Hwf.
  unfold lexed_token in Hwf. rewrite Hindent in Hwf.
  rewrite (parse_turn_key_value _ _ _ _ _ Hi Hindent Hk Hkey).
  intros (current & val & Hle & _ & Hcurrent & Hval & ->)%parse_key_value_step;
    [|done..].
  exists current, val. repeat split; try done.
  by eapply parseValueFromTokens_no_object.
Qed.

Lemma dedent_reachable : reachable dedent_tokens 9 dedent_state.
Proof.
  eapply reach_turn; [eapply reach_turn; [eapply reach_turn; [apply reach_initial|]|]|].
  - vm_compute. reflexivity.
  - vm_compute. reflexivity.
  - vm_compute. reflexivity.
Defined.

Lemma key_value_stored_witness :
  exists current val,
    0 <= 0 <= currentLevel dedent_state
    /\ stack dedent_state !! Z.to_nat 0 = Some current
    /\ parseValueFromTokens (parse_fuel dedent_tokens) dedent_tokens 12 = Ok (val, 13%nat)
    /\ no_object val = true
    /\ [{[ "a" := VObject 1%nat; "top" := VInt 2 ]}; {[ "k" := VInt 1 ]}]
       = assign (ctx_map current) "top" val (heap dedent_state)
    /\ [mkContext 0 0] = take (Z.to_nat (0 + 1)) (stack dedent_state)
    /\ 0 = 0.
Proof.
  apply (key_value_stored dedent_input dedent_tokens 9 dedent_state
           (mkToken TOKEN_INDENT "" 4 0) (mkToken TOKEN_IDENTIFIER "top" 4 0) 13
           (mkParser [{[ "a" := VObject 1%nat; "top" := VInt 2 ]}; {[ "k" := VInt 1 ]}]
              [mkContext 0 0] 0)).
  - vm_compute. reflexivity.
  - apply dedent_reachable.
  - reflexivity.
  - reflexivity.
  - reflexivity.
  - reflexivity.
  - vm_compute. reflexivity.
Defined.

(** X21. A section header of stage [S] that the parser accepts is on a line at
    the level [S - 1], which is at most the current level; a new, empty
    map is assigned to its name in the map of the frame [S - 1], the
    frames from [S] on are dropped and the new map is pushed as the frame
    [S], the current level from then on. *)
Theorem section_opened content tokens i st indent open i' st' :
  tokenize content = Ok tokens ->
  reachable tokens i st ->
  tokens !! i = Some indent -> type indent = TOKEN_INDENT ->
  tokens !! S i = Some open -> type open = TOKEN_SECTION_OPEN ->
  parse_turn tokens i st = Ok (Continue i' st') ->
  exists name parent,
    level indent = level open - 1 /\ level indent <= currentLevel st
    /\ tokens !! S (S i) = Some name
    /\ stack st !! Z.to_nat (level indent) = Some parent
    /\ i' = S (S (S (S i)))
    /\ heap st' = assign (ctx_map parent) (literal name) (VObject (length (heap st)))
                    (push_back (heap st) ∅)
    /\ heap st' !! length (heap st) = Some ∅
    /\ stack st' = push_back (take (Z.to_nat (level open)) (stack st))
                     (mkContext (length (heap st)) (level open))
    /\ currentLevel st' = level open.
Proof.
  intros Htokens Hreach Hi Hindent Hk Hopen.
  pose proof (tokenize_lexed _ _ Htokens) as Hlexed.
  pose proof (reachable_inv _ _ _ Hlexed Hreach) as Hinv.
  pose proof (Forall_lookup_1 _ _ _ _ Hlexed Hk) as Hwf.
  unfold lexed_token in Hwf. rewrite Hopen in Hwf.
  rewrite (parse_turn_section _ _ _ _ _ Hi Hindent Hk Hopen).
  intros (name & parent & HL & Hle & Hname & _ & Hparent & -> & ->)%parse_section_step;
    [|done..].
  exists name, parent. repeat split; try done. simpl.
  destruct Hinv as [_ _ _ Hframes]. apply Hframes in Hparent as [_ Hlt].
  rewrite lookup_assign_ne by lia. unfold push_back. by rewrite lookup_cursor.
Qed.

Lemma section_opened_reachable : reachable one_section_tokens 1 initial.
Proof.
  eapply reach_turn; [apply reach_initial|]. vm_compute. reflexivity.
Defined.

Lemma section_opened_witness :
  exists name parent,
    0 = 1 - 1 /\ 0 <= currentLevel initial
    /\ one_section_tokens !! 3%nat = Some name
    /\ stack initial !! Z.to_nat 0 = Some parent
    /\ 5%nat = 5%nat
    /\ heap one_section_open
       = assign (ctx_map parent) (literal name) (VObject (length (heap initial)))
           (push_back (heap initial) ∅)
    /\ heap one_section_open !! length (heap initial) = Some ∅
    /\ stack one_section_open
       = push_back (take (Z.to_nat 1) (stack initial))
           (mkContext (length (heap initial)) 1)
    /\ currentLevel one_section_open = 1.
Proof.
  apply (section_opened one_section_input one_section_tokens 1 initial
           (mkToken TOKEN_INDENT "" 2 0) (mkToken TOKEN_SECTION_OPEN "" 2 1)
           5 one_section_open).
  - vm_compute. reflexivity.
  - apply section_opened_reachable.
  - reflexivity.
  - reflexivity.
  - reflexivity.
  - reflexivity.
  - vm_compute. reflexivity.
Defined.

(** ** The context stack is a path of the tree *)

Lemma stack_path_increasing st :
  store_tree (heap st) -> stack_path st ->
  forall (j k : nat) c c',
    (k < j)%nat -> stack st !! k = Some c -> stack st !! j = Some c' ->
    (ctx_map c < ctx_map c')%nat.
Proof.
  intros [Hfwd _ _] Hpath. induction j as [|j IH]; intros k c c' Hk Hc Hc'; [lia|].
  destruct (lookup_lt_is_Some_2 (stack st) j) as [d Hd].
  { apply lookup_lt_Some in Hc'. lia. }
  destruct (Hpath _ _ _ Hd Hc') as (name & m & Hm & Hname).
  pose proof (Hfwd _ _ _ _ Hm Hname) as Hlt.
  destruct (decide (k = j)) as [->|Hne].
  - assert (c = d) as -> by congruence. lia.
  - pose proof (IH k c d ltac:(lia) Hc Hd). lia.
Qed.

Lemma stack_path_initial : stack_path initial.
Proof. intros [|k] c c'; simpl; done. Qed.

Lemma parse_turn_stack_path tokens i st i' st' :
  Forall lexed_token tokens -> stack_inv st -> store_tree (heap st) ->
  parse_turn tokens i st = Ok (Continue i' st') ->
  stack_path st -> stack_path st'.
Proof.
  intros Hlexed Hinv Htree. unfold parse_turn.
  destruct (tokens !! i) as [token|] eqn:Htoken; [|done].
  pose proof (Forall_lookup_1 _ _ _ _ Hlexed Htoken) as Hwf.
  unfold lexed_token in Hwf.
  destruct (type token) eqn:Htype; try done; try by intros [= <- <-].
  destruct (tokens !! S i) as [nextToken|] eqn:Hnext; [|done].
  pose proof (Forall_lookup_1 _ _ _ _ Hlexed Hnext) as Hwf'.
  unfold lexed_token in Hwf'.
  destruct (type nextToken) eqn:Htype'; try done.
  - intros (name & parent & HL & Hle & _ & _ & Hparent & _ & ->)%parse_section_step
      Hpath; [|done..].
    pose proof Hinv as [Hlen Hdepth _ Hframes].
    assert (length (take (Z.to_nat (level nextToken)) (stack st))
            = Z.to_nat (level nextToken)) as Htake
      by (rewrite length_take; lia).
    intros k c c'. simpl. unfold push_back.
    intros Hc Hc'.
    apply lookup_app_Some in Hc' as [Hc'|[Hk Hc']].
    + apply lookup_take_Some in Hc' as [Hc' Hk'].
      rewrite lookup_app_l in Hc by lia.
      apply lookup_take_Some in Hc as [Hc _].
      destruct (Hpath _ _ _ Hc Hc') as (nm & m & Hm & Hnm).
      exists nm, m. split; [|done].
      pose proof (stack_path_increasing st Htree Hpath
                    (Z.to_nat (level token)) k c parent ltac:(lia) Hc Hparent).
      rewrite lookup_assign_ne by lia.
      apply lookup_app_l_Some. done.
    + rewrite Htake in Hk, Hc'.
      assert (S k = Z.to_nat (level nextToken)) as Hk' .
      { destruct (S k - Z.to_nat (level nextToken))%nat eqn:E; [lia|].
        by destruct n. }
      rewrite Hk', Nat.sub_diag in Hc'. simpl in Hc'. simplify_eq. simpl.
      rewrite lookup_app_l in Hc by lia.
      apply lookup_take_Some in Hc as [Hc _].
      assert (c = parent) as ->.
      { replace (Z.to_nat (level token)) with k in Hparent by lia. congruence. }
      apply Hframes in Hparent as Hlt. destruct Hlt as [_ Hlt].
      destruct (lookup_lt_is_Some_2 (heap st) (ctx_map parent) Hlt) as [m0 Hm0].
      exists (literal name), (<[literal name := VObject (length (heap st))]> m0).
      split; [|by rewrite lookup_insert_eq].
      apply lookup_assign_eq. by apply lookup_app_l_Some.
  - intros (current & val & Hle & _ & Hcurrent & _ & ->)%parse_key_value_step Hpath;
      [|done..].
    intros k c c'. simpl.
    intros [Hc _]%lookup_take_Some [Hc' Hk']%lookup_take_Some.
    destruct (Hpath _ _ _ Hc Hc') as (nm & m & Hm & Hnm).
    exists nm, m. split; [|done].
    pose proof (stack_path_increasing st Htree Hpath
                  (Z.to_nat (level token)) k c current ltac:(lia) Hc Hcurrent).
    rewrite lookup_assign_ne by lia. done.
Qed.

Lemma reachable_store_tree tokens i st :
  Forall lexed_token tokens -> reachable tokens i st ->
  store_tree (heap st) /\ stack_path st.
Proof.
  intros Hlexed. induction 1 as [|i st i' st' Hreach [Htree Hpath] Hturn].
  - split; [apply store_tree_initial|apply stack_path_initial].
  - pose proof (reachable_inv _ _ _ Hlexed Hreach) as Hinv. split.
    + by eapply parse_turn_store_tree.
    + by eapply parse_turn_stack_path.
Qed.

(** X22. In every state of the parser between two statements the context stack
    is a path of the tree of maps that starts at the root: the map of
    every frame above the root is the value of an entry of the map of the
    frame under it, and was made after it. *)
Theorem stack_is_path content tokens i st :
  tokenize content = Ok tokens ->
  reachable tokens i st ->
  stack_path st
  /\ forall (j k : nat) c c',
       (k < j)%nat -> stack st !! k = Some c -> stack st !! j = Some c' ->
       (ctx_map c < ctx_map c')%nat.
Proof.
  intros Htokens%tokenize_lexed Hreach.
  destruct (reachable_store_tree _ _ _ Htokens Hreach) as [Htree Hpath].
  split; [done|]. by apply stack_path_increasing.
Qed.

Lemma stack_is_path_witness :
  stack_path dedent_state
  /\ forall (j k : nat) c c',
       (k < j)%nat -> stack dedent_state !! k = Some c ->
       stack dedent_state !! j = Some c' ->
       (ctx_map c < ctx_map c')%nat.
Proof.
  apply (stack_is_path dedent_input dedent_tokens 9 dedent_state).
  - vm_compute. reflexivity.
  - apply dedent_reachable.
Defined.

(** ** A string entry, from the text to the document *)

Lemma getlines_line a b :
  forall_chars (fun c => negb (Ascii.eqb c LF)) a = true ->
  getlines LF (a ++ nl ++ b) = a :: getlines LF b.
Proof.
  induction a as [|c a IH]; [done|]. simpl forall_chars.
  intros [Hc Ha]%andb_true_iff. rewrite app_cons. simpl.
  apply negb_true_iff in Hc. rewrite Hc. by rewrite IH.
Qed.

Lemma getlines_last a :
  a <> "" -> forall_chars (fun c => negb (Ascii.eqb c LF)) a = true ->
  getlines LF a = [a].
Proof.
  induction a as [|c a IH]; [done|]. intros _. simpl.
  intros [Hc Ha]%andb_true_iff. apply negb_true_iff in Hc. rewrite Hc.
  destruct a as [|d a]; [done|]. by rewrite IH.
Qed.

Lemma strip_cr_snoc_other x c :
  Ascii.eqb c CR = false -> strip_cr (x ++ String c "") = x ++ String c "".
Proof.
  intros Hc. induction x as [|d x IH].
  - rewrite app_empty_l. simpl. by rewrite Hc.
  - rewrite app_cons. simpl. rewrite IH.
    destruct x; [rewrite app_empty_l|rewrite app_cons]; done.
Qed.

Lemma forall_chars_impl (p q : ascii -> bool) s :
  (forall c, p c = true -> q c = true) ->
  forall_chars p s = true -> forall_chars q s = true.
Proof.
  intros Hpq. induction s as [|c s IH]; [done|]. simpl.
  intros [Hc Hs]%andb_true_iff. by rewrite (Hpq c Hc), IH.
Qed.

Lemma key_char_not c :
  is_key_char c = true ->
  Ascii.eqb c SPACE = false /\ Ascii.eqb c TAB = false
  /\ Ascii.eqb c LF = false /\ Ascii.eqb c CR = false
  /\ c <> "("%char.
Proof. destruct c as [[] [] [] [] [] [] [] []]; vm_compute; by intuition. Qed.

(** The tokens of a line that binds a key to a string. *)
Lemma tokenize_string_entry key s :
  key <> "" -> forall_chars is_key_char key = true ->
  forall_chars is_dot_char s = true ->
  find "zZz" (key ++ " ~> " ++ quoted s) = None ->
  str_size s < 2 ^ 64 ->
  tokenize (unlines ["BULBA!"; key ++ " ~> " ++ quoted s])
  = Ok [mkToken TOKEN_HEADER "BULBA!" 1 0;
        mkToken TOKEN_INDENT "" 2 0;
        mkToken TOKEN_IDENTIFIER key 2 0;
        mkToken TOKEN_VINE_WHIP "" 2 0;
        mkToken TOKEN_STRING s 2 0;
        mkToken TOKEN_EOF "" 2 0].
Proof.
  intros Hkey Hkeys Hs Hcomment Hsize.
  set (line := key ++ " ~> " ++ quoted s).
  assert (exists c key', key = String c key') as (c & key' & Ekey)
    by (destruct key; [done|eauto]).
  assert (is_key_char c = true) as Hc.
  { rewrite Ekey in Hkeys. simpl in Hkeys. by apply andb_true_iff in Hkeys as [? _]. }
  destruct (key_char_not c Hc) as (Hsp & Htab & _ & _ & Hparen).
  assert (exists body, line = body ++ quote) as [body Hbody].
  { exists (key ++ " ~> " ++ quote ++ s). unfold line, quoted.
    by rewrite !app_assoc_string. }
  assert (exists r, line = String c r) as [r Hr].
  { exists (key' ++ " ~> " ++ quoted s). unfold line. by rewrite Ekey. }
  assert (forall_chars (fun c => negb (Ascii.eqb c LF)) line = true) as Hlf.
  { unfold line, quoted. rewrite !forall_chars_app.
    rewrite (forall_chars_impl is_key_char _ key); [|  |done].
    - rewrite (forall_chars_impl is_dot_char _ s); [done| |done].
      intros d Hd. unfold is_dot_char in Hd.
      by apply negb_true_iff, orb_false_iff in Hd as [-> _].
    - intros d Hd. by destruct (key_char_not d Hd) as (_ & _ & -> & _). }
  assert (line <> "") as Hne by (rewrite Hr; done).
  unfold tokenize, unlines. simpl String.concat. fold line.
  rewrite getlines_line by done. rewrite getlines_last by done.
  cbn [tokenize_lines].
  change (strip_cr "BULBA!") with "BULBA!". cbn [String.eqb negb].
  replace (String.eqb "BULBA!" "BULBA!") with true by done. cbn [negb].
  assert (strip_cr line = line) as ->.
  { rewrite Hbody. by apply strip_cr_snoc_other. }
  assert (strip_comment line = line) as ->.
  { unfold strip_comment. fold line in Hcomment. by rewrite Hcomment. }
  assert (drop_while_end isspace line = line) as ->.
  { rewrite Hbody. by apply drop_while_end_snoc. }
  rewrite eqb_empty_false by done.
  assert (scan_indent line 0 = (0, false)) as ->.
  { rewrite Hr. simpl. by rewrite Hsp, Htab. }
  cbn [negb Z.rem Z.eqb Z.quot]. change (Z.rem 0 4 =? 0) with true. cbn [negb].
  change (0 ÷ 4) with 0.
  assert (trim line = line) as ->.
  { assert (trim ("" ++ line ++ "") = line) as Htrim.
    { apply trim_app; [done..| |].
      - rewrite Hr. simpl. unfold is_blank. by rewrite Hsp, Htab.
      - rewrite Hbody. by apply drop_while_end_snoc. }
    by rewrite app_empty_l, app_empty_r in Htrim. }
  assert (tokenizeLine line 2
            (push_back (push_back [] (mkToken TOKEN_HEADER "BULBA!" (0 + 1) 0))
               (mkToken TOKEN_INDENT "" (0 + 1 + 1) 0))
          = Ok [mkToken TOKEN_HEADER "BULBA!" 1 0;
                mkToken TOKEN_INDENT "" 2 0;
                mkToken TOKEN_IDENTIFIER key 2 0;
                mkToken TOKEN_VINE_WHIP "" 2 0;
                mkToken TOKEN_STRING s 2 0]) as Htl.
  { unfold tokenizeLine.
    assert (forall p, startsWith line (String "(" p) = false) as Hstart.
    { intros p. destruct (startsWith _ _) eqn:E; [|done].
      rewrite Hr in E. by apply startsWith_head in E. }
    rewrite !Hstart. cbn [andb].
    assert (regex_match_kv line = Some (key, quoted s)) as ->.
    { apply (regex_match_kv_complete key " " "~" " " (quoted s)); try done.
      unfold quoted. rewrite !forall_chars_app, Hs. done. }
    unfold tokenizeValue_fuel.
    pose proof (tokenizeValue_quoted (String.length (quoted s)) "" s "" 2) as Hq.
    rewrite app_empty_l, app_empty_r in Hq.
    rewrite Hq by done. done. }
  change (0 + 1 + 1) with 2 in *. rewrite Htl. done.
Qed.

(** X23. A line that binds a key to a string between quotes, after the header
    line, gives the document whose root binds the key to the string as it
    stands: the key is a word of letters, digits and underscores other
    than the reserved name, and the string holds no line terminator; the
    line holds no comment marker. *)
Theorem string_entry_parses key s :
  key <> "" -> forall_chars is_key_char key = true ->
  key <> "Charizard" ->
  forall_chars is_dot_char s = true ->
  find "zZz" (key ++ " ~> " ++ quoted s) = None ->
  str_size s < 2 ^ 64 ->
  parse (unlines ["BULBA!"; key ++ " ~> " ++ quoted s])
  = Ok (mkDocument {[ key := VString s ]} [{[ key := VString s ]}]).
Proof.
  intros Hkey Hkeys Hres Hs Hcomment Hsize.
  unfold parse. rewrite tokenize_string_entry by done. cbn [bind].
  unfold parse_fuel. cbn [length parse_loop].
  unfold parse_turn at 1. cbn [lookup list_lookup type bind].
  unfold parse_turn at 1. cbn [lookup list_lookup type level bind].
  unfold parse_key_value, dedent, validateKey, parse_fuel.
  cbn [initial currentLevel Z.eqb negb bind literal].
  rewrite (proj2 (String.eqb_neq key "Charizard") Hres). cbn [bind].
  cbn [lookup list_lookup type bool_decide decide_rel negb].
  rewrite bool_decide_true by done. cbn [negb].
  rewrite parseValueFromTokens_S. cbn [lookup list_lookup type literal bind].
  cbn [stack last heap ctx_map].
  unfold parse_turn at 1. cbn [lookup list_lookup type bind heap].
  unfold assign, root. cbn [alter list_alter lookup list_lookup]. done.
Qed.

Lemma string_entry_parses_witness :
  parse (unlines ["BULBA!"; "name" ++ " ~> " ++ quoted "Bulba, saur"])
  = Ok (mkDocument {[ "name" := VString "Bulba, saur" ]}
          [{[ "name" := VString "Bulba, saur" ]}]).
Proof.
  apply (string_entry_parses "name" "Bulba, saur").
  - done.
  - reflexivity.
  - done.
  - reflexivity.
  - reflexivity.
  - vm_compute. reflexivity.
Defined.

(** ** The tests of main.cpp *)

(** X24. main returns 0: the valid input parses, and each of the six other
    inputs makes [parse] throw a message that holds the expected text. *)
Theorem main_passes : main = 0.
Proof. vm_compute. reflexivity. Qed.
